(** * stress-ng: the orchestrator, its stressors and its command line

    A shallow embedding of [stress-ng.c] (the option loop and its number
    readers, option post-processing, shared counter region, launch loop,
    reap loop, the iosync, cpu, vm and hdd stressors), [stress-null.c]
    (the budgeted write loop) and [stress-wait.c] ([spawn] and the
    runner / killer / waiter triad), followed by the properties that the
    specification states about them and by further properties of the
    code.

    Conventions.
    - C integers are [Z]; a conversion to an unsigned type is written out
      as a [mod].
    - [double] timestamps are rationals ([Q], seconds); the arithmetic on
      them is taken as exact.
    - A process interacts with the kernel through an explicit oracle: the
      value returned by the k-th [fork], the k-th reading of the clock, the
      list of values returned by successive blocking calls.  A loop around
      a blocking call is a [Fixpoint] over that list; when the list is used
      up, the process is still blocked in the call.
    - What a process does to the outside ([kill], [printf], [shm_unlink],
      the program its child starts) is appended to a chronological
      [trace]. *)

From Stdlib Require Import ZArith QArith Qround Lqa Sorted Ascii.
From stdpp Require Import gmap strings list pretty.

Local Open Scope Z_scope.

(** ** Constants of [stress-ng.c] *)

Definition EXIT_SUCCESS : Z := 0.
Definition EXIT_FAILURE : Z := 1.

Definition OPT_FLAGS_NO_CLEAN : Z := 0x00000001.
Definition OPT_FLAGS_DRY_RUN  : Z := 0x00000002.
Definition OPT_FLAGS_METRICS  : Z := 0x00000004.
Definition OPT_FLAGS_VM_KEEP  : Z := 0x00000008.

Definition PR_ERR : Z := 0x00010000.
Definition PR_INF : Z := 0x00020000.
Definition PR_DBG : Z := 0x00040000.
Definition PR_ALL : Z := Z.lor (Z.lor PR_ERR PR_INF) PR_DBG.

Definition DEFAULT_TIMEOUT : Z := 60 * 60 * 24.
Definition DEFAULT_BACKOFF : Z := 0.

(** [enum { STRESS_IOSYNC = 0, STRESS_CPU, STRESS_VM, STRESS_HDD, STRESS_MAX }] *)
Definition STRESS_IOSYNC : nat := 0.
Definition STRESS_CPU    : nat := 1.
Definition STRESS_VM     : nat := 2.
Definition STRESS_HDD    : nat := 3.
Definition STRESS_MAX    : nat := 4.

(** errno values (Linux) *)
Definition EINTR  : Z := 4.
Definition ECHILD : Z := 10.
Definition EAGAIN : Z := 11.

(** Conversions to the unsigned types the code passes values through. *)
Definition to_uint64 (z : Z) : Z := z mod 2 ^ 64.
Definition to_uint (z : Z) : Z := z mod 2 ^ 32.          (* unsigned int *)
Definition to_useconds_t (z : Z) : Z := z mod 2 ^ 32.    (* useconds_t *)

(** C truth value of an integer, and [!x]. *)
Definition c_true (z : Z) : bool := negb (z =? 0).
Definition c_not (z : Z) : Z := if z =? 0 then 1 else 0.

(** ** Options after command-line parsing *)

Record options := mk_options {
  opt_flags      : Z;       (* int32_t, default PR_ERR | PR_INF *)
  opt_timeout    : Z;       (* uint64_t *)
  opt_backoff    : Z;       (* int64_t, microseconds *)
  opt_cpu_ops    : Z;       (* uint64_t, 0 = unbounded *)
  opt_iosync_ops : Z;
  opt_vm_ops     : Z;
  opt_hdd_ops    : Z;
  num_procs      : list Z   (* int32_t num_procs[STRESS_MAX] *)
}.

Definition default_options : options :=
  {| opt_flags := Z.lor PR_ERR PR_INF;
     opt_timeout := DEFAULT_TIMEOUT;
     opt_backoff := DEFAULT_BACKOFF;
     opt_cpu_ops := 0; opt_iosync_ops := 0; opt_vm_ops := 0; opt_hdd_ops := 0;
     num_procs := [0; 0; 0; 0] |}.

(** [check_value]: a worker count outside 0..1024 ends the run during
    option parsing, so the counts that reach the orchestrator satisfy it. *)
Definition check_value (val : Z) : bool := negb ((val <? 0) || (1024 <? val)).

(** [#define DIV_OPS_BY_PROCS(opt, nproc) opt = (nproc == 0) ? 0 : opt / nproc;]
    [opt] is a [uint64_t], [nproc] an [int32_t] that the division converts
    to [uint64_t]. *)
Definition DIV_OPS_BY_PROCS (opt nproc : Z) : Z :=
  if nproc =? 0 then 0 else opt / to_uint64 nproc.

(** The four uses of the macro at the head of [main]. *)
Definition div_ops (o : options) : options :=
  {| opt_flags := opt_flags o;
     opt_timeout := opt_timeout o;
     opt_backoff := opt_backoff o;
     opt_cpu_ops := DIV_OPS_BY_PROCS (opt_cpu_ops o) (num_procs o !!! STRESS_CPU);
     opt_iosync_ops := DIV_OPS_BY_PROCS (opt_iosync_ops o) (num_procs o !!! STRESS_IOSYNC);
     opt_vm_ops := DIV_OPS_BY_PROCS (opt_vm_ops o) (num_procs o !!! STRESS_VM);
     opt_hdd_ops := DIV_OPS_BY_PROCS (opt_hdd_ops o) (num_procs o !!! STRESS_HDD);
     num_procs := num_procs o |}.

(** The operation budget a stressor of category [i] runs with. *)
Definition ops_of (o : options) (i : nat) : Z :=
  if decide (i = STRESS_IOSYNC) then opt_iosync_ops o
  else if decide (i = STRESS_CPU) then opt_cpu_ops o
  else if decide (i = STRESS_VM) then opt_vm_ops o
  else opt_hdd_ops o.

(** ** The hdd stressor's two clean-up tests ([stress_io]) *)

Module Hdd.

(** line 365: [if (!(opt_flags & OPT_FLAGS_NO_CLEAN)) unlink(filename);] *)
Definition unlink_before_write (flags : Z) : bool :=
  c_true (c_not (Z.land flags OPT_FLAGS_NO_CLEAN)).

(** line 378: [if ((!opt_flags & OPT_FLAGS_NO_CLEAN)) unlink(filename);]
    [!] binds tighter than [&]. *)
Definition unlink_after_close (flags : Z) : bool :=
  c_true (Z.land (c_not flags) OPT_FLAGS_NO_CLEAN).

(** The skip-cleanup flag is present in the option word. *)
Definition no_clean_set (flags : Z) : bool :=
  c_true (Z.land flags OPT_FLAGS_NO_CLEAN).

End Hdd.

(** ** Processes, signals and what the orchestrator leaves in its trace *)

Inductive signal := SIGINT | SIGALRM | SIGKILL | SIGSTOP | SIGCONT.

(** [proc_info_t] *)
Record proc_info_t := mk_proc {
  pid    : Z;    (* process id *)
  start  : Q;    (* time process started *)
  finish : Q     (* time process got reaped *)
}.

(** An entry of a [calloc]ed array. *)
Definition zero_proc : proc_info_t := {| pid := 0; start := 0%Q; finish := 0%Q |}.

Global Instance proc_info_inhabited : Inhabited proc_info_t := populate zero_proc.

(** What a worker does between [fork] and its exit: the [case 0] arm of
    the launch loop. *)
Inductive child_action :=
  | CAlarm (seconds : Z)             (* alarm(opt_timeout) *)
  | CUsleep (usecs : Z)              (* usleep(opt_backoff * n_procs) *)
  | CStress (i : nat) (slot : Z)     (* child_funcs[i](counters + slot) *)
  | CExit (code : Z).

(** [counters + (j * max) + i], in units of [uint64_t]. *)
Definition counter_slot (max : Z) (i : nat) (j : Z) : Z := j * max + Z.of_nat i.

(** [len = sizeof(uint64_t) * STRESS_MAX * max], and the number of counters
    a region of that many bytes holds. *)
Definition shm_len (max : Z) : Z := 8 * Z.of_nat STRESS_MAX * max.
Definition region_slots (max : Z) : Z := shm_len max / 8.

Definition child_main (o : options) (max n_procs : Z) (i : nat) (j : Z)
  : list child_action :=
  [CAlarm (to_uint (opt_timeout o));
   CUsleep (to_useconds_t (opt_backoff o * n_procs))]
  ++ (if c_true (c_not (Z.land (opt_flags o) OPT_FLAGS_DRY_RUN))
      then [CStress i (counter_slot max i j)] else [])
  ++ [CExit 0].

Inductive event :=
  | EvPrint (level msg : string)     (* pr_err, pr_inf, pr_dbg that passed the flag test *)
  | EvPrintf (msg : string)
  | EvShmUnlink (name : string)
  | EvShmOpen (name : string)
  | EvMmap (len : Z)
  | EvForkFailed (n_procs : Z) (i : nat) (j : Z)
  | EvSpawn (n_procs : Z) (i : nat) (j : Z) (child : Z) (prog : list child_action)
  | EvKill (target : Z) (s : signal)
  | EvReport (i : nat) (total : Z) (total_time rate : Q).

Inductive fork_result := ForkFailed | Forked (child : Z).

(** Return value of [wait] and the [errno] it leaves. *)
Record wait_result := mk_wait { wr_ret : Z; wr_errno : Z }.

(** The kernel as the orchestrator meets it. *)
Record world := mk_world {
  w_getpid    : Z;
  w_shm_ns    : gset string;          (* names in the shm namespace when [main] starts *)
  w_calloc    : nat -> bool;          (* the calloc for category i returns non-NULL *)
  w_shm_open  : Z;                    (* descriptor returned by shm_open, < 0 on failure *)
  w_ftruncate : Z;
  w_mmap_ok   : bool;                 (* mmap does not return MAP_FAILED *)
  w_fork      : nat -> fork_result;   (* outcome of the k-th fork, seen from the parent *)
  w_clock     : nat -> Q;             (* the k-th reading of time_now *)
  w_wait      : list wait_result;     (* successive returns of wait *)
  w_counters  : Z -> Z                (* contents of the region when the report reads it *)
}.

Record state := mk_state {
  procs         : list (list proc_info_t);   (* proc_info_t *procs[STRESS_MAX] *)
  started_procs : list Z;                    (* int32_t started_procs[STRESS_MAX] *)
  forks         : nat;                       (* calls of fork so far *)
  ticks         : nat;                       (* calls of time_now so far *)
  shm_ns        : gset string;               (* the shm namespace *)
  trace         : list event
}.

Definition log (es : list event) (st : state) : state :=
  mk_state (procs st) (started_procs st) (forks st) (ticks st) (shm_ns st)
           (trace st ++ es).

(** [print]: a message is written only if its class is enabled in [opt_flags]. *)
Definition print (o : options) (level : string) (flag : Z) (msg : string)
    (st : state) : state :=
  if c_true (Z.land (opt_flags o) flag) then log [EvPrint level msg] st else st.

Definition pr_dbg (o : options) := print o "debug" PR_DBG.
Definition pr_inf (o : options) := print o "info" PR_INF.
Definition pr_err (o : options) := print o "error" PR_ERR.

(** [time_now] *)
Definition time_now (w : world) (st : state) : Q * state :=
  (w_clock w (ticks st),
   mk_state (procs st) (started_procs st) (forks st) (S (ticks st)) (shm_ns st)
            (trace st)).

(** The entries [procs[i][j]] with [j < started_procs[i]], over which
    [send_alarm], [proc_finished] and the report run ([started_procs[i]]
    never exceeds the length of the array). *)
Definition tracked (ps : list (list proc_info_t)) (started : list Z) (i : nat)
  : list proc_info_t :=
  take (Z.to_nat (started !!! i)) (ps !!! i).

(** [send_alarm]: SIGALRM to every tracked entry, category by category. *)
Definition send_alarm (ps : list (list proc_info_t)) (started : list Z)
  : list event :=
  flat_map (fun i => map (fun p => EvKill (pid p) SIGALRM) (tracked ps started i))
           (seq 0 STRESS_MAX).

(** [proc_finished]: the first tracked entry with this pid gets its finish
    time; the clock is read whether or not one is found. *)
Fixpoint find_proc (p : Z) (ps : list (list proc_info_t)) (started : list Z)
    (cats : list nat) : option (nat * nat) :=
  match cats with
  | [] => None
  | i :: cats' =>
      match list_find (fun q => pid q = p) (tracked ps started i) with
      | Some (j, _) => Some (i, j)
      | None => find_proc p ps started cats'
      end
  end.

Definition proc_finished (w : world) (p : Z) (st : state) : state :=
  let (now, st) := time_now w st in
  match find_proc p (procs st) (started_procs st) (seq 0 STRESS_MAX) with
  | Some (i, j) =>
      let q := (procs st !!! i) !!! j in
      let q' := {| pid := pid q; start := start q; finish := now |} in
      mk_state (<[i := <[j := q']> (procs st !!! i)]> (procs st))
               (started_procs st) (forks st) (ticks st) (shm_ns st) (trace st)
  | None => st
  end.

(** ** The launch loop (lines 669-695)

    [launch_one] is the body of the inner [for] for one category [i];
    [inl] is the [goto out] taken when [fork] fails. *)

Definition forked (st : state) : state :=
  mk_state (procs st) (started_procs st) (S (forks st)) (ticks st) (shm_ns st)
           (trace st).

(** [case -1]: the message, [send_alarm], and then [goto out]. *)
Definition fork_failed (o : options) (n_procs : Z) (i : nat) (j : Z) (st : state)
  : state :=
  let st := log [EvForkFailed n_procs i j] st in
  let st := pr_err o "Cannot fork" st in
  log (send_alarm (procs st) (started_procs st)) st.

(** [default]: the parent fills in [procs[i][j]] and counts the worker. *)
Definition fork_parent (o : options) (w : world) (max n_procs : Z) (i : nat)
    (j child : Z) (st : state) : state :=
  let st := log [EvSpawn n_procs i j child (child_main o max n_procs i j)] st in
  let (now, st) := time_now w st in
  let q := (procs st !!! i) !!! Z.to_nat j in
  let q' := {| pid := child;
               start := (now + inject_Z (opt_backoff o * n_procs) / 1000000)%Q;
               finish := finish q |} in
  mk_state (<[i := <[Z.to_nat j := q']> (procs st !!! i)]> (procs st))
           (<[i := j + 1]> (started_procs st))
           (forks st) (ticks st) (shm_ns st) (trace st).

Definition launch_one (o : options) (w : world) (max n_procs : Z) (i : nat)
    (st : state) : state + state :=
  let j := started_procs st !!! i in
  if j <? num_procs o !!! i then
    match w_fork w (forks st) with
    | ForkFailed => inl (fork_failed o n_procs i j (forked st))
    | Forked child => inr (fork_parent o w max n_procs i j child (forked st))
    end
  else inr st.

(** The inner [for (i = 0; i < STRESS_MAX; i++)]. *)
Fixpoint launch_round (o : options) (w : world) (max n_procs : Z)
    (cats : list nat) (st : state) : state + state :=
  match cats with
  | [] => inr st
  | i :: cats' =>
      match launch_one o w max n_procs i st with
      | inl st' => inl st'
      | inr st' => launch_round o w max n_procs cats' st'
      end
  end.

(** The outer [for (n_procs = 0; n_procs < total_procs; n_procs++)], with
    [rounds] iterations left. *)
Fixpoint launch_rounds (o : options) (w : world) (max : Z) (rounds : nat)
    (n_procs : Z) (st : state) : state + state :=
  match rounds with
  | O => inr st
  | S rounds' =>
      match launch_round o w max n_procs (seq 0 STRESS_MAX) st with
      | inl st' => inl st'
      | inr st' => launch_rounds o w max rounds' (n_procs + 1) st'
      end
  end.

Definition launch (o : options) (w : world) (max total_procs : Z) (st : state)
  : state + state :=
  launch_rounds o w max (Z.to_nat total_procs) 0 st.

(** ** The reap loop (lines 698-709)

    [while (n_procs)] around the blocking [wait].  [Reaped]: the loop was
    left; [InWait n]: the orchestrator is blocked in [wait] with [n]
    workers outstanding. *)

Inductive reaping := Reaped (st : state) | InWait (n_procs : Z) (st : state).

Fixpoint reap (o : options) (w : world) (waits : list wait_result) (n_procs : Z)
    (st : state) : reaping :=
  if n_procs =? 0 then Reaped st
  else
    match waits with
    | [] => InWait n_procs st
    | r :: waits' =>
        if 0 <? wr_ret r then
          let st := proc_finished w (wr_ret r) st in
          let st := pr_dbg o "process [%d] terminated" st in
          reap o w waits' (n_procs - 1) st
        else if wr_ret r =? -1 then
          let st := log (send_alarm (procs st) (started_procs st)) st in
          let st := log [EvPrintf "Break"] st in
          reap o w waits' n_procs st
        else reap o w waits' n_procs st
    end.

Definition either_state (r : state + state) : state :=
  match r with inl st | inr st => st end.

Definition reaping_state (r : reaping) : state :=
  match r with Reaped st | InWait _ st => st end.

(** ** Setting up the shared counter region (lines 619-665) *)

(** [snprintf(shm_name, sizeof(shm_name) - 1, "stress_ng_%d", getpid())] *)
Definition shm_name (w : world) : string := "stress_ng_" +:+ pretty (w_getpid w).

(** [shm_unlink]: the name leaves the namespace; unlinking a name that is
    not there fails with ENOENT and changes nothing (the code ignores the
    return value). *)
Definition shm_unlink (name : string) (st : state) : state :=
  mk_state (procs st) (started_procs st) (forks st) (ticks st)
           (shm_ns st ∖ {[name]}) (trace st ++ [EvShmUnlink name]).

(** A successful [shm_open(name, O_RDWR | O_CREAT, 0)]. *)
Definition shm_create (name : string) (st : state) : state :=
  mk_state (procs st) (started_procs st) (forks st) (ticks st)
           (shm_ns st ∪ {[name]}) (trace st ++ [EvShmOpen name]).

(** The first loop of [main] over the categories: [max], the [calloc]ed
    arrays and [total_procs].  [None]: a [calloc] returned NULL. *)
Fixpoint alloc_procs (o : options) (w : world) (cats : list nat)
    (max : Z) (ps : list (list proc_info_t)) (total_procs : Z)
  : option (Z * list (list proc_info_t) * Z) :=
  match cats with
  | [] => Some (max, ps, total_procs)
  | i :: cats' =>
      let n := num_procs o !!! i in
      let max := if max <? n then n else max in
      if w_calloc w i
      then alloc_procs o w cats' max (ps ++ [replicate (Z.to_nat n) zero_proc])
                       (total_procs + n)
      else None
  end.

(** Lines 642-665.  [inl]: [exit(EXIT_FAILURE)]. *)
Definition setup_shm (o : options) (w : world) (max : Z) (st : state)
  : state + state :=
  let st := shm_unlink (shm_name w) st in
  if w_shm_open w <? 0 then
    inl (pr_err o "Cannot open shared memory region" st)
  else
    let st := shm_create (shm_name w) st in
    if w_ftruncate w <? 0 then
      let st := pr_err o "Cannot resize shared memory region" st in
      inl (shm_unlink (shm_name w) st)
    else if negb (w_mmap_ok w) then
      let st := pr_err o "Cannot mmap to shared memory region" st in
      inl (shm_unlink (shm_name w) st)
    else inr (log [EvMmap (shm_len max)] st).

(** ** The metrics report (lines 715-727) *)

Definition report_one (w : world) (max : Z) (st : state) (i : nat) : event :=
  let rows := tracked (procs st) (started_procs st) i in
  let total :=
    foldl (fun t j => to_uint64 (t + w_counters w (counter_slot max i (Z.of_nat j))))
          0 (seq 0 (length rows)) in
  let total_time := foldl (fun t q => (t + (finish q - start q))%Q) 0%Q rows in
  EvReport i total total_time
           (if Qlt_le_dec 0 total_time then (inject_Z total / total_time)%Q else 0%Q).

Definition report (o : options) (w : world) (max : Z) (st : state) : state :=
  if c_true (Z.land (opt_flags o) OPT_FLAGS_METRICS)
  then foldl (fun st i =>
                if c_true (Z.land (opt_flags o) PR_INF)
                then log [report_one w max st i] st else st)
             st (seq 0 STRESS_MAX)
  else st.

(** ** [main], from line 609 on *)

Inductive outcome :=
  | Exited (code : Z)          (* exit(code) *)
  | Waiting (n_procs : Z).     (* blocked in wait: the oracle's list is used up *)

(** The [out:] label. *)
Definition out (w : world) (st : state) : state * outcome :=
  (shm_unlink (shm_name w) st, Exited EXIT_SUCCESS).

Definition init_state (w : world) : state :=
  {| procs := []; started_procs := replicate STRESS_MAX 0; forks := O; ticks := O;
     shm_ns := w_shm_ns w; trace := [] |}.

Definition with_procs (ps : list (list proc_info_t)) (st : state) : state :=
  mk_state ps (started_procs st) (forks st) (ticks st) (shm_ns st) (trace st).

(** What follows the launch loop: [inl] is the [goto out] of a failed
    [fork], [inr] the normal way on. *)
Definition after_launch (o : options) (w : world) (max total_procs : Z)
    (r : state + state) : state * outcome :=
  match r with
  | inl st => out w st                                      (* goto out *)
  | inr st =>
      let st := pr_dbg o "%d processes running" st in
      match reap o w (w_wait w) total_procs st with
      | InWait n st => (st, Waiting n)
      | Reaped st =>
          let (time_finish, st) := time_now w st in
          let st := pr_inf o "successful run completed in %.2fs" st in
          out w (report o w max st)
      end
  end.

(** The part of [main] from the start of the clock to [exit]. *)
Definition run (o : options) (w : world) (max total_procs : Z) (st : state)
  : state * outcome :=
  let (time_start, st) := time_now w st in
  let st := pr_dbg o "starting processes" st in
  after_launch o w max total_procs (launch o w max total_procs st).

Definition main (o0 : options) (w : world) : state * outcome :=
  let o := div_ops o0 in
  let st := init_state w in
  match alloc_procs o w (seq 0 STRESS_MAX) 0 [] 0 with
  | None => (pr_err o "cannot allocate procs" st, Exited EXIT_FAILURE)
  | Some (max, ps, total_procs) =>
      let st := with_procs ps st in
      if total_procs =? 0 then
        (pr_err o "No stress workers specified" st, Exited EXIT_FAILURE)
      else
        let st := pr_inf o "dispatching hogs" st in
        match setup_shm o w max st with
        | inl st => (st, Exited EXIT_FAILURE)
        | inr st => run o w max total_procs st
        end
  end.

(** ** What [stress-ng.h] gives the stressors

    Modelled from the spec: [inc_counter], declared in [stress-ng.h], which
    is not among the sources.  The generic worker loop "advances the
    counter by one" per successful step; the counter is an unsigned 64-bit
    value. *)
Definition inc_counter (counter : Z) : Z := to_uint64 (counter + 1).

(** The loop test shared by the stressors:
    [opt_do_run && (!args->max_ops || *args->counter < args->max_ops)]. *)
Definition keep_stressing (do_run : bool) (max_ops counter : Z) : bool :=
  do_run && ((max_ops =? 0) || (counter <? max_ops)).

(** ** [stress_null] ([stress-null.c]) *)

Module Null.

Inductive nevent :=
  | NOpen (fd : Z)
  | NWrite (fd len : Z)
  | NFail (what : string)      (* pr_fail_err *)
  | NClose (fd : Z).

(** One pass through the loop as the kernel decides it: what [write]
    returns, the [errno] found afterwards, and [opt_do_run] when the loop
    test reads it. *)
Record step := mk_step { s_ret : Z; s_errno : Z; s_do_run : bool }.

Record nstate := mk_nstate {
  counter : Z;                 (* *args->counter *)
  fds     : list Z;            (* descriptors this worker holds open *)
  ntrace  : list nevent
}.

Definition close (fd : Z) (st : nstate) : nstate :=
  mk_nstate (counter st) (filter (fun x => x ≠ fd) (fds st))
            (ntrace st ++ [NClose fd]).

(** [write(fd, buffer, sizeof(buffer))] has been called. *)
Definition written (fd : Z) (st : nstate) : nstate :=
  mk_nstate (counter st) (fds st) (ntrace st ++ [NWrite fd 4096]).

(** The body of the [do ... while]: [inl] reaches the loop test (by
    falling through or by [continue]), [inr] is [return EXIT_FAILURE]. *)
Definition body (fd : Z) (s : step) (st : nstate) : nstate + (Z * nstate) :=
  let st := written fd st in
  if s_ret s <=? 0 then
    if (s_errno s =? EAGAIN) || (s_errno s =? EINTR) then inl st
    else if c_true (s_errno s) then
      let st := mk_nstate (counter st) (fds st) (ntrace st ++ [NFail "write"]) in
      inr (EXIT_FAILURE, close fd st)
    else inl st
  else inl (mk_nstate (inc_counter (counter st)) (fds st) (ntrace st)).

Inductive result :=
  | Returned (code : Z) (st : nstate)
  | Running (st : nstate).     (* blocked in write: no step left in the list *)

Fixpoint loop (max_ops fd : Z) (steps : list step) (st : nstate) : result :=
  match steps with
  | [] => Running st
  | s :: steps' =>
      match body fd s st with
      | inr (code, st') => Returned code st'
      | inl st' =>
          if keep_stressing (s_do_run s) max_ops (counter st')
          then loop max_ops fd steps' st'
          else Returned EXIT_SUCCESS (close fd st')
      end
  end.

(** [stress_null]: [open_ret] is what [open("/dev/null", O_WRONLY)] returns. *)
Definition stress_null (max_ops counter0 open_ret : Z) (steps : list step)
  : result :=
  if open_ret <? 0 then
    Returned EXIT_FAILURE (mk_nstate counter0 [] [NFail "open"])
  else
    loop max_ops open_ret steps (mk_nstate counter0 [open_ret] [NOpen open_ret]).

(** The number of steps of a list that [write] completed. *)
Definition successes (steps : list step) : Z :=
  Z.of_nat (length (filter (fun s => 0 < s_ret s) steps)).

End Null.

(** ** The wait stressor ([stress-wait.c]) *)

Module Wait.


Definition WIFCONTINUED (status : Z) : bool := status =? 0xffff.
Definition CLD_CONTINUED : Z := 6.

Inductive wevent :=
  | WDbg (msg : string)
  | WKill (target : Z) (s : signal)
  | WWaitpid (target : Z) (continued : bool)   (* options WCONTINUED or 0 *)
  | WWaitid (target : Z) (continued : bool)
  | WInc                                       (* inc_counter(args) *)
  | WExit (code : Z).

(** *** [killer] *)







(** *** [stress_wait], the parent *)

(** Which of the conditional blocks the preprocessor keeps.  The guards
    are spelled [WCONINUED] and [WIFCONINUED] in the source. *)
Record build := mk_build {
  def_WCONINUED   : bool;
  def_WIFCONINUED : bool;
  have_waitid     : bool    (* the feature-test condition of line 164 *)
}.

(** No header defines the two names; [waitid] is there on a POSIX.1-2008
    system. *)
Definition build_as_written : build :=
  {| def_WCONINUED := false; def_WIFCONINUED := false; have_waitid := true |}.

Record siginfo := mk_siginfo { si_signo : Z; si_code : Z }.

(** The richer query reports that the runner was continued. *)
Definition reports_continued (info : siginfo) : bool := si_code info =? CLD_CONTINUED.

(** What one pass of the parent's loop reads. *)
Record wobs := mk_wobs {
  wo_status : Z;        (* status stored by waitpid *)
  wo_run1   : bool;     (* opt_do_run after waitpid *)
  wo_info   : siginfo;  (* info stored by waitid *)
  wo_run2   : bool;     (* opt_do_run after waitid *)
  wo_run3   : bool      (* opt_do_run at the loop test *)
}.

Record wstate := mk_wstate { wcounter : Z; wtrace : list wevent }.

Definition wlog (es : list wevent) (st : wstate) : wstate :=
  mk_wstate (wcounter st) (wtrace st ++ es).

(** The two places that count:
    [#if defined(WIFCONINUED) if (WIFCONTINUED(status)) inc_counter(args);
     #else inc_counter(args); #endif] *)
Definition count (b : build) (status : Z) (st : wstate) : wstate :=
  if def_WIFCONINUED b && negb (WIFCONTINUED status) then st
  else mk_wstate (inc_counter (wcounter st)) (wtrace st ++ [WInc]).

(** The body of the parent's loop: [inl] reaches the loop test, [inr] is
    a [break]. *)
Definition wbody (b : build) (pid_r : Z) (o : wobs) (st : wstate)
  : wstate + wstate :=
  let st := wlog [WWaitpid pid_r (def_WCONINUED b)] st in
  if negb (wo_run1 o) then inr st
  else
    let st := count b (wo_status o) st in
    if have_waitid b then
      let st := wlog [WWaitid pid_r (def_WCONINUED b)] st in
      if negb (wo_run2 o) then inr st
      else inl (count b (wo_status o) st)
    else inl st.

Inductive wresult :=
  | WReturned (code : Z) (st : wstate)
  | WExited (code : Z) (st : wstate)
  | WMonitoring (st : wstate).        (* blocked in waitpid: observations used up *)

(** The teardown after the loop, and the [tidy:] label. *)
Definition tidy (pid_r : Z) (st : wstate) : wstate :=
  wlog [WKill pid_r SIGKILL; WWaitpid pid_r false] st.

Definition drain (pid_r pid_k : Z) (st : wstate) : wstate :=
  tidy pid_r (wlog [WKill pid_k SIGKILL; WWaitpid pid_k false] st).

Fixpoint monitor (b : build) (max_ops pid_r pid_k : Z) (obs : list wobs)
    (st : wstate) : wresult :=
  match obs with
  | [] => WMonitoring st
  | o :: obs' =>
      match wbody b pid_r o st with
      | inr st' => WReturned EXIT_SUCCESS (drain pid_r pid_k st')
      | inl st' =>
          if keep_stressing (wo_run3 o) max_ops (wcounter st')
          then monitor b max_ops pid_r pid_k obs' st'
          else WReturned EXIT_SUCCESS (drain pid_r pid_k st')
      end
  end.

(** [stress_wait]: [pid_r] and [pid_k] are what the two [spawn]s return. *)
Definition stress_wait (b : build) (max_ops counter0 pid_r pid_k : Z)
    (obs : list wobs) : wresult :=
  let st := mk_wstate counter0 [WDbg "waiter started"] in
  if pid_r <? 0 then WExited EXIT_FAILURE (wlog [WDbg "fork"] st)
  else if pid_k <? 0 then WReturned EXIT_FAILURE (tidy pid_r (wlog [WDbg "fork"] st))
  else monitor b max_ops pid_r pid_k obs st.

(** The number of [inc_counter] calls in a trace. *)
Definition is_inc (e : wevent) : bool :=
  match e with WInc => true | _ => false end.

Definition incs (tr : list wevent) : nat :=
  length (List.filter is_inc tr).

(** The number of [waitid] calls in a trace. *)
Definition is_waitid (e : wevent) : bool :=
  match e with WWaitid _ _ => true | _ => false end.

Definition waitids (tr : list wevent) : nat :=
  length (List.filter is_waitid tr).

(** *** The parent's counter seen from the killer

    [cnt t] is the value of the parent's progress counter at time [t]. *)









End Wait.

(** ** Sample kernels and configurations for the examples *)

Definition forks_ok (k : nat) : fork_result := Forked (100 + Z.of_nat k).

(** The first [n] forks succeed, the next one fails. *)
Definition forks_until (n : nat) (k : nat) : fork_result :=
  if (k <? n)%nat then Forked (100 + Z.of_nat k) else ForkFailed.

(** A clock that advances 100 microseconds between two readings. *)
Definition clock_100us (k : nat) : Q := (inject_Z (Z.of_nat k) / 10000)%Q.

Definition sample_world (f : nat -> fork_result) (waits : list wait_result)
  : world :=
  {| w_getpid := 4242; w_shm_ns := ∅; w_calloc := fun _ => true;
     w_shm_open := 3; w_ftruncate := 0; w_mmap_ok := true;
     w_fork := f; w_clock := clock_100us; w_wait := waits;
     w_counters := fun _ => 0 |}.

(** Default options with a backoff and the worker counts
    [iosync; cpu; vm; hdd]. *)
Definition sample_options (backoff : Z) (np : list Z) : options :=
  mk_options (Z.lor PR_ERR PR_INF) DEFAULT_TIMEOUT backoff 0 0 0 0 np.

(** ** The workers a trace has seen forked, and the launch invariant *)

Record worker := mk_worker {
  sp_round : Z;                    (* n_procs when the worker was forked *)
  sp_cat   : nat;                  (* its category i *)
  sp_index : Z;                    (* its index j within the category *)
  sp_pid   : Z;
  sp_prog  : list child_action
}.

(** The workers forked, in spawn order: the position of a worker in this
    list is its spawn sequence number. *)
Fixpoint spawned (tr : list event) : list worker :=
  match tr with
  | [] => []
  | EvSpawn n i j child prog :: tr' => mk_worker n i j child prog :: spawned tr'
  | _ :: tr' => spawned tr'
  end.

(** The failed forks and the signals sent that a trace records. *)
Definition is_fork_failed (e : event) : bool :=
  match e with EvForkFailed _ _ _ => true | _ => false end.

Definition is_kill (e : event) : bool :=
  match e with EvKill _ _ => true | _ => false end.

Definition fork_failures (tr : list event) : list event :=
  List.filter is_fork_failed tr.

Definition kills (tr : list event) : list event := List.filter is_kill tr.

(** [procs[i][j]] *)
Definition entry (st : state) (i : nat) (j : Z) : proc_info_t :=
  (procs st !!! i) !!! Z.to_nat j.

(** The worker counts are those [check_value] lets through. *)
Definition wf_options (o : options) : Prop :=
  length (num_procs o) = STRESS_MAX
  /\ forall i, (i < STRESS_MAX)%nat -> check_value (num_procs o !!! i) = true.

(** The state in which [main] enters the launch loop. *)
Definition launch_ready (o : options) (st : state) : Prop :=
  length (procs st) = STRESS_MAX
  /\ (forall i, (i < STRESS_MAX)%nat ->
                length (procs st !!! i) = Z.to_nat (num_procs o !!! i))
  /\ started_procs st = replicate STRESS_MAX 0
  /\ spawned (trace st) = []
  /\ fork_failures (trace st) = []
  /\ kills (trace st) = [].

(** [started_procs[i]] in round [n] when the inner loop is about to look
    at category [c]. *)
Definition round_bound (o : options) (n : Z) (c i : nat) : Z :=
  Z.min (if (i <? c)%nat then n + 1 else n) (num_procs o !!! i).

(** What the orchestrator has on record for a forked worker; [k0] is the
    number of clock readings taken before the launch loop. *)
Definition spawn_recorded (o : options) (w : world) (max : Z) (k0 : nat)
    (st : state) (s : worker) : Prop :=
  (sp_cat s < STRESS_MAX)%nat
  /\ 0 <= sp_index s < started_procs st !!! sp_cat s
  /\ sp_index s = sp_round s
  /\ sp_prog s = child_main o max (sp_round s) (sp_cat s) (sp_index s)
  /\ pid (entry st (sp_cat s) (sp_index s)) = sp_pid s
  /\ sp_index s < num_procs o !!! sp_cat s
  /\ exists k, (k0 <= k < ticks st)%nat
       /\ start (entry st (sp_cat s) (sp_index s))
          = (w_clock w k + inject_Z (opt_backoff o * sp_round s) / 1000000)%Q.

Record launch_inv (o : options) (w : world) (max : Z) (k0 f0 : nat)
    (bound : nat -> Z) (st : state) : Prop := mk_launch_inv {
  inv_procs : length (procs st) = STRESS_MAX;
  inv_started_len : length (started_procs st) = STRESS_MAX;
  inv_rows : forall i, (i < STRESS_MAX)%nat ->
               length (procs st !!! i) = Z.to_nat (num_procs o !!! i);
  inv_started : forall i, (i < STRESS_MAX)%nat -> started_procs st !!! i = bound i;
  inv_ticks : (k0 <= ticks st)%nat;
  inv_forks : forks st = (f0 + length (spawned (trace st)))%nat;
  inv_spawned : forall s, s ∈ spawned (trace st) -> spawn_recorded o w max k0 st s;
  inv_tracked : forall i j, (i < STRESS_MAX)%nat -> 0 <= j < started_procs st !!! i ->
                  exists s, s ∈ spawned (trace st) /\ sp_cat s = i /\ sp_index s = j;
  inv_no_failure : fork_failures (trace st) = [];
  inv_no_kill : kills (trace st) = [];
  inv_started_le : forall i, (i < STRESS_MAX)%nat ->
                     started_procs st !!! i <= num_procs o !!! i
}.

Arguments inv_procs {o w max k0 f0 bound st} _.
Arguments inv_started_len {o w max k0 f0 bound st} _.
Arguments inv_rows {o w max k0 f0 bound st} _ i _.
Arguments inv_started {o w max k0 f0 bound st} _ i _.
Arguments inv_ticks {o w max k0 f0 bound st} _.
Arguments inv_forks {o w max k0 f0 bound st} _.
Arguments inv_spawned {o w max k0 f0 bound st} _ s _.
Arguments inv_tracked {o w max k0 f0 bound st} _ i j _ _.
Arguments inv_no_failure {o w max k0 f0 bound st} _.
Arguments inv_no_kill {o w max k0 f0 bound st} _.
Arguments inv_started_le {o w max k0 f0 bound st} _ i _.

(** The launch loop was left through [goto out]: [st'] is what the failing
    [fork] of round [n], category [c] made of a state that satisfied the
    invariant. *)
Definition left_by_fork_failure (o : options) (w : world) (max : Z) (k0 f0 : nat)
    (st' : state) : Prop :=
  exists n c bound st,
    launch_inv o w max k0 f0 bound st
    /\ st' = fork_failed o n c (started_procs st !!! c) (forked st).

(** Two states agree on what was forked and on the pid and start time of
    every entry (the reap loop only fills in finish times). *)
Definition same_record (st st' : state) : Prop :=
  spawned (trace st') = spawned (trace st)
  /\ fork_failures (trace st') = fork_failures (trace st)
  /\ started_procs st' = started_procs st
  /\ (ticks st <= ticks st')%nat
  /\ forall i j, pid (entry st' i j) = pid (entry st i j)
                 /\ start (entry st' i j) = start (entry st i j).

(** Two states hold the same books: only messages and shm events lie
    between them. *)
Definition same_books (st st' : state) : Prop :=
  procs st' = procs st
  /\ started_procs st' = started_procs st
  /\ ticks st' = ticks st
  /\ forks st' = forks st
  /\ spawned (trace st') = spawned (trace st)
  /\ fork_failures (trace st') = fork_failures (trace st)
  /\ kills (trace st') = kills (trace st).

(** The counter slot a worker's program hands to its stressor. *)
Fixpoint slot_of (prog : list child_action) : option Z :=
  match prog with
  | [] => None
  | CStress _ slot :: _ => Some slot
  | _ :: prog' => slot_of prog'
  end.

(** Category, index, pid and counter slot of the workers forked. *)
Definition slots (tr : list event) : list (nat * Z * Z * option Z) :=
  map (fun s => (sp_cat s, sp_index s, sp_pid s, slot_of (sp_prog s))) (spawned tr).

(** [max] as the first loop of [main] leaves it: the largest worker count. *)
Definition max_procs (o : options) : Z :=
  foldl (fun max i => let n := num_procs o !!! i in if max <? n then n else max)
        0 (seq 0 STRESS_MAX).

(** ** Quantities the further properties of the orchestrator speak of *)

(** [total_procs] as the first loop of [main] leaves it. *)
Definition total_requested (o : options) : Z :=
  foldl (fun t i => t + num_procs o !!! i) 0 (seq 0 STRESS_MAX).

(** The sum of [started_procs]. *)
Definition started_total (st : state) : Z :=
  foldl (fun t i => t + started_procs st !!! i) 0 (seq 0 STRESS_MAX).

(** The returns of [wait] that name a child. *)
Definition positives (waits : list wait_result) : Z :=
  Z.of_nat (length (List.filter (fun r => 0 <? wr_ret r) waits)).

(** The place in the [procs] arrays a worker is recorded at. *)
Definition proc_slot (s : worker) : nat * Z := (sp_cat s, sp_index s).

(** Round-robin order: an earlier round, or the same round and a smaller
    category number. *)
Definition launched_before (n : Z) (c : nat) (s : worker) : Prop :=
  sp_round s < n \/ (sp_round s = n /\ (sp_cat s < c)%nat).

Definition spawn_before (s1 s2 : worker) : Prop :=
  launched_before (sp_round s2) (sp_cat s2) s1.

(** No [fork] of the kernel fails. *)
Definition forks_succeed (w : world) : Prop := forall k, w_fork w k <> ForkFailed.

(** Every tracked entry holds the pid of a worker the trace has seen
    forked, and every signal in the trace is a SIGALRM to such a worker. *)
Definition tracked_are_spawned (st : state) : Prop :=
  forall i q, (i < STRESS_MAX)%nat -> q ∈ tracked (procs st) (started_procs st) i ->
              exists s, s ∈ spawned (trace st) /\ sp_pid s = pid q.

Definition kills_are_alarms (st : state) : Prop :=
  forall e, e ∈ kills (trace st) ->
            exists s, s ∈ spawned (trace st) /\ e = EvKill (sp_pid s) SIGALRM.

Definition signals_ok (st : state) : Prop :=
  tracked_are_spawned st /\ kills_are_alarms st.

(** ** Vocabulary for whole runs of [stress_null] *)

(** The state a run of the stressor is in, returned or not. *)
Definition null_state (r : Null.result) : Null.nstate :=
  match r with Null.Returned _ st | Null.Running st => st end.

Definition is_null_write (e : Null.nevent) : bool :=
  match e with Null.NWrite _ _ => true | _ => false end.

(** The number of [write] calls in a trace. *)
Definition null_writes (tr : list Null.nevent) : nat :=
  length (List.filter is_null_write tr).

(** [opt_do_run] is set at every loop test. *)
Definition flag_stays_set (steps : list Null.step) : Prop :=
  Forall (fun s => Null.s_do_run s = true) steps.

(** No [write] fails for good: one that does not complete leaves EAGAIN,
    EINTR or no error at all. *)
Definition no_fatal_write (steps : list Null.step) : Prop :=
  Forall (fun s => Null.s_ret s <= 0 ->
                   Null.s_errno s = EAGAIN \/ Null.s_errno s = EINTR
                   \/ Null.s_errno s = 0) steps.

(** ** [spawn] ([stress-wait.c]) and the waiter built on it *)

Module Spawn.

(** What one call of [fork] gives its caller: the return value, [errno],
    and [opt_do_run] as the retry test reads it. *)
Record fork_obs := mk_fork_obs { fo_ret : Z; fo_errno : Z; fo_do_run : bool }.

Inductive sevent :=
  | SFork
  | SSetpgid (pid : Z)           (* setpgid(pid, pgrp) *)
  | SParentDiedAlarm             (* stress_parent_died_alarm() *)
  | SFunc (pid_arg : Z)          (* func(args, pid_arg) *)
  | SExit (code : Z).

Inductive spawned_as :=
  | InParent (ret : Z)           (* [spawn] returned [ret] to its caller *)
  | InChild                      (* the new process: it ran [func] and left *)
  | Forking.                     (* the observations are used up *)

(** [again: pid = fork(); ...] *)
Fixpoint spawn (pid_arg : Z) (obs : list fork_obs) (tr : list sevent)
  : spawned_as * list sevent :=
  match obs with
  | [] => (Forking, tr)
  | o :: obs' =>
      let tr := tr ++ [SFork] in
      if fo_ret o <? 0 then
        if fo_do_run o && (fo_errno o =? EAGAIN) then spawn pid_arg obs' tr
        else (InParent (-1), tr)
      else if fo_ret o =? 0 then
        (InChild, tr ++ [SSetpgid 0; SParentDiedAlarm; SFunc pid_arg;
                         SExit EXIT_SUCCESS])
      else (InParent (fo_ret o), tr ++ [SSetpgid (fo_ret o)])
  end.

Definition is_fork (e : sevent) : bool :=
  match e with SFork => true | _ => false end.

(** The number of [fork] calls in a trace. *)
Definition fork_calls (tr : list sevent) : nat := length (List.filter is_fork tr).

(** A failure [spawn] answers by calling [fork] again. *)
Definition retried (o : fork_obs) : bool :=
  (fo_ret o <? 0) && fo_do_run o && (fo_errno o =? EAGAIN).

End Spawn.

(** Which process is looking, after the two [spawn]s of [stress_wait]. *)
Inductive waiter_view :=
  | AsWaiter (r : Wait.wresult)   (* the caller of [stress_wait] *)
  | AsRunner                      (* the first child *)
  | AsKiller (pid_r : Z)          (* the second child, given the runner's pid *)
  | Spawning.                     (* the fork observations are used up *)

(** [stress_wait] with its two calls of [spawn]: [forks_r] and [forks_k]
    are what [fork] gives during the first and the second. *)
Definition stress_wait_spawning (b : Wait.build) (max_ops counter0 : Z)
    (forks_r forks_k : list Spawn.fork_obs) (obs : list Wait.wobs) : waiter_view :=
  match fst (Spawn.spawn 0 forks_r []) with
  | Spawn.Forking => Spawning
  | Spawn.InChild => AsRunner
  | Spawn.InParent pid_r =>
      if pid_r <? 0
      then AsWaiter (Wait.stress_wait b max_ops counter0 pid_r 0 obs)
      else
        match fst (Spawn.spawn pid_r forks_k []) with
        | Spawn.Forking => Spawning
        | Spawn.InChild => AsKiller pid_r
        | Spawn.InParent pid_k =>
            AsWaiter (Wait.stress_wait b max_ops counter0 pid_r pid_k obs)
        end
  end.

(** The state the waiter is in, returned or not. *)
Definition wait_state (r : Wait.wresult) : Wait.wstate :=
  match r with
  | Wait.WReturned _ st | Wait.WExited _ st | Wait.WMonitoring st => st
  end.

(** The process a call of [kill], [waitpid] or [waitid] names. *)
Definition wait_target (e : Wait.wevent) : option Z :=
  match e with
  | Wait.WKill t _ | Wait.WWaitpid t _ | Wait.WWaitid t _ => Some t
  | _ => None
  end.

Definition is_wkill (e : Wait.wevent) : bool :=
  match e with Wait.WKill _ _ => true | _ => false end.

(** The pids [fork] handed out during a list of observations. *)
Definition forked_pids (obs : list Spawn.fork_obs) : list Z :=
  List.filter (fun p => 0 <? p) (map Spawn.fo_ret obs).

(** A call of [kill], [waitpid] or [waitid] that names one of [pids], a
    process of its own, and that, if it is a [kill], sends SIGKILL. *)
Definition own_call (pids : list Z) (e : Wait.wevent) : Prop :=
  match e with
  | Wait.WKill t s => 0 < t /\ t ∈ pids /\ s = SIGKILL
  | Wait.WWaitpid t _ | Wait.WWaitid t _ => 0 < t /\ t ∈ pids
  | _ => True
  end.

(** The teardown of [stress_wait] when both children exist, and when the
    killer could not be spawned. *)
Definition teardown (pid_r pid_k : Z) : list Wait.wevent :=
  (if pid_k <? 0 then []
   else [Wait.WKill pid_k SIGKILL; Wait.WWaitpid pid_k false])
  ++ [Wait.WKill pid_r SIGKILL; Wait.WWaitpid pid_r false].

(** ** The stressors of [stress-ng.c]

    A worker runs its stressor on a counter slot until the budget is
    spent or SIGALRM ends the process; [passes] is the number of passes
    of the loop it gets to make before that.  The counter is read and
    written by this worker alone. *)

Record bogo_state := mk_bogo {
  b_counter : Z;       (* *counter *)
  b_calls   : Z        (* calls of the operation under stress *)
}.

Inductive bogo_run :=
  | BogoReturned (st : bogo_state)     (* the loop test failed *)
  | BogoSpinning (st : bogo_state).    (* still in the loop *)

(** [do { <per_pass calls>; ( *counter)++; } while (!ops || *counter < ops);] *)
Fixpoint bogo_loop (per_pass : Z) (ops : Z) (passes : nat) (st : bogo_state)
  : bogo_run :=
  match passes with
  | O => BogoSpinning st
  | S passes' =>
      let st := mk_bogo (to_uint64 (b_counter st + 1)) (b_calls st + per_pass) in
      if c_true (c_not ops) || (b_counter st <? ops)
      then bogo_loop per_pass ops passes' st
      else BogoReturned st
  end.

(** [stress_iosync]: one [sync()] per pass. *)
Definition stress_iosync (o : options) (passes : nat) (counter : Z) : bogo_run :=
  bogo_loop 1 (opt_iosync_ops o) passes (mk_bogo counter 0).

(** [stress_cpu]: [for (i = 0; i < 16384; i++) sqrt((double)rand());] per pass. *)
Definition stress_cpu (o : options) (passes : nat) (counter : Z) : bogo_run :=
  bogo_loop 16384 (opt_cpu_ops o) passes (mk_bogo counter 0).

Definition bogo_final (r : bogo_run) : bogo_state :=
  match r with BogoReturned st | BogoSpinning st => st end.

(** *** Sizes and times the vm and hdd stressors read *)

Definition KB : Z := 1024.
Definition MB : Z := KB * KB.
Definition GB : Z := KB * KB * KB.

Definition MIN_VM_BYTES : Z := 4 * KB.
Definition MAX_VM_BYTES : Z := 1 * GB.
Definition DEFAULT_VM_BYTES : Z := 256 * MB.
Definition MIN_VM_STRIDE : Z := 1.
Definition MAX_VM_STRIDE : Z := 1 * MB.
Definition DEFAULT_VM_STRIDE : Z := 4 * KB.
Definition MIN_HDD_BYTES : Z := 1 * MB.
Definition MAX_HDD_BYTES : Z := 256 * GB.
Definition DEFAULT_HDD_BYTES : Z := 1 * GB.
Definition MIN_VM_HANG : Z := 0.
Definition MAX_VM_HANG : Z := 3600.
Definition DEFAULT_VM_HANG : Z := 2 ^ 64 - 1.       (* ~0ULL *)
Definition STRESS_HDD_BUF_SIZE : Z := 64 * 1024.

Record sizes := mk_sizes {
  opt_vm_bytes  : Z;
  opt_vm_stride : Z;
  opt_vm_hang   : Z;
  opt_hdd_bytes : Z
}.

Definition default_sizes : sizes :=
  {| opt_vm_bytes := DEFAULT_VM_BYTES; opt_vm_stride := DEFAULT_VM_STRIDE;
     opt_vm_hang := DEFAULT_VM_HANG; opt_hdd_bytes := DEFAULT_HDD_BYTES |}.

Definition to_uint8 (z : Z) : Z := z mod 2 ^ 8.
Definition to_int (z : Z) : Z := (z + 2 ^ 31) mod 2 ^ 32 - 2 ^ 31.   (* (int) *)

(** *** [stress_vm] *)

(** [buf]: NULL, MAP_FAILED, or the address [mmap] gave at its [n]-th
    successful call. *)
Inductive buf_t := NullBuf | MapFailed | Mapped (n : nat).

Inductive vm_event :=
  | VmMmap (len : Z) (ok : bool)
  | VmFill (gray : Z)          (* every [opt_vm_stride]-th byte set to [gray] *)
  | VmSleep (secs : Z)
  | VmErr (offset got : Z)     (* "detected memory error" *)
  | VmMunmap (len : Z).

(** What one pass finds: whether [mmap], if called, succeeds, and the
    first offset at which the byte read back differs from the one
    written, with the byte found. *)
Record vm_obs := mk_vm_obs { vo_mmap_ok : bool; vo_readback : option (Z * Z) }.

Record vm_state := mk_vm_state {
  vm_buf     : buf_t;
  vm_val     : Z;              (* uint8_t val *)
  vm_counter : Z;
  vm_maps    : nat;            (* successful mmap calls so far *)
  vm_trace   : list vm_event
}.

Inductive vm_run :=
  | VmExited (code : Z) (st : vm_state)
  | VmHung (st : vm_state)           (* for (;;) sleep(3600) *)
  | VmInvalidStore (st : vm_state)   (* a store through MAP_FAILED *)
  | VmFilling (st : vm_state)        (* a [for] loop with a stride of zero *)
  | VmSpinning (st : vm_state).      (* still in the loop *)

(** [(val >> 1) ^ val] *)
Definition gray_code (val : Z) : Z := to_uint8 (Z.lxor (Z.shiftr val 1) val).

Definition vm_log (es : list vm_event) (st : vm_state) : vm_state :=
  mk_vm_state (vm_buf st) (vm_val st) (vm_counter st) (vm_maps st)
              (vm_trace st ++ es).

Definition vm_keep (o : options) : bool :=
  c_true (Z.land (opt_flags o) OPT_FLAGS_VM_KEEP).

Definition is_null_buf (b : buf_t) : bool :=
  match b with NullBuf => true | _ => false end.

(** The part of a pass from the first [for] loop on; [gray] is this
    pass's [gray_code]. *)
Definition vm_work (o : options) (z : sizes) (ob : vm_obs) (gray : Z)
    (st : vm_state) : vm_state + vm_run :=
  if opt_vm_bytes z <=? 0 then
    (* neither loop is entered *)
    if opt_vm_hang z =? 0 then inr (VmHung st)
    else
      let st := if opt_vm_hang z =? DEFAULT_VM_HANG then st
                else vm_log [VmSleep (to_int (opt_vm_hang z))] st in
      let st := if vm_keep o then st else vm_log [VmMunmap (opt_vm_bytes z)] st in
      inl (mk_vm_state (vm_buf st) (vm_val st) (to_uint64 (vm_counter st + 1))
                       (vm_maps st) (vm_trace st))
  else
    match vm_buf st with
    | Mapped _ =>
        if opt_vm_stride z =? 0 then inr (VmFilling st)
        else
          let st := vm_log [VmFill gray] st in
          if opt_vm_hang z =? 0 then inr (VmHung st)
          else
            let st := if opt_vm_hang z =? DEFAULT_VM_HANG then st
                      else vm_log [VmSleep (to_int (opt_vm_hang z))] st in
            match vo_readback ob with
            | Some (offset, got) =>
                inr (VmExited EXIT_FAILURE (vm_log [VmErr offset got] st))
            | None =>
                let st := if vm_keep o then st
                          else vm_log [VmMunmap (opt_vm_bytes z)] st in
                inl (mk_vm_state (vm_buf st) (vm_val st)
                                 (to_uint64 (vm_counter st + 1))
                                 (vm_maps st) (vm_trace st))
            end
    | _ => inr (VmInvalidStore st)
    end.

(** One pass of the [do ... while]: [inl] reaches the loop test, by
    falling through or by [continue]. *)
Definition vm_pass (o : options) (z : sizes) (ob : vm_obs) (st : vm_state)
  : vm_state + vm_run :=
  let gray := gray_code (vm_val st) in
  let st := mk_vm_state (vm_buf st) (to_uint8 (vm_val st + 1)) (vm_counter st)
                        (vm_maps st) (vm_trace st) in
  if negb (vm_keep o) || (vm_keep o && is_null_buf (vm_buf st)) then
    if vo_mmap_ok ob then
      vm_work o z ob gray
        (mk_vm_state (Mapped (vm_maps st)) (vm_val st) (vm_counter st)
                     (S (vm_maps st))
                     (vm_trace st ++ [VmMmap (opt_vm_bytes z) true]))
    else
      inl (mk_vm_state MapFailed (vm_val st) (vm_counter st) (vm_maps st)
                       (vm_trace st ++ [VmMmap (opt_vm_bytes z) false]))
  else vm_work o z ob gray st.

Fixpoint vm_loop (o : options) (z : sizes) (obs : list vm_obs) (st : vm_state)
  : vm_run :=
  match obs with
  | [] => VmSpinning st
  | ob :: obs' =>
      match vm_pass o z ob st with
      | inr r => r
      | inl st' =>
          if c_true (c_not (opt_vm_ops o)) || (vm_counter st' <? opt_vm_ops o)
          then vm_loop o z obs' st'
          else VmExited 0 st'
      end
  end.

Definition stress_vm (o : options) (z : sizes) (obs : list vm_obs) (counter : Z)
  : vm_run :=
  vm_loop o z obs (mk_vm_state NullBuf 0 counter 0 []).

Definition vm_final (r : vm_run) : vm_state :=
  match r with
  | VmExited _ st | VmHung st | VmInvalidStore st | VmFilling st | VmSpinning st => st
  end.

Definition is_munmap (e : vm_event) : bool :=
  match e with VmMunmap _ => true | _ => false end.

Definition is_mmap (e : vm_event) : bool :=
  match e with VmMmap _ _ => true | _ => false end.

(** The numbers of [munmap] and of [mmap] calls in a trace. *)
Definition munmaps (tr : list vm_event) : nat := length (List.filter is_munmap tr).
Definition mmaps (tr : list vm_event) : nat := length (List.filter is_mmap tr).


(** The worker is between two passes or has left through [exit(0)]. *)
Definition vm_settled (r : vm_run) : bool :=
  match r with
  | VmExited code _ => code =? 0
  | VmSpinning _ => true
  | _ => false
  end.

(** *** [stress_io], the hdd stressor *)

Inductive io_event :=
  | IoMkstemp (file : nat) (fd : Z)    (* the [file]-th temporary file *)
  | IoUnlink (file : nat)
  | IoWrite (fd : Z)
  | IoClose (fd : Z)
  | IoErr (msg : string).

Record io_state := mk_io_state {
  io_counter : Z;
  io_files   : nat;          (* temporary files created so far *)
  io_open    : list Z;       (* descriptors held open *)
  io_names   : list nat;     (* temporary files whose name is still linked *)
  io_trace   : list io_event
}.

Inductive io_run :=
  | IoExited (code : Z) (st : io_state)
  | IoWriting (st : io_state)      (* in [write]: its results are used up *)
  | IoSpinning (st : io_state).    (* in [mkstemp]: its results are used up *)

Definition io_log (es : list io_event) (st : io_state) : io_state :=
  mk_io_state (io_counter st) (io_files st) (io_open st) (io_names st)
              (io_trace st ++ es).

(** [mkstemp] created the next temporary file and returned [fd]. *)
Definition io_created (fd : Z) (st : io_state) : io_state :=
  mk_io_state (io_counter st) (S (io_files st)) (fd :: io_open st)
              (io_names st ++ [io_files st])
              (io_trace st ++ [IoMkstemp (io_files st) fd]).

(** [unlink(filename)]; it fails, and changes nothing, when the name is
    gone already. *)
Definition io_unlink (file : nat) (st : io_state) : io_state :=
  mk_io_state (io_counter st) (io_files st) (io_open st)
              (List.filter (fun f => negb (Nat.eqb f file)) (io_names st))
              (io_trace st ++ [IoUnlink file]).

Definition io_close (fd : Z) (st : io_state) : io_state :=
  mk_io_state (io_counter st) (io_files st)
              (List.filter (fun x => negb (x =? fd)) (io_open st)) (io_names st)
              (io_trace st ++ [IoClose fd]).

(** [for (i = 0; i < opt_hdd_bytes; i += STRESS_HDD_BUF_SIZE)], from the
    test of [i] on: [writes] is what the coming [write] calls return.
    [inl] leaves the loop, by its test or by the [break], with the
    results not yet read. *)
Fixpoint io_fill (o : options) (z : sizes) (fd i : Z) (writes : list Z)
    (st : io_state) : (io_state * list Z) + io_run :=
  match writes with
  | [] => if i <? opt_hdd_bytes z then inr (IoWriting st) else inl (st, [])
  | ret :: writes' =>
      if i <? opt_hdd_bytes z then
        let st := io_log [IoWrite fd] st in
        if ret <? 0 then
          inr (IoExited EXIT_FAILURE (io_log [IoErr "write error"] st))
        else
          let st := mk_io_state (to_uint64 (io_counter st + 1)) (io_files st)
                                (io_open st) (io_names st) (io_trace st) in
          if c_true (opt_hdd_ops o) && (opt_hdd_ops o <=? io_counter st)
          then inl (st, writes')
          else io_fill o z fd (to_uint64 (i + STRESS_HDD_BUF_SIZE)) writes' st
      else inl (st, writes)
  end.

(** The [do ... while]: [mk] is what the coming [mkstemp] calls return. *)
Fixpoint io_loop (o : options) (z : sizes) (mk : list Z) (writes : list Z)
    (st : io_state) : io_run :=
  match mk with
  | [] => IoSpinning st
  | fd :: mk' =>
      if fd <? 0 then IoExited EXIT_FAILURE (io_log [IoErr "mkstemp failed"] st)
      else
        let file := io_files st in
        let st := io_created fd st in
        let st := if Hdd.unlink_before_write (opt_flags o)
                  then io_unlink file st else st in
        match io_fill o z fd 0 writes st with
        | inr r => r
        | inl (st, writes') =>
            let st := io_close fd st in
            let st := if Hdd.unlink_after_close (opt_flags o)
                      then io_unlink file st else st in
            if c_true (c_not (opt_hdd_ops o)) || (io_counter st <? opt_hdd_ops o)
            then io_loop o z mk' writes' st
            else IoExited 0 st
        end
  end.

(** [stress_io]: [malloc_ok] tells whether the buffer could be had. *)
Definition stress_io (o : options) (z : sizes) (malloc_ok : bool)
    (mk writes : list Z) (counter : Z) : io_run :=
  let st := mk_io_state counter 0 [] [] [] in
  if malloc_ok then io_loop o z mk writes st
  else IoExited EXIT_FAILURE (io_log [IoErr "cannot allocate buffer"] st).

Definition io_final (r : io_run) : io_state :=
  match r with IoExited _ st | IoWriting st | IoSpinning st => st end.

(** The worker has left through [exit(0)] or is between two passes. *)
Definition io_settled (r : io_run) : bool :=
  match r with
  | IoExited code _ => code =? 0
  | IoSpinning _ => true
  | IoWriting _ => false
  end.

Definition is_io_write (e : io_event) : bool :=
  match e with IoWrite _ => true | _ => false end.

(** The number of [write] calls in a trace. *)
Definition io_writes (tr : list io_event) : nat :=
  length (List.filter is_io_write tr).

(** ** The command line ([main], lines 516-607)

    [getopt_long] has split the command line into options: each is the
    code it returned with the argument it left in [optarg].  The C
    library's number readers are an oracle. *)

Record libc := mk_libc {
  atoi       : string -> Z;          (* an [int] *)
  sscanf_u64 : string -> option Z    (* [sscanf(str, "%" SCNu64, &val)]:
                                        the value stored when it returns 1 *)
}.

(** A computation of the parser: a value, an [exit], or a read beyond
    the end of a scale table. *)
Inductive parse (A : Type) :=
  | Ok (a : A)
  | Quit (code : Z) (msg : string)
  | PastTable.

Arguments Ok {A} a.
Arguments Quit {A} code msg.
Arguments PastTable {A}.

Definition parse_bind {A B : Type} (m : parse A) (f : A -> parse B) : parse B :=
  match m with
  | Ok a => f a
  | Quit code msg => Quit code msg
  | PastTable => PastTable
  end.

Notation "x <- m ;; f" := (parse_bind m (fun x => f))
  (at level 100, m at next level, right associativity).

(** [check_range]: the value when it lies within [lo..hi]. *)
Definition check_range (opt : string) (val lo hi : Z) : parse Z :=
  if (val <? lo) || (hi <? val) then Quit EXIT_FAILURE ("out of range for " +:+ opt)
  else Ok val.

(** [check_value] as the switch uses it. *)
Definition checked_value (msg : string) (val : Z) : parse Z :=
  if check_value val then Ok val
  else Quit EXIT_FAILURE ("Number of " +:+ msg +:+ " workers must be between 0 and 1024").

Definition get_uint64 (l : libc) (str : string) : parse Z :=
  match sscanf_u64 l str with
  | Some val => Ok val
  | None => Quit EXIT_FAILURE "Invalid number"
  end.

(** [scale_t] *)
Record scale_t := mk_scale { sc_ch : Z; sc_scale : Z }.

Definition chr (c : ascii) : Z := Z.of_nat (nat_of_ascii c).

Definition isdigit (ch : Z) : bool := (chr "0"%char <=? ch) && (ch <=? chr "9"%char).

Definition tolower (ch : Z) : Z :=
  if (chr "A"%char <=? ch) && (ch <=? chr "Z"%char) then ch + 32 else ch.

(** [for (i = 0; scales[i].ch; i++) if (ch == scales[i].ch) return val * scales[i].scale;]
    and what follows the loop.  The list is the array as it is
    initialised: running off its end is a read beyond the array. *)
Fixpoint find_scale (ch val : Z) (scales : list scale_t) (msg : string)
  : parse Z :=
  match scales with
  | [] => PastTable
  | s :: rest =>
      if sc_ch s =? 0 then Quit EXIT_FAILURE ("Illegal " +:+ msg +:+ " specifier")
      else if ch =? sc_ch s then Ok (to_uint64 (val * sc_scale s))
      else find_scale ch val rest msg
  end.

(** The last character of a string, [str[len - 1]]. *)
Definition last_char (str : string) : Z :=
  match String.get (String.length str - 1) str with
  | Some c => chr c
  | None => 0
  end.

Definition get_uint64_scale (l : libc) (str : string) (scales : list scale_t)
    (msg : string) : parse Z :=
  val <- get_uint64 l str ;;
  if (String.length str =? 0)%nat then Quit EXIT_FAILURE "invalid size"
  else
    let ch := last_char str in
    if isdigit ch then Ok val
    else find_scale (tolower ch) val scales msg.

Definition byte_scales : list scale_t :=
  [mk_scale (chr "b"%char) 1; mk_scale (chr "k"%char) (Z.shiftl 1 10);
   mk_scale (chr "m"%char) (Z.shiftl 1 20); mk_scale (chr "g"%char) (Z.shiftl 1 30);
   mk_scale 0 0].

Definition time_scales : list scale_t :=
  [mk_scale (chr "s"%char) 1; mk_scale (chr "m"%char) 60; mk_scale (chr "h"%char) 3600;
   mk_scale (chr "d"%char) (24 * 3600); mk_scale (chr "y"%char) (365 * 24 * 3600)].

Definition get_uint64_byte (l : libc) (str : string) : parse Z :=
  get_uint64_scale l str byte_scales "length".

Definition get_uint64_time (l : libc) (str : string) : parse Z :=
  get_uint64_scale l str time_scales "time".

(** The codes of the long options without a short form. *)
Definition OPT_VM_BYTES : Z := 1.
Definition OPT_VM_STRIDE : Z := 2.
Definition OPT_VM_HANG : Z := 3.
Definition OPT_VM_KEEP : Z := 4.
Definition OPT_HDD_BYTES : Z := 5.
Definition OPT_HDD_NOCLEAN : Z := 6.
Definition OPT_METRICS : Z := 7.
Definition OPT_CPU_OPS : Z := 8.
Definition OPT_IOSYNC_OPS : Z := 9.
Definition OPT_VM_OPS : Z := 10.
Definition OPT_HDD_OPS : Z := 11.

(** [long_options]: name, [has_arg], [val]. *)
Definition long_options : list (string * Z * Z) :=
  [("help", 0, chr "?"%char); ("version", 0, chr "V"%char); ("verbose", 0, chr "v"%char);
   ("quiet", 0, chr "q"%char); ("dry-run", 0, chr "n"%char); ("timeout", 1, chr "t"%char);
   ("backoff", 1, chr "b"%char); ("cpu", 1, chr "c"%char); ("io", 1, chr "i"%char);
   ("vm", 1, chr "m"%char); ("vm-bytes", 1, OPT_VM_BYTES);
   ("vm-stride", 1, OPT_VM_STRIDE); ("vm-hang", 1, OPT_VM_HANG);
   ("vm-keep", 1, OPT_VM_KEEP); ("hdd", 1, chr "d"%char);
   ("hdd-bytes", 1, OPT_HDD_BYTES); ("hdd-noclean", 0, OPT_HDD_NOCLEAN);
   ("metrics", 0, OPT_METRICS); ("cpu-ops", 1, OPT_CPU_OPS);
   ("io-ops", 1, OPT_IOSYNC_OPS); ("vm-ops", 1, OPT_VM_OPS);
   ("hdd-ops", 1, OPT_HDD_OPS)].

(** The short options, ["?Vvqnt:b:c:i:m:d:"] without the colons. *)
Definition short_options : list Z :=
  [chr "?"%char; chr "V"%char; chr "v"%char; chr "q"%char; chr "n"%char; chr "t"%char; chr "b"%char; chr "c"%char;
   chr "i"%char; chr "m"%char; chr "d"%char].

(** What [getopt_long] can return before -1: the value of a short or of
    a long option, or ['?'] for anything it does not recognise. *)
Definition getopt_codes : list Z :=
  chr "?"%char :: short_options ++ map snd long_options.

(** Everything the options set. *)
Record settings := mk_settings { s_opts : options; s_sizes : sizes }.

Definition default_settings : settings := mk_settings default_options default_sizes.

Definition set_flags (f : Z) (s : settings) : settings :=
  let o := s_opts s in
  mk_settings (mk_options f (opt_timeout o) (opt_backoff o) (opt_cpu_ops o)
                          (opt_iosync_ops o) (opt_vm_ops o) (opt_hdd_ops o)
                          (num_procs o))
              (s_sizes s).

Definition set_timeout (t : Z) (s : settings) : settings :=
  let o := s_opts s in
  mk_settings (mk_options (opt_flags o) t (opt_backoff o) (opt_cpu_ops o)
                          (opt_iosync_ops o) (opt_vm_ops o) (opt_hdd_ops o)
                          (num_procs o))
              (s_sizes s).

Definition set_backoff (b : Z) (s : settings) : settings :=
  let o := s_opts s in
  mk_settings (mk_options (opt_flags o) (opt_timeout o) b (opt_cpu_ops o)
                          (opt_iosync_ops o) (opt_vm_ops o) (opt_hdd_ops o)
                          (num_procs o))
              (s_sizes s).

(** [num_procs[i] = n] *)
Definition set_num_procs (i : nat) (n : Z) (s : settings) : settings :=
  let o := s_opts s in
  mk_settings (mk_options (opt_flags o) (opt_timeout o) (opt_backoff o)
                          (opt_cpu_ops o) (opt_iosync_ops o) (opt_vm_ops o)
                          (opt_hdd_ops o) (<[i := n]> (num_procs o)))
              (s_sizes s).

(** [opt_cpu_ops], [opt_iosync_ops], [opt_vm_ops] or [opt_hdd_ops],
    by stressor. *)
Definition set_ops (i : nat) (n : Z) (s : settings) : settings :=
  let o := s_opts s in
  mk_settings (mk_options (opt_flags o) (opt_timeout o) (opt_backoff o)
                 (if decide (i = STRESS_CPU) then n else opt_cpu_ops o)
                 (if decide (i = STRESS_IOSYNC) then n else opt_iosync_ops o)
                 (if decide (i = STRESS_VM) then n else opt_vm_ops o)
                 (if decide (i = STRESS_HDD) then n else opt_hdd_ops o)
                 (num_procs o))
              (s_sizes s).

Definition set_sizes (z : sizes) (s : settings) : settings :=
  mk_settings (s_opts s) z.

(** The [switch (c)] of the option loop. *)
Definition parse_option (l : libc) (c : Z) (optarg : string) (s : settings)
  : parse settings :=
  let o := s_opts s in
  let z := s_sizes s in
  if c =? chr "?"%char then Quit EXIT_SUCCESS "usage"
  else if c =? chr "V"%char then Quit EXIT_SUCCESS "version"
  else if c =? chr "v"%char then Ok (set_flags PR_ALL s)
  else if c =? chr "q"%char then
    Ok (set_flags (Z.land (opt_flags o) (Z.lnot PR_ALL)) s)
  else if c =? chr "n"%char then
    Ok (set_flags (Z.lor (opt_flags o) OPT_FLAGS_DRY_RUN) s)
  else if c =? chr "t"%char then
    t <- get_uint64_time l optarg ;; Ok (set_timeout t s)
  else if c =? chr "b"%char then Ok (set_backoff (atoi l optarg) s)
  else if c =? chr "c"%char then
    n <- checked_value "CPU" (atoi l optarg) ;; Ok (set_num_procs STRESS_CPU n s)
  else if c =? chr "i"%char then
    n <- checked_value "IO sync" (atoi l optarg) ;;
    Ok (set_num_procs STRESS_IOSYNC n s)
  else if c =? chr "m"%char then
    n <- checked_value "VM" (atoi l optarg) ;; Ok (set_num_procs STRESS_VM n s)
  else if c =? chr "d"%char then
    n <- checked_value "VM" (atoi l optarg) ;; Ok (set_num_procs STRESS_HDD n s)
  else if c =? OPT_VM_BYTES then
    v <- get_uint64_byte l optarg ;;
    v <- check_range "vm-bytes" v MIN_VM_BYTES MAX_VM_BYTES ;;
    Ok (set_sizes (mk_sizes v (opt_vm_stride z) (opt_vm_hang z) (opt_hdd_bytes z)) s)
  else if c =? OPT_VM_STRIDE then
    v <- get_uint64_byte l optarg ;;
    v <- check_range "vm-stride" v MIN_VM_STRIDE MAX_VM_STRIDE ;;
    Ok (set_sizes (mk_sizes (opt_vm_bytes z) v (opt_vm_hang z) (opt_hdd_bytes z)) s)
  else if c =? OPT_VM_HANG then
    v <- get_uint64_byte l optarg ;;
    v <- check_range "vm-hang" v MIN_VM_HANG MAX_VM_HANG ;;
    Ok (set_sizes (mk_sizes (opt_vm_bytes z) (opt_vm_stride z) v (opt_hdd_bytes z)) s)
  else if c =? OPT_VM_KEEP then
    Ok (set_flags (Z.lor (opt_flags o) OPT_FLAGS_VM_KEEP) s)
  else if c =? OPT_HDD_BYTES then
    v <- get_uint64_byte l optarg ;;
    v <- check_range "hdd-bytes" v MIN_HDD_BYTES MAX_HDD_BYTES ;;
    Ok (set_sizes (mk_sizes (opt_vm_bytes z) (opt_vm_stride z) (opt_vm_hang z) v) s)
  else if c =? OPT_HDD_NOCLEAN then
    Ok (set_flags (Z.lor (opt_flags o) OPT_FLAGS_NO_CLEAN) s)
  else if c =? OPT_METRICS then
    Ok (set_flags (Z.lor (opt_flags o) OPT_FLAGS_METRICS) s)
  else if c =? OPT_CPU_OPS then
    v <- get_uint64 l optarg ;;
    v <- check_range "cpu-ops" v 1000 100000000 ;; Ok (set_ops STRESS_CPU v s)
  else if c =? OPT_IOSYNC_OPS then
    v <- get_uint64 l optarg ;;
    v <- check_range "io-ops" v 1000 100000000 ;; Ok (set_ops STRESS_IOSYNC v s)
  else if c =? OPT_VM_OPS then
    v <- get_uint64 l optarg ;;
    v <- check_range "vm-ops" v 100 100000000 ;; Ok (set_ops STRESS_VM v s)
  else if c =? OPT_HDD_OPS then
    v <- get_uint64 l optarg ;;
    v <- check_range "hdd-ops" v 1000 100000000 ;; Ok (set_ops STRESS_HDD v s)
  else Quit EXIT_FAILURE "Unknown option".

(** The [for (;;)] around [getopt_long]. *)
Fixpoint parse_options (l : libc) (args : list (Z * string)) (s : settings)
  : parse settings :=
  match args with
  | [] => Ok s
  | (c, optarg) :: args' =>
      s' <- parse_option l c optarg s ;; parse_options l args' s'
  end.

(** [main] from its first line: the options, then the run. *)
Definition stress_ng (l : libc) (args : list (Z * string)) (w : world)
  : parse (state * outcome) :=
  s <- parse_options l args default_settings ;; Ok (main (s_opts s) w).

(** The option bits of the flag word, as opposed to the [PR_] bits. *)
Definition OPT_FLAGS_ALL : Z :=
  Z.lor (Z.lor OPT_FLAGS_NO_CLEAN OPT_FLAGS_DRY_RUN)
        (Z.lor OPT_FLAGS_METRICS OPT_FLAGS_VM_KEEP).

(** An operation budget as the range check leaves it: not given, or
    within [lo .. 100000000]. *)
Definition ops_in_range (lo v : Z) : Prop := v = 0 \/ lo <= v <= 100000000.

Definition valid_settings (s : settings) : Prop :=
  wf_options (s_opts s)
  /\ ops_in_range 1000 (opt_cpu_ops (s_opts s))
  /\ ops_in_range 1000 (opt_iosync_ops (s_opts s))
  /\ ops_in_range 100 (opt_vm_ops (s_opts s))
  /\ ops_in_range 1000 (opt_hdd_ops (s_opts s))
  /\ MIN_VM_BYTES <= opt_vm_bytes (s_sizes s) <= MAX_VM_BYTES
  /\ MIN_VM_STRIDE <= opt_vm_stride (s_sizes s) <= MAX_VM_STRIDE
  /\ (opt_vm_hang (s_sizes s) = DEFAULT_VM_HANG
      \/ MIN_VM_HANG <= opt_vm_hang (s_sizes s) <= MAX_VM_HANG)
  /\ MIN_HDD_BYTES <= opt_hdd_bytes (s_sizes s) <= MAX_HDD_BYTES.

(** A reader for the examples: decimal digits up to the first other
    character. *)
Fixpoint digits_value (acc : Z) (str : string) : Z :=
  match str with
  | EmptyString => acc
  | String c rest =>
      if isdigit (chr c) then digits_value (10 * acc + (chr c - chr "0"%char)) rest
      else acc
  end.

Definition sample_libc : libc :=
  {| atoi := digits_value 0;
     sscanf_u64 := fun str =>
       match str with
       | EmptyString => None
       | String c _ => if isdigit (chr c) then Some (to_uint64 (digits_value 0 str))
                       else None
       end |}.



(** * Properties *)

(** ** Budget division *)

Lemma to_uint64_small (z : Z) : 0 <= z < 2 ^ 64 -> to_uint64 z = z.
Proof. intros H. unfold to_uint64. apply Z.mod_small. exact H. Qed.

Lemma check_value_range (val : Z) : check_value val = true <-> 0 <= val <= 1024.
Proof. unfold check_value. split; intros H; [|apply negb_true_iff]; lia. Qed.

Lemma DIV_OPS_BY_PROCS_zero (opt : Z) : DIV_OPS_BY_PROCS opt 0 = 0.
Proof. reflexivity. Qed.

Lemma DIV_OPS_BY_PROCS_pos (opt nproc : Z) :
  0 < nproc <= 1024 -> DIV_OPS_BY_PROCS opt nproc = opt / nproc.
Proof.
  intros H. unfold DIV_OPS_BY_PROCS.
  destruct (Z.eqb_spec nproc 0) as [E|_]; [lia|].
  rewrite to_uint64_small; [reflexivity|lia].
Qed.

Lemma ops_of_div_ops (o : options) (i : nat) :
  (i < STRESS_MAX)%nat ->
  ops_of (div_ops o) i = DIV_OPS_BY_PROCS (ops_of o i) (num_procs o !!! i).
Proof.
  unfold STRESS_MAX. intros Hi.
  destruct i as [|[|[|[|i]]]]; try reflexivity. lia.
Qed.

(** C3: for each stressor category the per-worker operation budget is the
    category's total budget divided by its requested worker count, by
    integer division with the remainder dropped (10 / 3 gives 3); with a
    worker count of zero the guard of the macro yields zero instead of
    dividing. *)
Theorem per_worker_budget (o : options) (i : nat) :
  (i < STRESS_MAX)%nat ->
  check_value (num_procs o !!! i) = true ->
  let total := ops_of o i in
  let n := num_procs o !!! i in
  let per := ops_of (div_ops o) i in
  (n = 0 -> per = 0)
  /\ (n <> 0 -> per = total / n
               /\ exists r, total = n * per + r /\ 0 <= r < n)
  /\ DIV_OPS_BY_PROCS 10 3 = 3.
Proof.
  intros Hi Hn total n per. apply check_value_range in Hn. fold n in Hn.
  assert (Hper : per = DIV_OPS_BY_PROCS total n) by (apply ops_of_div_ops, Hi).
  split; [|split].
  - intros E. rewrite Hper, E. apply DIV_OPS_BY_PROCS_zero.
  - intros Hne. rewrite Hper, DIV_OPS_BY_PROCS_pos by lia.
    split; [reflexivity|]. exists (total mod n). split.
    + apply Z.div_mod. exact Hne.
    + apply Z.mod_pos_bound. lia.
  - reflexivity.
Qed.

Lemma per_worker_budget_witness :
  let o := mk_options (Z.lor PR_ERR PR_INF) 60 0 10 0 0 0 [0; 3; 0; 0] in
  ops_of (div_ops o) STRESS_CPU = 3
  /\ ops_of (div_ops o) STRESS_VM = 0.
Proof.
  intros o. split.
  - destruct (per_worker_budget o STRESS_CPU) as (_ & H & _).
    + unfold STRESS_CPU, STRESS_MAX. lia.
    + reflexivity.
    + destruct H as [H _]; [discriminate|]. rewrite H. reflexivity.
  - destruct (per_worker_budget o STRESS_VM) as (H & _).
    + unfold STRESS_VM, STRESS_MAX. lia.
    + reflexivity.
    + apply H. reflexivity.
Defined.

(** The budgets handed out never add up to more than the total. *)
Lemma per_worker_budget_sum (opt nproc : Z) :
  0 <= opt -> 0 <= nproc <= 1024 -> nproc * DIV_OPS_BY_PROCS opt nproc <= opt.
Proof.
  intros Ho Hn. destruct (Z.eq_dec nproc 0) as [->|Hne].
  - rewrite DIV_OPS_BY_PROCS_zero. lia.
  - rewrite DIV_OPS_BY_PROCS_pos by lia. apply Z.mul_div_le. lia.
Qed.

(** ** The hdd clean-up tests *)

Lemma c_true_c_not (z : Z) : c_true (c_not z) = negb (c_true z).
Proof. unfold c_true, c_not. destruct (Z.eqb_spec z 0); reflexivity. Qed.

Lemma unlink_before_write_iff (flags : Z) :
  Hdd.unlink_before_write flags = negb (Hdd.no_clean_set flags).
Proof. apply c_true_c_not. Qed.

Lemma unlink_after_close_iff (flags : Z) :
  Hdd.unlink_after_close flags = true <-> flags = 0.
Proof.
  unfold Hdd.unlink_after_close, c_not.
  destruct (Z.eqb_spec flags 0) as [->|Hne].
  - split; reflexivity.
  - split; intros H; [discriminate H|contradiction].
Qed.

(** C10 (the code departs from it): after the close the file is unlinked
    exactly when the whole option word is zero, not exactly when the
    skip-cleanup flag is absent.  With the default option word
    (PR_ERR | PR_INF) the flag is absent, the test before the write
    unlinks, and the test after the close does not. *)
Theorem hdd_cleanup_after_close_mismatch :
  (forall flags, Hdd.unlink_after_close flags = true <-> flags = 0)
  /\ Hdd.no_clean_set (opt_flags default_options) = false
  /\ Hdd.unlink_before_write (opt_flags default_options) = true
  /\ Hdd.unlink_after_close (opt_flags default_options) = false.
Proof.
  split; [exact unlink_after_close_iff|].
  split; [|split]; reflexivity.
Qed.

(** ** The /dev/null stressor *)

Lemma inc_counter_succ (c : Z) : 0 <= c < 2 ^ 64 - 1 -> inc_counter c = c + 1.
Proof. intros H. unfold inc_counter. apply to_uint64_small. lia. Qed.

Lemma null_close_releases (fd : Z) (st : Null.nstate) :
  fd ∉ Null.fds (Null.close fd st).
Proof.
  unfold Null.close. cbn. intros H. apply list_elem_of_filter in H.
  destruct H as [H _]. apply H. reflexivity.
Qed.

Lemma null_body_transient (fd : Z) (s : Null.step) (st : Null.nstate) :
  Null.s_ret s <= 0 -> Null.s_errno s = EAGAIN \/ Null.s_errno s = EINTR ->
  Null.body fd s st = inl (Null.written fd st).
Proof.
  intros Hr He. unfold Null.body.
  destruct (Z.leb_spec (Null.s_ret s) 0) as [_|?]; [|lia].
  destruct He as [-> | ->]; reflexivity.
Qed.

Lemma null_body_fatal (fd : Z) (s : Null.step) (st : Null.nstate) :
  Null.s_ret s <= 0 ->
  Null.s_errno s <> EAGAIN -> Null.s_errno s <> EINTR -> Null.s_errno s <> 0 ->
  Null.body fd s st =
  inr (EXIT_FAILURE,
       Null.close fd (Null.mk_nstate (Null.counter st) (Null.fds st)
                        (Null.ntrace (Null.written fd st) ++ [Null.NFail "write"]))).
Proof.
  intros Hr H1 H2 H3. unfold Null.body, c_true.
  destruct (Z.leb_spec (Null.s_ret s) 0) as [_|?]; [|lia].
  destruct (Z.eqb_spec (Null.s_errno s) EAGAIN); [contradiction|].
  destruct (Z.eqb_spec (Null.s_errno s) EINTR); [contradiction|].
  destruct (Z.eqb_spec (Null.s_errno s) 0); [contradiction|].
  reflexivity.
Qed.

Lemma null_body_success (fd : Z) (s : Null.step) (st : Null.nstate) :
  0 < Null.s_ret s ->
  Null.body fd s st =
  inl (Null.mk_nstate (inc_counter (Null.counter st)) (Null.fds st)
         (Null.ntrace (Null.written fd st))).
Proof.
  intros Hr. unfold Null.body.
  destruct (Z.leb_spec (Null.s_ret s) 0) as [?|_]; [lia|]. reflexivity.
Qed.

(** Over a whole run of the loop that is still going, the counter has
    advanced by the number of writes that succeeded. *)
Lemma null_loop_counts (max_ops fd : Z) (steps : list Null.step) :
  forall st st',
    0 <= Null.counter st ->
    Null.counter st + Null.successes steps < 2 ^ 64 ->
    Null.loop max_ops fd steps st = Null.Running st' ->
    Null.counter st' = Null.counter st + Null.successes steps.
Proof.
  unfold Null.successes.
  induction steps as [|s steps IH]; intros st st' H0 Hb Hrun.
  - cbn in *. injection Hrun as <-. lia.
  - cbn [Null.loop] in Hrun. rewrite filter_cons in Hb |- *.
    destruct (Z.leb_spec (Null.s_ret s) 0) as [Hle|Hgt].
    + destruct (decide (0 < Null.s_ret s)) as [?|_]; [lia|].
      unfold Null.body in Hrun.
      destruct (Z.leb_spec (Null.s_ret s) 0) as [_|?]; [|lia].
      destruct ((Null.s_errno s =? EAGAIN) || (Null.s_errno s =? EINTR)).
      * destruct (keep_stressing _ _ _); [|discriminate].
        apply IH in Hrun; [exact Hrun | exact H0 | exact Hb].
      * destruct (c_true (Null.s_errno s)); [discriminate|].
        destruct (keep_stressing _ _ _); [|discriminate].
        apply IH in Hrun; [exact Hrun | exact H0 | exact Hb].
    + destruct (decide (0 < Null.s_ret s)) as [_|?]; [|lia].
      rewrite null_body_success in Hrun by lia.
      destruct (keep_stressing _ _ _); [|discriminate].
      cbn [length] in Hb |- *.
      apply IH in Hrun; cbn [Null.counter] in *;
        rewrite ?inc_counter_succ in * by lia; lia.
Qed.

(** C9: in the loop of [stress_null], a [write] that fails with EAGAIN or
    EINTR leaves the counter alone and, if the loop test still holds, the
    same write is issued again; a [write] that fails with any other error
    (a failing [write] leaves a non-zero [errno]) closes the descriptor
    and returns EXIT_FAILURE whatever would have followed; a [write] that
    succeeds advances the counter by exactly one, and it is with the
    advanced counter that the loop is tested and goes on.  Over the passes
    of a loop that is still going, the counter has advanced by the number
    of writes that succeeded. *)
Theorem null_step_contract (max_ops fd : Z) (s : Null.step)
    (rest : list Null.step) (st : Null.nstate) :
  (Null.s_ret s <= 0 -> Null.s_errno s = EAGAIN \/ Null.s_errno s = EINTR ->
     Null.counter (Null.written fd st) = Null.counter st
     /\ Null.fds (Null.written fd st) = Null.fds st
     /\ Null.loop max_ops fd (s :: rest) st =
        if keep_stressing (Null.s_do_run s) max_ops (Null.counter st)
        then Null.loop max_ops fd rest (Null.written fd st)
        else Null.Returned EXIT_SUCCESS (Null.close fd (Null.written fd st)))
  /\ (Null.s_ret s <= 0 ->
      Null.s_errno s <> EAGAIN -> Null.s_errno s <> EINTR -> Null.s_errno s <> 0 ->
      exists st', Null.loop max_ops fd (s :: rest) st = Null.Returned EXIT_FAILURE st'
                  /\ (fd ∉ Null.fds st')
                  /\ Null.counter st' = Null.counter st)
  /\ (0 < Null.s_ret s -> 0 <= Null.counter st < 2 ^ 64 - 1 ->
      exists st', Null.body fd s st = inl st'
                  /\ Null.counter st' = Null.counter st + 1
                  /\ Null.fds st' = Null.fds st
                  /\ Null.ntrace st' = Null.ntrace (Null.written fd st)
                  /\ Null.loop max_ops fd (s :: rest) st =
                     if keep_stressing (Null.s_do_run s) max_ops (Null.counter st + 1)
                     then Null.loop max_ops fd rest st'
                     else Null.Returned EXIT_SUCCESS (Null.close fd st'))
  /\ (forall st', 0 <= Null.counter st ->
                  Null.counter st + Null.successes (s :: rest) < 2 ^ 64 ->
                  Null.loop max_ops fd (s :: rest) st = Null.Running st' ->
                  Null.counter st' = Null.counter st + Null.successes (s :: rest)).
Proof.
  split; [|split; [|split]].
  - intros Hr He. split; [reflexivity|]. split; [reflexivity|].
    cbn [Null.loop]. rewrite null_body_transient by assumption. reflexivity.
  - intros Hr H1 H2 H3. eexists. cbn [Null.loop].
    rewrite null_body_fatal by assumption.
    split; [reflexivity|]. split; [apply null_close_releases|reflexivity].
  - intros Hr Hc. eexists. rewrite null_body_success by assumption.
    split; [reflexivity|].
    assert (Hinc : inc_counter (Null.counter st) = Null.counter st + 1)
      by (apply inc_counter_succ, Hc).
    split; [exact Hinc|]. split; [reflexivity|]. split; [reflexivity|].
    cbn [Null.loop]. rewrite null_body_success by assumption.
    cbn [Null.counter]. rewrite Hinc. reflexivity.
  - intros st' H0 Hb Hrun. apply (null_loop_counts max_ops fd (s :: rest) st st' H0 Hb Hrun).
Qed.

Lemma null_step_contract_witness :
  let st := Null.mk_nstate 7 [3] [] in
  (exists st', Null.loop 0 3 [Null.mk_step (-1) EINTR true] st = Null.Running st'
               /\ Null.counter st' = 7)
  /\ (exists st', Null.loop 0 3 [Null.mk_step (-1) 28 true; Null.mk_step 4096 0 true] st
                  = Null.Returned EXIT_FAILURE st'
                  /\ Null.fds st' = [])
  /\ (exists st', Null.loop 9 3 [Null.mk_step 4096 0 true] st = Null.Running st'
                  /\ Null.counter st' = 8)
  /\ (exists st', Null.loop 8 3 [Null.mk_step 4096 0 true; Null.mk_step 4096 0 true] st
                  = Null.Returned EXIT_SUCCESS st'
                  /\ Null.counter st' = 8).
Proof.
  intros st. split; [|split; [|split]].
  - destruct (null_step_contract 0 3 (Null.mk_step (-1) EINTR true) [] st)
      as (H & _ & _).
    destruct H as (_ & _ & H); [cbn; lia | right; reflexivity |].
    exists (Null.written 3 st). split; [exact H | reflexivity].
  - destruct (null_step_contract 0 3 (Null.mk_step (-1) 28 true)
                [Null.mk_step 4096 0 true] st) as (_ & H & _).
    destruct H as (st' & H & _ & _); [cbn; lia | discriminate.. |].
    exists st'. split; [exact H|].
    cbn in H. injection H as <-. reflexivity.
  - destruct (null_step_contract 9 3 (Null.mk_step 4096 0 true) [] st)
      as (_ & _ & H & _).
    destruct H as (st' & _ & Hc & _ & _ & Hl); [cbn; lia | cbn; lia |].
    exists st'. split; [exact Hl | exact Hc].
  - destruct (null_step_contract 8 3 (Null.mk_step 4096 0 true)
                [Null.mk_step 4096 0 true] st) as (_ & _ & H & _).
    destruct H as (st' & _ & Hc & _ & _ & Hl); [cbn; lia | cbn; lia |].
    exists (Null.close 3 st'). split; [exact Hl | exact Hc].
Defined.


(** ** The parent of the triad: what it counts *)

Lemma incs_app (tr es : list Wait.wevent) :
  Wait.incs (tr ++ es) = (Wait.incs tr + Wait.incs es)%nat.
Proof. unfold Wait.incs. rewrite List.filter_app, length_app. reflexivity. Qed.

Lemma waitids_app (tr es : list Wait.wevent) :
  Wait.waitids (tr ++ es) = (Wait.waitids tr + Wait.waitids es)%nat.
Proof. unfold Wait.waitids. rewrite List.filter_app, length_app. reflexivity. Qed.

Lemma count_waitids (b : Wait.build) (status : Z) (st : Wait.wstate) :
  Wait.waitids (Wait.wtrace (Wait.count b status st)) = Wait.waitids (Wait.wtrace st).
Proof.
  unfold Wait.count. destruct (_ && _); [reflexivity|].
  cbn [Wait.wtrace]. rewrite waitids_app. cbn. lia.
Qed.

Lemma count_as_written (status : Z) (st : Wait.wstate) :
  Wait.count Wait.build_as_written status st
  = Wait.mk_wstate (inc_counter (Wait.wcounter st)) (Wait.wtrace st ++ [Wait.WInc]).
Proof. reflexivity. Qed.

Lemma count_guarded (b : Wait.build) (status : Z) (st : Wait.wstate) :
  Wait.def_WIFCONINUED b = true ->
  Wait.count b status st
  = if Wait.WIFCONTINUED status
    then Wait.mk_wstate (inc_counter (Wait.wcounter st)) (Wait.wtrace st ++ [Wait.WInc])
    else st.
Proof.
  intros Hd. unfold Wait.count. rewrite Hd. destruct (Wait.WIFCONTINUED status); reflexivity.
Qed.

(** C8 (the code departs from it): in a pass in which the stop flag stays
    clear, the parent does call [waitid] once where it is compiled in, but
    in the build as written it then advances the counter a second time
    whatever [waitpid] and [waitid] reported, also when neither reported
    a continuation.  The test the code writes before each count,
    [if (WIFCONTINUED(status))], is compiled only under
    [#if defined(WIFCONINUED)], a name no header defines; in a build in
    which that guard is in effect, the same pass counts twice when the
    status says "continued" and not at all otherwise. *)
Theorem second_count_guard_disabled (pid_r : Z) (o : Wait.wobs) (st : Wait.wstate) :
  Wait.wo_run1 o = true -> Wait.wo_run2 o = true ->
  0 <= Wait.wcounter st < 2 ^ 64 - 2 ->
  (forall b, Wait.have_waitid b = true ->
     exists st', Wait.wbody b pid_r o st = inl st'
                 /\ Wait.waitids (Wait.wtrace st')
                    = (Wait.waitids (Wait.wtrace st) + 1)%nat)
  /\ (exists st', Wait.wbody Wait.build_as_written pid_r o st = inl st'
                  /\ Wait.wcounter st' = Wait.wcounter st + 2
                  /\ Wait.incs (Wait.wtrace st') = (Wait.incs (Wait.wtrace st) + 2)%nat)
  /\ (forall b, Wait.def_WIFCONINUED b = true -> Wait.have_waitid b = true ->
        exists st', Wait.wbody b pid_r o st = inl st'
                    /\ Wait.wcounter st'
                       = Wait.wcounter st
                         + (if Wait.WIFCONTINUED (Wait.wo_status o) then 2 else 0)).
Proof.
  intros H1 H2 Hc. split; [|split].
  - intros b Hw. eexists. unfold Wait.wbody. rewrite H1, H2, Hw. cbn [negb].
    split; [reflexivity|].
    rewrite count_waitids. cbn [Wait.wlog Wait.wtrace].
    rewrite waitids_app, count_waitids. cbn [Wait.wlog Wait.wtrace].
    rewrite waitids_app. cbn. lia.
  - eexists. unfold Wait.wbody. rewrite H1, H2.
    cbn [negb Wait.have_waitid Wait.build_as_written].
    rewrite !count_as_written. split; [reflexivity|].
    cbn [Wait.wlog Wait.wtrace Wait.wcounter Wait.def_WCONINUED]. split.
    + rewrite (inc_counter_succ (Wait.wcounter st)) by lia.
      rewrite inc_counter_succ by lia. lia.
    + rewrite !incs_app. cbn. lia.
  - intros b Hd Hw. eexists. unfold Wait.wbody. rewrite H1, H2, Hw. cbn [negb].
    split; [reflexivity|].
    rewrite !(count_guarded b _ _ Hd).
    destruct (Wait.WIFCONTINUED (Wait.wo_status o)); cbn [Wait.wlog Wait.wcounter].
    + rewrite (inc_counter_succ (Wait.wcounter st)) by lia.
      rewrite inc_counter_succ by lia. lia.
    + lia.
Qed.

(** The runner has been killed: [waitpid] stores "terminated by SIGKILL"
    (status 9), [waitid] has nothing to report, the stop flag is still
    clear.  As written the pass counts twice; with the guard in effect it
    counts nothing. *)
Lemma second_count_guard_disabled_witness :
  let o := Wait.mk_wobs 9 true (Wait.mk_siginfo 0 0) true true in
  Wait.WIFCONTINUED (Wait.wo_status o) = false
  /\ Wait.reports_continued (Wait.wo_info o) = false
  /\ (exists st', Wait.wbody Wait.build_as_written 200 o (Wait.mk_wstate 0 []) = inl st'
                  /\ Wait.wcounter st' = 2
                  /\ Wait.wtrace st' = [Wait.WWaitpid 200 false; Wait.WInc;
                                        Wait.WWaitid 200 false; Wait.WInc])
  /\ (exists st', Wait.wbody (Wait.mk_build true true true) 200 o (Wait.mk_wstate 0 [])
                  = inl st'
                  /\ Wait.wcounter st' = 0).
Proof.
  intros o. split; [reflexivity|]. split; [reflexivity|].
  destruct (second_count_guard_disabled 200 o (Wait.mk_wstate 0 []) eq_refl eq_refl)
    as (_ & H2 & H3); [cbn; lia|].
  split.
  - destruct H2 as (st' & Hb & Hcnt & _).
    exists st'. split; [exact Hb|]. split; [exact Hcnt|].
    cbn in Hb. injection Hb as <-. reflexivity.
  - destruct (H3 (Wait.mk_build true true true) eq_refl eq_refl) as (st' & Hb & Hcnt).
    exists st'. split; [exact Hb|exact Hcnt].
Defined.

(** ** The orchestrator: what each step leaves alone *)

Lemma print_shm_ns (o : options) (level : string) (flag : Z) (msg : string) (st : state) :
  shm_ns (print o level flag msg st) = shm_ns st.
Proof. unfold print. destruct (c_true _); reflexivity. Qed.

Lemma print_procs (o : options) (level : string) (flag : Z) (msg : string) (st : state) :
  procs (print o level flag msg st) = procs st
  /\ started_procs (print o level flag msg st) = started_procs st
  /\ forks (print o level flag msg st) = forks st
  /\ ticks (print o level flag msg st) = ticks st.
Proof. unfold print. destruct (c_true _); repeat split. Qed.

Lemma launch_one_shm_ns (o : options) (w : world) (max n : Z) (i : nat) (st : state) :
  shm_ns (either_state (launch_one o w max n i st)) = shm_ns st.
Proof.
  unfold launch_one. destruct (_ <? _); [|reflexivity].
  destruct (w_fork w (forks st)); cbn [either_state].
  - unfold fork_failed, pr_err. cbn [log shm_ns]. rewrite print_shm_ns. reflexivity.
  - reflexivity.
Qed.

Lemma launch_round_shm_ns (o : options) (w : world) (max n : Z) (cats : list nat) :
  forall st, shm_ns (either_state (launch_round o w max n cats st)) = shm_ns st.
Proof.
  induction cats as [|i cats IH]; intros st; [reflexivity|].
  cbn [launch_round]. pose proof (launch_one_shm_ns o w max n i st) as H1.
  destruct (launch_one o w max n i st) as [st'|st']; cbn in H1 |- *.
  - exact H1.
  - rewrite IH. exact H1.
Qed.

Lemma launch_rounds_shm_ns (o : options) (w : world) (max : Z) (rounds : nat) :
  forall n st, shm_ns (either_state (launch_rounds o w max rounds n st)) = shm_ns st.
Proof.
  induction rounds as [|rounds IH]; intros n st; [reflexivity|].
  cbn [launch_rounds].
  pose proof (launch_round_shm_ns o w max n (seq 0 STRESS_MAX) st) as H1.
  destruct (launch_round o w max n (seq 0 STRESS_MAX) st) as [st'|st']; cbn in H1 |- *.
  - exact H1.
  - rewrite IH. exact H1.
Qed.

Lemma launch_shm_ns (o : options) (w : world) (max total : Z) (st : state) :
  shm_ns (either_state (launch o w max total st)) = shm_ns st.
Proof. apply launch_rounds_shm_ns. Qed.

Lemma proc_finished_shm_ns (w : world) (p : Z) (st : state) :
  shm_ns (proc_finished w p st) = shm_ns st.
Proof.
  unfold proc_finished, time_now.
  destruct (find_proc _ _ _ _) as [[i j]|]; reflexivity.
Qed.

Lemma reap_shm_ns (o : options) (w : world) (waits : list wait_result) :
  forall n st, shm_ns (reaping_state (reap o w waits n st)) = shm_ns st.
Proof.
  induction waits as [|r waits IH]; intros n st; cbn [reap].
  - destruct (n =? 0); reflexivity.
  - destruct (n =? 0); [reflexivity|].
    destruct (0 <? wr_ret r).
    + rewrite IH. unfold pr_dbg. rewrite print_shm_ns. apply proc_finished_shm_ns.
    + destruct (wr_ret r =? -1); rewrite IH; reflexivity.
Qed.

Lemma report_shm_ns (o : options) (w : world) (max : Z) (st : state) :
  shm_ns (report o w max st) = shm_ns st.
Proof.
  unfold report. destruct (c_true _); [|reflexivity].
  generalize (seq 0 STRESS_MAX). intros l. revert st.
  induction l as [|i l IH]; intros st; [reflexivity|].
  cbn [foldl]. rewrite IH. destruct (c_true _); reflexivity.
Qed.

(** ** The name of the shared-memory object *)

Lemma shm_unlink_gone (name : string) (st : state) :
  name ∉ shm_ns (shm_unlink name st).
Proof.
  unfold shm_unlink. cbn [shm_ns].
  rewrite elem_of_difference, elem_of_singleton. intros [_ H]. apply H. reflexivity.
Qed.

Lemma shm_unlink_idempotent (name : string) (st : state) :
  shm_ns (shm_unlink name (shm_unlink name st)) = shm_ns (shm_unlink name st).
Proof.
  unfold shm_unlink. cbn [shm_ns]. apply set_eq. intros x.
  rewrite !elem_of_difference. tauto.
Qed.

Lemma setup_shm_mapped (o : options) (w : world) (max : Z) (st st' : state) :
  setup_shm o w max st = inr st' -> shm_name w ∈ shm_ns st'.
Proof.
  unfold setup_shm. destruct (w_shm_open w <? 0); [discriminate|].
  destruct (w_ftruncate w <? 0); [discriminate|].
  destruct (negb (w_mmap_ok w)); [discriminate|].
  intros [= <-]. cbn [log shm_create shm_unlink shm_ns].
  apply elem_of_union. right. apply elem_of_singleton. reflexivity.
Qed.

Lemma setup_shm_failed (o : options) (w : world) (max : Z) (st st' : state) :
  setup_shm o w max st = inl st' -> shm_name w ∉ shm_ns st'.
Proof.
  unfold setup_shm. destruct (w_shm_open w <? 0).
  - intros [= <-]. unfold pr_err. rewrite print_shm_ns.
    apply shm_unlink_gone.
  - destruct (w_ftruncate w <? 0).
    + intros [= <-]. apply shm_unlink_gone.
    + destruct (negb (w_mmap_ok w)); [|discriminate].
      intros [= <-]. apply shm_unlink_gone.
Qed.

Lemma run_shm_ns (o : options) (w : world) (max total : Z) (st : state) :
  shm_name w ∈ shm_ns st ->
  (forall n, snd (run o w max total st) = Waiting n ->
             shm_name w ∈ shm_ns (fst (run o w max total st)))
  /\ (forall code, snd (run o w max total st) = Exited code ->
                   code = EXIT_SUCCESS
                   /\ shm_name w ∉ shm_ns (fst (run o w max total st))).
Proof.
  intros Hin. unfold run, after_launch, time_now.
  set (st1 := pr_dbg o "starting processes" _).
  assert (H1 : shm_ns st1 = shm_ns st)
    by (unfold st1, pr_dbg; rewrite print_shm_ns; reflexivity).
  pose proof (launch_shm_ns o w max total st1) as H2.
  destruct (launch o w max total st1) as [st2|st2]; cbn [either_state] in H2.
  - split; [discriminate|]. intros code [= <-].
    split; [reflexivity|apply shm_unlink_gone].
  - set (st3 := pr_dbg o "%d processes running" st2).
    assert (H3 : shm_ns st3 = shm_ns st2)
      by (unfold st3, pr_dbg; rewrite print_shm_ns; reflexivity).
    pose proof (reap_shm_ns o w (w_wait w) total st3) as H4.
    destruct (reap o w (w_wait w) total st3) as [st4|n4 st4]; cbn [reaping_state] in H4.
    + split; [discriminate|]. intros code [= <-].
      split; [reflexivity|apply shm_unlink_gone].
    + split; [|discriminate]. intros n _. cbn [fst].
      rewrite H4, H3, H2, H1. exact Hin.
Qed.

(** C5, as the code has it: the name is unlinked before the object is
    created and again at the [out:] label (and when the resize or the
    mapping fails); it is not unlinked after the mapping.  So once the
    region is mapped the name stays in the namespace while the workers
    are launched and reaped, and it is gone when [main] has left through
    [exit(EXIT_SUCCESS)]; unlinking a second time changes nothing. *)
Theorem shm_name_lifetime (o : options) (w : world) :
  (forall max st st', setup_shm o w max st = inr st' ->
     shm_name w ∈ shm_ns st'
     /\ forall total, shm_name w ∈ shm_ns (either_state (launch o w max total st')))
  /\ (forall n, snd (main o w) = Waiting n -> shm_name w ∈ shm_ns (fst (main o w)))
  /\ (snd (main o w) = Exited EXIT_SUCCESS -> shm_name w ∉ shm_ns (fst (main o w)))
  /\ (forall st, shm_ns (shm_unlink (shm_name w) (shm_unlink (shm_name w) st))
                 = shm_ns (shm_unlink (shm_name w) st)).
Proof.
  split; [|split; [|split]].
  - intros max st st' H. apply setup_shm_mapped in H. split; [exact H|].
    intros total. rewrite launch_shm_ns. exact H.
  - intros n. unfold main.
    destruct (alloc_procs (div_ops o) w _ 0 [] 0) as [[[max ps] total]|]; [|discriminate].
    destruct (total =? 0); [discriminate|].
    destruct (setup_shm _ _ _ _) as [st1|st1] eqn:E; [discriminate|].
    apply setup_shm_mapped in E. apply run_shm_ns, E.
  - unfold main.
    destruct (alloc_procs (div_ops o) w _ 0 [] 0) as [[[max ps] total]|]; [|discriminate].
    destruct (total =? 0); [discriminate|].
    destruct (setup_shm _ _ _ _) as [st1|st1] eqn:E; [discriminate|].
    apply setup_shm_mapped in E. intros H.
    apply (proj2 (run_shm_ns (div_ops o) w max total st1 E) _ H).
  - intros st. apply shm_unlink_idempotent.
Qed.

(** C5 as stated fails: with one cpu worker launched and not yet reaped,
    the orchestrator is blocked in [wait], the region has been mapped, and
    the name is still in the namespace; the only unlink so far is the one
    before the object was created. *)
Lemma shm_name_linked_during_run :
  let o := sample_options 0 [0; 1; 0; 0] in
  let w := sample_world forks_ok [] in
  snd (main o w) = Waiting 1
  /\ shm_name w = "stress_ng_4242"
  /\ elements (shm_ns (fst (main o w))) = ["stress_ng_4242"]
  /\ trace (fst (main o w))
     = [EvPrint "info" "dispatching hogs";
        EvShmUnlink "stress_ng_4242"; EvShmOpen "stress_ng_4242"; EvMmap 32;
        EvSpawn 0 1 0 100 [CAlarm 86400; CUsleep 0; CStress 1 1; CExit 0]].
Proof. intros o w. repeat split; vm_compute; reflexivity. Qed.

(** ** The reap loop when [wait] fails *)

Lemma send_alarm_covers (ps : list (list proc_info_t)) (started : list Z)
    (i : nat) (p : proc_info_t) :
  (i < STRESS_MAX)%nat -> p ∈ tracked ps started i ->
  EvKill (pid p) SIGALRM ∈ send_alarm ps started.
Proof.
  intros Hi Hp. unfold send_alarm.
  apply list_elem_of_In, in_flat_map. exists i. split.
  - apply in_seq. lia.
  - apply in_map_iff. exists p. split; [reflexivity|]. apply list_elem_of_In, Hp.
Qed.

Lemma send_alarm_only_tracked (ps : list (list proc_info_t)) (started : list Z)
    (e : event) :
  e ∈ send_alarm ps started ->
  exists i p, (i < STRESS_MAX)%nat /\ p ∈ tracked ps started i
              /\ e = EvKill (pid p) SIGALRM.
Proof.
  unfold send_alarm. intros H. apply list_elem_of_In, in_flat_map in H.
  destruct H as (i & Hi & H). apply in_map_iff in H. destruct H as (p & <- & Hp).
  exists i, p. apply in_seq in Hi. split; [lia|].
  split; [apply list_elem_of_In, Hp | reflexivity].
Qed.


(** ** The launch loop keeps its books *)

Lemma spawned_app (tr es : list event) :
  spawned (tr ++ es) = spawned tr ++ spawned es.
Proof.
  induction tr as [|e tr IH]; [reflexivity|].
  destruct e; cbn; rewrite IH; reflexivity.
Qed.

Lemma fork_failures_app (tr es : list event) :
  fork_failures (tr ++ es) = fork_failures tr ++ fork_failures es.
Proof. apply List.filter_app. Qed.

Lemma kills_app (tr es : list event) : kills (tr ++ es) = kills tr ++ kills es.
Proof. apply List.filter_app. Qed.

Lemma wf_options_range (o : options) (i : nat) :
  wf_options o -> (i < STRESS_MAX)%nat -> 0 <= num_procs o !!! i <= 1024.
Proof. intros [_ H] Hi. apply check_value_range, H, Hi. Qed.

Lemma round_bound_other (o : options) (n : Z) (c i : nat) :
  i <> c -> round_bound o n (S c) i = round_bound o n c i.
Proof.
  intros Hne. unfold round_bound.
  destruct (Nat.ltb_spec i (S c)), (Nat.ltb_spec i c); try reflexivity; lia.
Qed.

Lemma round_bound_self (o : options) (n : Z) (c : nat) :
  round_bound o n c c = Z.min n (num_procs o !!! c)
  /\ round_bound o n (S c) c = Z.min (n + 1) (num_procs o !!! c).
Proof.
  unfold round_bound. rewrite Nat.ltb_irrefl.
  destruct (Nat.ltb_spec c (S c)); [split; reflexivity | lia].
Qed.

Lemma round_bound_next (o : options) (n : Z) (i : nat) :
  (i < STRESS_MAX)%nat -> round_bound o n STRESS_MAX i = round_bound o (n + 1) 0 i.
Proof.
  intros Hi. unfold round_bound.
  destruct (Nat.ltb_spec i STRESS_MAX); [reflexivity | lia].
Qed.

Lemma launch_inv_bound (o : options) (w : world) (max : Z) (k0 f0 : nat)
    (b b' : nat -> Z) (st : state) :
  (forall i, (i < STRESS_MAX)%nat -> b i = b' i) ->
  launch_inv o w max k0 f0 b st -> launch_inv o w max k0 f0 b' st.
Proof.
  intros Hb [H1 H2 H3 H4 H5 H6 H7 H8 H9 H10 H11].
  constructor; try assumption.
  intros i Hi. rewrite <- Hb by exact Hi. apply H4, Hi.
Qed.

(** The entries of the state after a successful fork. *)
Lemma fork_parent_entry (o : options) (w : world) (max n : Z) (c : nat)
    (j child : Z) (st : state) (i : nat) (j' : Z) :
  (c < length (procs st))%nat ->
  (Z.to_nat j < length (procs st !!! c))%nat ->
  entry (fork_parent o w max n c j child (forked st)) i j'
  = if decide (i = c /\ Z.to_nat j' = Z.to_nat j)
    then {| pid := child;
            start := (w_clock w (ticks st)
                      + inject_Z (opt_backoff o * n) / 1000000)%Q;
            finish := finish (entry st c j) |}
    else entry st i j'.
Proof.
  intros Hc Hj. unfold entry, fork_parent, time_now, forked, log.
  cbn [procs started_procs forks ticks shm_ns trace].
  rewrite list_lookup_total_insert.
  destruct (decide (c = i /\ (c < length (procs st))%nat)) as [[-> _]|Hn].
  - rewrite list_lookup_total_insert.
    destruct (decide (Z.to_nat j = Z.to_nat j' /\ _)) as [[E _]|Hn'].
    + rewrite decide_True by (split; congruence). reflexivity.
    + rewrite decide_False; [reflexivity|]. intros [_ E]. apply Hn'.
      split; [congruence|exact Hj].
  - rewrite decide_False; [reflexivity|]. intros [-> _]. apply Hn. split; [reflexivity|exact Hc].
Qed.

Lemma fork_parent_started (o : options) (w : world) (max n : Z) (c : nat)
    (j child : Z) (st : state) (i : nat) :
  (c < length (started_procs st))%nat ->
  started_procs (fork_parent o w max n c j child (forked st)) !!! i
  = if decide (i = c) then j + 1 else started_procs st !!! i.
Proof.
  intros Hc. unfold fork_parent, time_now, forked, log.
  cbn [procs started_procs forks ticks shm_ns trace].
  rewrite list_lookup_total_insert.
  destruct (decide (c = i /\ _)) as [[-> _]|Hn].
  - rewrite decide_True by reflexivity. reflexivity.
  - rewrite decide_False; [reflexivity|]. intros ->. apply Hn. split; [reflexivity|exact Hc].
Qed.

Lemma fork_parent_trace (o : options) (w : world) (max n : Z) (c : nat)
    (j child : Z) (st : state) :
  spawned (trace (fork_parent o w max n c j child (forked st)))
  = spawned (trace st) ++ [mk_worker n c j child (child_main o max n c j)]
  /\ ticks (fork_parent o w max n c j child (forked st)) = S (ticks st)
  /\ forks (fork_parent o w max n c j child (forked st)) = S (forks st)
  /\ fork_failures (trace (fork_parent o w max n c j child (forked st)))
     = fork_failures (trace st)
  /\ kills (trace (fork_parent o w max n c j child (forked st))) = kills (trace st).
Proof.
  unfold fork_parent, time_now, forked, log.
  cbn [procs started_procs forks ticks shm_ns trace].
  rewrite spawned_app, fork_failures_app, kills_app. cbn. rewrite !app_nil_r.
  repeat split.
Qed.

Lemma fork_parent_lengths (o : options) (w : world) (max n : Z) (c : nat)
    (j child : Z) (st : state) :
  length (procs (fork_parent o w max n c j child (forked st))) = length (procs st)
  /\ length (started_procs (fork_parent o w max n c j child (forked st)))
     = length (started_procs st)
  /\ forall i, length (procs (fork_parent o w max n c j child (forked st)) !!! i)
               = length (procs st !!! i).
Proof.
  unfold fork_parent, time_now, forked, log.
  cbn [procs started_procs forks ticks shm_ns trace].
  rewrite !length_insert. repeat split.
  intros i. rewrite list_lookup_total_insert.
  destruct (decide (c = i /\ _)) as [[-> _]|_]; [|reflexivity].
  apply length_insert.
Qed.

Lemma fork_parent_inv (o : options) (w : world) (max : Z) (k0 f0 : nat)
    (n : Z) (c : nat) (child : Z) (st : state) :
  wf_options o -> 0 <= n -> (c < STRESS_MAX)%nat ->
  launch_inv o w max k0 f0 (round_bound o n c) st ->
  started_procs st !!! c < num_procs o !!! c ->
  launch_inv o w max k0 f0 (round_bound o n (S c))
    (fork_parent o w max n c (started_procs st !!! c) child (forked st)).
Proof.
  intros Hwf Hn Hc [H1 H2 H3 H4 H5 H6 H7 H8 H9 H10 H11] Hlt.
  pose proof (wf_options_range o c Hwf Hc) as Hrange.
  pose proof (H4 c Hc) as Hj. destruct (round_bound_self o n c) as [Hb Hb'].
  rewrite Hb in Hj.
  set (j := started_procs st !!! c) in *.
  assert (Hjn : j = n) by lia.
  assert (Hcp : (c < length (procs st))%nat) by (rewrite H1; exact Hc).
  assert (Hcs : (c < length (started_procs st))%nat) by (rewrite H2; exact Hc).
  assert (Hjr : (Z.to_nat j < length (procs st !!! c))%nat)
    by (rewrite (H3 c Hc); lia).
  destruct (fork_parent_lengths o w max n c j child st) as (L1 & L2 & L3).
  destruct (fork_parent_trace o w max n c j child st) as (T1 & T2 & T3 & T4 & T5).
  set (st' := fork_parent o w max n c j child (forked st)) in *.
  assert (Hst : forall i, started_procs st' !!! i
                          = if decide (i = c) then j + 1 else started_procs st !!! i)
    by (intros i; apply fork_parent_started, Hcs).
  assert (Hen : forall i j', entry st' i j'
      = if decide (i = c /\ Z.to_nat j' = Z.to_nat j)
        then {| pid := child;
                start := (w_clock w (ticks st)
                          + inject_Z (opt_backoff o * n) / 1000000)%Q;
                finish := finish (entry st c j) |}
        else entry st i j')
    by (intros i j'; apply fork_parent_entry; assumption).
  constructor.
  - rewrite L1. exact H1.
  - rewrite L2. exact H2.
  - intros i Hi. rewrite L3. apply H3, Hi.
  - intros i Hi. rewrite Hst. destruct (decide (i = c)) as [->|Hne].
    + rewrite Hb'. lia.
    + rewrite round_bound_other by exact Hne. apply H4, Hi.
  - rewrite T2. lia.
  - rewrite T3, T1, length_app, H6. cbn. lia.
  - intros s Hs. rewrite T1 in Hs. apply elem_of_app in Hs as [Hs|Hs].
    + destruct (H7 s Hs) as (S1 & S2 & S3 & S4 & S5 & S7 & k & Hk & S6).
      assert (Hsame : entry st' (sp_cat s) (sp_index s) = entry st (sp_cat s) (sp_index s)).
      { rewrite Hen. apply decide_False. intros [E1 E2]. rewrite E1 in S2. fold j in S2. lia. }
      unfold spawn_recorded. rewrite Hsame, Hst, T2.
      repeat split; try assumption; try lia.
      * destruct (decide (sp_cat s = c)) as [E|_]; [rewrite E in S2; fold j in S2|]; lia.
      * exists k. split; [lia|exact S6].
    + apply list_elem_of_singleton in Hs as ->.
      unfold spawn_recorded. cbn [sp_cat sp_index sp_round sp_prog sp_pid].
      rewrite Hen, Hst, T2, !decide_True by (try split; reflexivity).
      cbn [pid start]. repeat split; try lia; try assumption.
      exists (ticks st). split; [lia|reflexivity].
  - intros i j' Hi Hj'. rewrite Hst in Hj'. rewrite T1.
    destruct (decide (i = c)) as [->|Hne].
    + destruct (decide (j' = j)) as [->|Hnj].
      * exists (mk_worker n c j child (child_main o max n c j)).
        split; [apply elem_of_app; right; apply list_elem_of_singleton; reflexivity|].
        split; reflexivity.
      * destruct (H8 c j' Hc) as (s & Hs & E1 & E2); [fold j; lia|].
        exists s. split; [apply elem_of_app; left; exact Hs|]. split; assumption.
    + destruct (H8 i j' Hi Hj') as (s & Hs & E1 & E2).
      exists s. split; [apply elem_of_app; left; exact Hs|]. split; assumption.
  - rewrite T4. exact H9.
  - rewrite T5. exact H10.
  - intros i Hi. rewrite Hst. destruct (decide (i = c)) as [->|Hne].
    + fold j. lia.
    + apply H11, Hi.
Qed.

Lemma launch_one_inv (o : options) (w : world) (max : Z) (k0 f0 : nat)
    (n : Z) (c : nat) (st : state) :
  wf_options o -> 0 <= n -> (c < STRESS_MAX)%nat ->
  launch_inv o w max k0 f0 (round_bound o n c) st ->
  match launch_one o w max n c st with
  | inr st' => launch_inv o w max k0 f0 (round_bound o n (S c)) st'
  | inl st' => left_by_fork_failure o w max k0 f0 st'
  end.
Proof.
  intros Hwf Hn Hc Hinv. unfold launch_one.
  destruct (Z.ltb_spec (started_procs st !!! c) (num_procs o !!! c)) as [Hlt|Hge].
  - destruct (w_fork w (forks st)) as [|child].
    + exists n, c, (round_bound o n c), st. split; [exact Hinv|reflexivity].
    + apply fork_parent_inv; assumption.
  - eapply launch_inv_bound; [|exact Hinv].
    intros i Hi. destruct (decide (i = c)) as [->|Hne].
    + pose proof (inv_started Hinv c Hc) as Hj.
      destruct (round_bound_self o n c) as [Hb Hb']. rewrite Hb, Hb'. lia.
    + symmetry. apply round_bound_other, Hne.
Qed.

Lemma launch_round_inv (o : options) (w : world) (max : Z) (k0 f0 : nat) (n : Z) :
  wf_options o -> 0 <= n ->
  forall m c st,
    (c + m = STRESS_MAX)%nat ->
    launch_inv o w max k0 f0 (round_bound o n c) st ->
    match launch_round o w max n (seq c m) st with
    | inr st' => launch_inv o w max k0 f0 (round_bound o n STRESS_MAX) st'
    | inl st' => left_by_fork_failure o w max k0 f0 st'
    end.
Proof.
  intros Hwf Hn. induction m as [|m IH]; intros c st Hcm Hinv.
  - cbn. replace STRESS_MAX with c by lia. exact Hinv.
  - cbn [seq launch_round].
    pose proof (launch_one_inv o w max k0 f0 n c st Hwf Hn ltac:(lia) Hinv) as H1.
    destruct (launch_one o w max n c st) as [st'|st']; [exact H1|].
    apply IH; [lia|exact H1].
Qed.

Lemma launch_rounds_inv (o : options) (w : world) (max : Z) (k0 f0 : nat) :
  wf_options o ->
  forall rounds n st,
    0 <= n ->
    launch_inv o w max k0 f0 (round_bound o n 0) st ->
    match launch_rounds o w max rounds n st with
    | inr st' => launch_inv o w max k0 f0 (round_bound o (n + Z.of_nat rounds) 0) st'
    | inl st' => left_by_fork_failure o w max k0 f0 st'
    end.
Proof.
  intros Hwf. induction rounds as [|rounds IH]; intros n st Hn Hinv.
  - cbn [launch_rounds]. replace (n + Z.of_nat 0) with n by lia. exact Hinv.
  - cbn [launch_rounds].
    pose proof (launch_round_inv o w max k0 f0 n Hwf Hn STRESS_MAX 0%nat st
                  eq_refl Hinv) as H1.
    destruct (launch_round o w max n (seq 0 STRESS_MAX) st) as [st'|st']; [exact H1|].
    replace (n + Z.of_nat (S rounds)) with ((n + 1) + Z.of_nat rounds) by lia.
    apply IH; [lia|].
    eapply launch_inv_bound; [|exact H1].
    intros i Hi. apply round_bound_next, Hi.
Qed.

Lemma launch_ready_inv (o : options) (w : world) (max : Z) (st : state) :
  wf_options o -> launch_ready o st ->
  launch_inv o w max (ticks st) (forks st) (round_bound o 0 0) st.
Proof.
  intros Hwf (R1 & R2 & R3 & R4 & R5 & R6).
  assert (Hz : forall i, (i < STRESS_MAX)%nat -> started_procs st !!! i = 0).
  { intros i Hi. rewrite R3. unfold STRESS_MAX in *.
    destruct i as [|[|[|[|i]]]]; try reflexivity. lia. }
  constructor.
  - exact R1.
  - rewrite R3. reflexivity.
  - exact R2.
  - intros i Hi. rewrite (Hz i Hi). unfold round_bound. cbn [Nat.ltb Nat.leb].
    pose proof (wf_options_range o i Hwf Hi). lia.
  - lia.
  - rewrite R4. cbn. lia.
  - intros s Hs. rewrite R4 in Hs. apply elem_of_nil in Hs. contradiction.
  - intros i j Hi Hj. rewrite (Hz i Hi) in Hj. lia.
  - exact R5.
  - exact R6.
  - intros i Hi. rewrite (Hz i Hi). pose proof (wf_options_range o i Hwf Hi). lia.
Qed.

(** The launch loop as a whole. *)
Lemma launch_keeps_books (o : options) (w : world) (max total : Z) (st : state) :
  wf_options o -> launch_ready o st ->
  match launch o w max total st with
  | inr st' => launch_inv o w max (ticks st) (forks st)
                 (round_bound o (Z.of_nat (Z.to_nat total)) 0) st'
  | inl st' => left_by_fork_failure o w max (ticks st) (forks st) st'
  end.
Proof.
  intros Hwf Hr. unfold launch.
  pose proof (launch_rounds_inv o w max (ticks st) (forks st) Hwf (Z.to_nat total)
                0 st (Z.le_refl 0) (launch_ready_inv o w max st Hwf Hr)) as H.
  exact H.
Qed.

(** ** Launch staggering *)

Lemma spawned_send_alarm (ps : list (list proc_info_t)) (started : list Z) :
  spawned (send_alarm ps started) = [].
Proof.
  unfold send_alarm. generalize (seq 0 STRESS_MAX). intros cats.
  induction cats as [|i cats IH]; [reflexivity|].
  cbn [flat_map]. rewrite spawned_app, IH, app_nil_r.
  generalize (tracked ps started i). intros row.
  induction row as [|p row IHr]; [reflexivity|exact IHr].
Qed.

Lemma spawned_print (o : options) (level : string) (flag : Z) (msg : string)
    (st : state) :
  spawned (trace (print o level flag msg st)) = spawned (trace st).
Proof.
  unfold print. destruct (c_true _); [|reflexivity].
  cbn [log trace]. rewrite spawned_app. apply app_nil_r.
Qed.

Lemma fork_failed_record (o : options) (n : Z) (c : nat) (j : Z) (st : state) :
  procs (fork_failed o n c j (forked st)) = procs st
  /\ started_procs (fork_failed o n c j (forked st)) = started_procs st
  /\ ticks (fork_failed o n c j (forked st)) = ticks st
  /\ forks (fork_failed o n c j (forked st)) = S (forks st)
  /\ spawned (trace (fork_failed o n c j (forked st))) = spawned (trace st).
Proof.
  unfold fork_failed, pr_err.
  destruct (print_procs o "error" PR_ERR "Cannot fork"
              (log [EvForkFailed n c j] (forked st))) as (P1 & P2 & P3 & P4).
  cbn [log procs started_procs ticks forks trace].
  rewrite P1, P2, P3, P4. repeat split.
  rewrite spawned_app, spawned_send_alarm, app_nil_r, spawned_print.
  cbn [log trace forked]. rewrite spawned_app. apply app_nil_r.
Qed.

(** What the books say once the launch loop is over, however it was left. *)
Lemma launch_spawn_recorded (o : options) (w : world) (max total : Z)
    (st0 : state) (s : worker) :
  wf_options o -> launch_ready o st0 ->
  s ∈ spawned (trace (either_state (launch o w max total st0))) ->
  spawn_recorded o w max (ticks st0) (either_state (launch o w max total st0)) s.
Proof.
  intros Hwf Hr Hs. pose proof (launch_keeps_books o w max total st0 Hwf Hr) as H.
  destruct (launch o w max total st0) as [st'|st']; cbn [either_state] in *.
  - destruct H as (n & c & bound & st & Hinv & ->).
    destruct (fork_failed_record o n c (started_procs st !!! c) st)
      as (F1 & F2 & F3 & F4 & F5).
    rewrite F5 in Hs.
    pose proof (inv_spawned Hinv s Hs) as HS.
    unfold spawn_recorded, entry in *. rewrite F1, F2, F3. exact HS.
  - apply (inv_spawned H s Hs).
Qed.

Lemma fork_failures_send_alarm (ps : list (list proc_info_t)) (started : list Z) :
  fork_failures (send_alarm ps started) = [].
Proof.
  unfold send_alarm. generalize (seq 0 STRESS_MAX). intros cats.
  induction cats as [|i cats IH]; [reflexivity|].
  cbn [flat_map]. rewrite fork_failures_app, IH, app_nil_r.
  generalize (tracked ps started i). intros row.
  induction row as [|p row IHr]; [reflexivity|exact IHr].
Qed.

Lemma same_record_refl (st : state) : same_record st st.
Proof. unfold same_record. repeat split. lia. Qed.

Lemma same_record_trans (st1 st2 st3 : state) :
  same_record st1 st2 -> same_record st2 st3 -> same_record st1 st3.
Proof.
  intros (A1 & A0 & A2 & A3 & A4) (B1 & B0 & B2 & B3 & B4).
  split; [congruence|]. split; [congruence|]. split; [congruence|]. split; [lia|].
  intros i j. destruct (A4 i j), (B4 i j). split; congruence.
Qed.

Lemma same_record_log (es : list event) (st : state) :
  spawned es = [] -> fork_failures es = [] -> same_record st (log es st).
Proof.
  intros H H'. unfold same_record, log. cbn [trace started_procs ticks].
  rewrite spawned_app, fork_failures_app, H, H', !app_nil_r.
  repeat split. lia.
Qed.

Lemma same_record_print (o : options) (level : string) (flag : Z) (msg : string)
    (st : state) :
  same_record st (print o level flag msg st).
Proof.
  unfold print. destruct (c_true _); [|apply same_record_refl].
  apply same_record_log; reflexivity.
Qed.

Lemma same_record_time_now (w : world) (st : state) :
  same_record st (snd (time_now w st)).
Proof. unfold same_record, time_now. cbn. repeat split. lia. Qed.

Lemma same_record_shm_unlink (name : string) (st : state) :
  same_record st (shm_unlink name st).
Proof.
  unfold same_record, shm_unlink. cbn [trace started_procs ticks].
  rewrite spawned_app, fork_failures_app. cbn. rewrite !app_nil_r.
  repeat split. lia.
Qed.

Lemma same_record_proc_finished (w : world) (p : Z) (st : state) :
  same_record st (proc_finished w p st).
Proof.
  unfold proc_finished, time_now.
  destruct (find_proc _ _ _ _) as [[i j]|];
    [|unfold same_record; cbn; repeat split; lia].
  unfold same_record. cbn [procs started_procs forks ticks shm_ns trace].
  split; [reflexivity|]. split; [reflexivity|]. split; [reflexivity|].
  split; [lia|].
  intros i' j'. unfold entry. cbn [procs].
  rewrite list_lookup_total_insert.
  destruct (decide (i = i' /\ _)) as [[-> _]|_]; [|split; reflexivity].
  rewrite list_lookup_total_insert.
  destruct (decide (j = Z.to_nat j' /\ _)) as [[-> _]|_]; split; reflexivity.
Qed.

Lemma same_record_reap (o : options) (w : world) (waits : list wait_result) :
  forall n st, same_record st (reaping_state (reap o w waits n st)).
Proof.
  induction waits as [|r waits IH]; intros n st; cbn [reap].
  - destruct (n =? 0); apply same_record_refl.
  - destruct (n =? 0); [apply same_record_refl|].
    destruct (0 <? wr_ret r).
    + eapply same_record_trans; [|apply IH].
      eapply same_record_trans; [apply same_record_proc_finished|].
      apply same_record_print.
    + destruct (wr_ret r =? -1); [|apply IH].
      eapply same_record_trans; [|apply IH].
      eapply same_record_trans; apply same_record_log;
        solve [apply spawned_send_alarm | apply fork_failures_send_alarm | reflexivity].
Qed.

Lemma same_record_report (o : options) (w : world) (max : Z) (st : state) :
  same_record st (report o w max st).
Proof.
  unfold report. destruct (c_true _); [|apply same_record_refl].
  generalize (seq 0 STRESS_MAX). intros l. revert st.
  induction l as [|i l IH]; intros st; [apply same_record_refl|].
  cbn [foldl]. eapply same_record_trans; [|apply IH].
  destruct (c_true _); [|apply same_record_refl].
  apply same_record_log; reflexivity.
Qed.

Lemma spawn_recorded_same (o : options) (w : world) (max : Z) (k0 : nat)
    (st st' : state) (s : worker) :
  same_record st st' ->
  spawn_recorded o w max k0 st s -> spawn_recorded o w max k0 st' s.
Proof.
  intros (A1 & A0 & A2 & A3 & A4) (S1 & S2 & S3 & S4 & S5 & S7 & k & Hk & S6).
  destruct (A4 (sp_cat s) (sp_index s)) as [Ep Es].
  unfold spawn_recorded. rewrite A2, Ep, Es.
  repeat split; try assumption; try lia.
  exists k. split; [lia|exact S6].
Qed.

(** *** From [main] to the launch loop *)

Lemma alloc_procs_rows (o : options) (w : world) :
  forall cats max ps total max' ps' total',
    alloc_procs o w cats max ps total = Some (max', ps', total') ->
    ps' = ps ++ map (fun i => replicate (Z.to_nat (num_procs o !!! i)) zero_proc) cats.
Proof.
  induction cats as [|i cats IH]; intros max ps total max' ps' total' H.
  - cbn in H. injection H as _ <- _. symmetry. apply app_nil_r.
  - cbn [alloc_procs] in H. destruct (w_calloc w i); [|discriminate].
    apply IH in H. rewrite H, <- app_assoc. reflexivity.
Qed.

Lemma alloc_procs_max (o : options) (w : world) :
  forall cats max ps total max' ps' total',
    alloc_procs o w cats max ps total = Some (max', ps', total') ->
    max' = foldl (fun max i => let n := num_procs o !!! i in
                               if max <? n then n else max) max cats.
Proof.
  induction cats as [|i cats IH]; intros max ps total max' ps' total' H.
  - cbn in H. injection H as <- _ _. reflexivity.
  - cbn [alloc_procs] in H. destruct (w_calloc w i); [|discriminate].
    apply IH in H. exact H.
Qed.

Lemma alloc_procs_shape (o : options) (w : world) (max : Z)
    (ps : list (list proc_info_t)) (total : Z) :
  alloc_procs o w (seq 0 STRESS_MAX) 0 [] 0 = Some (max, ps, total) ->
  length ps = STRESS_MAX
  /\ forall i, (i < STRESS_MAX)%nat ->
               length (ps !!! i) = Z.to_nat (num_procs o !!! i).
Proof.
  intros H. apply alloc_procs_rows in H. subst ps. split; [reflexivity|].
  intros i Hi. unfold STRESS_MAX in *.
  destruct i as [|[|[|[|i]]]]; cbn; rewrite ?length_replicate; try reflexivity. lia.
Qed.

Lemma same_books_refl (st : state) : same_books st st.
Proof. repeat split. Qed.

Lemma same_books_trans (st1 st2 st3 : state) :
  same_books st1 st2 -> same_books st2 st3 -> same_books st1 st3.
Proof.
  intros (A1 & A2 & A3 & A4 & A5 & A6 & A7) (B1 & B2 & B3 & B4 & B5 & B6 & B7).
  repeat split; congruence.
Qed.

Lemma same_books_log (es : list event) (st : state) :
  spawned es = [] -> fork_failures es = [] -> kills es = [] ->
  same_books st (log es st).
Proof.
  intros H H' H''. unfold same_books, log. cbn [trace procs started_procs ticks forks].
  rewrite spawned_app, fork_failures_app, kills_app, H, H', H'', !app_nil_r.
  repeat split.
Qed.

Lemma same_books_print (o : options) (level : string) (flag : Z) (msg : string)
    (st : state) :
  same_books st (print o level flag msg st).
Proof.
  unfold print. destruct (c_true _); [|apply same_books_refl].
  apply same_books_log; reflexivity.
Qed.

Lemma same_books_shm_unlink (name : string) (st : state) :
  same_books st (shm_unlink name st).
Proof.
  unfold same_books, shm_unlink. cbn [trace procs started_procs ticks forks].
  rewrite spawned_app, fork_failures_app, kills_app. cbn. rewrite !app_nil_r.
  repeat split.
Qed.

Lemma same_books_shm_create (name : string) (st : state) :
  same_books st (shm_create name st).
Proof.
  unfold same_books, shm_create. cbn [trace procs started_procs ticks forks].
  rewrite spawned_app, fork_failures_app, kills_app. cbn. rewrite !app_nil_r.
  repeat split.
Qed.

Lemma setup_shm_books (o : options) (w : world) (max : Z) (st : state) :
  same_books st (either_state (setup_shm o w max st)).
Proof.
  unfold setup_shm, pr_err.
  destruct (w_shm_open w <? 0); cbn [either_state].
  - eapply same_books_trans; [apply same_books_shm_unlink|apply same_books_print].
  - destruct (w_ftruncate w <? 0); [|destruct (negb (w_mmap_ok w))]; cbn [either_state].
    + eapply same_books_trans; [apply same_books_shm_unlink|].
      eapply same_books_trans; [apply same_books_shm_create|].
      eapply same_books_trans; [apply same_books_print|apply same_books_shm_unlink].
    + eapply same_books_trans; [apply same_books_shm_unlink|].
      eapply same_books_trans; [apply same_books_shm_create|].
      eapply same_books_trans; [apply same_books_print|apply same_books_shm_unlink].
    + eapply same_books_trans; [apply same_books_shm_unlink|].
      eapply same_books_trans; [apply same_books_shm_create|].
      apply same_books_log; reflexivity.
Qed.

Lemma after_launch_record (o : options) (w : world) (max total : Z)
    (r : state + state) :
  same_record (either_state r) (fst (after_launch o w max total r)).
Proof.
  unfold after_launch.
  destruct r as [st1|st1]; cbn [either_state out fst].
  - apply same_record_shm_unlink.
  - eapply same_record_trans; [apply (same_record_print o "debug" PR_DBG)|].
    pose proof (same_record_reap o w (w_wait w) total
                  (pr_dbg o "%d processes running" st1)) as H.
    destruct (reap o w (w_wait w) total _) as [st2|n st2]; cbn [reaping_state] in H.
    + eapply same_record_trans; [exact H|]. cbn [time_now out fst].
      eapply same_record_trans; [apply (same_record_time_now w)|]. cbn [time_now snd].
      eapply same_record_trans; [apply (same_record_print o "info" PR_INF)|].
      eapply same_record_trans; [apply same_record_report|].
      apply same_record_shm_unlink.
    + exact H.
Qed.

(** [main] either ends before the launch loop, with nothing forked and
    no fork attempted, or it enters the loop in a state that is ready for
    it, having read the clock once. *)
Lemma main_reaches_launch (o : options) (w : world) :
  (spawned (trace (fst (main o w))) = []
   /\ fork_failures (trace (fst (main o w))) = [])
  \/ exists max total st,
       launch_ready (div_ops o) st /\ ticks st = 1%nat /\ forks st = 0%nat
       /\ max = max_procs o
       /\ main o w = after_launch (div_ops o) w max total
                                  (launch (div_ops o) w max total st).
Proof.
  unfold main.
  destruct (alloc_procs (div_ops o) w _ 0 [] 0) as [[[max ps] total]|] eqn:Ea.
  - destruct (total =? 0).
    + left. cbn [fst].
      destruct (same_books_print (div_ops o) "error" PR_ERR
                  "No stress workers specified" (with_procs ps (init_state w)))
        as (_ & _ & _ & _ & E1 & E2 & _).
      unfold pr_err. rewrite E1, E2. split; reflexivity.
    + pose proof (setup_shm_books (div_ops o) w max
                    (pr_inf (div_ops o) "dispatching hogs" (with_procs ps (init_state w))))
        as (B1 & B2 & B3 & B4 & B5 & B6 & B7).
      destruct (same_books_print (div_ops o) "info" PR_INF "dispatching hogs"
                  (with_procs ps (init_state w))) as (C1 & C2 & C3 & C4 & C5 & C6 & C7).
      fold (pr_inf (div_ops o)) in C1, C2, C3, C4, C5, C6, C7.
      destruct (setup_shm _ _ _ _) as [st1|st1]; cbn [either_state] in *.
      * left. cbn [fst]. rewrite B5, B6, C5, C6. split; reflexivity.
      * right. exists max, total.
        exists (pr_dbg (div_ops o) "starting processes" (snd (time_now w st1))).
        destruct (same_books_print (div_ops o) "debug" PR_DBG "starting processes"
                    (snd (time_now w st1))) as (D1 & D2 & D3 & D4 & D5 & D6 & D7).
        fold (pr_dbg (div_ops o)) in D1, D2, D3, D4, D5, D6, D7.
        destruct (alloc_procs_shape (div_ops o) w max ps total Ea) as [L1 L2].
        split; [|split; [|split; [|split]]].
        -- unfold launch_ready. rewrite D1, D2, D5, D6, D7.
           cbn [time_now snd procs started_procs trace].
           rewrite B1, B2, B5, B6, B7, C1, C2, C5, C6, C7.
           cbn [with_procs init_state procs started_procs trace].
           repeat split; assumption.
        -- rewrite D3. cbn [time_now snd ticks]. rewrite B3, C3. reflexivity.
        -- rewrite D4. cbn [time_now snd forks]. rewrite B4, C4. reflexivity.
        -- eapply alloc_procs_max, Ea.
        -- reflexivity.
  - left. cbn [fst].
    destruct (same_books_print (div_ops o) "error" PR_ERR
                "cannot allocate procs" (init_state w))
      as (_ & _ & _ & _ & E1 & E2 & _).
    unfold pr_err. rewrite E1, E2. split; reflexivity.
Qed.

Lemma child_main_delay (o : options) (max n : Z) (i : nat) (j : Z) :
  exists rest,
    child_main o max n i j
    = CAlarm (to_uint (opt_timeout o))
      :: CUsleep (to_useconds_t (opt_backoff o * n)) :: rest.
Proof. unfold child_main. eexists. reflexivity. Qed.

(** C6, as the code has it: the delay a worker sleeps before its stressor
    is the backoff times [n_procs], the number of the launch round in
    which it was forked, which is its index within its own category (not
    its position in the spawn sequence): the argument of [usleep] is that
    product converted to [useconds_t], and is the product itself when it
    fits.  The start time recorded for the worker is at least the
    orchestrator's start time plus that delay, if the clock does not run
    backwards. *)
Theorem stagger_by_round (o : options) (w : world) (s : worker) :
  wf_options o ->
  (forall k, (w_clock w 0 <= w_clock w k)%Q) ->
  s ∈ spawned (trace (fst (main o w))) ->
  sp_round s = sp_index s
  /\ (exists rest,
        sp_prog s = CAlarm (to_uint (opt_timeout o))
                    :: CUsleep (to_useconds_t (opt_backoff o * sp_round s)) :: rest)
  /\ (0 <= opt_backoff o * sp_round s < 2 ^ 32 ->
      to_useconds_t (opt_backoff o * sp_round s) = opt_backoff o * sp_round s)
  /\ pid (entry (fst (main o w)) (sp_cat s) (sp_index s)) = sp_pid s
  /\ (w_clock w 0 + inject_Z (opt_backoff o * sp_round s) / 1000000
      <= start (entry (fst (main o w)) (sp_cat s) (sp_index s)))%Q.
Proof.
  intros Hwf Hclock Hs.
  destruct (main_reaches_launch o w)
    as [[E _]|(max & total & st0 & Hr & Ht & Hf & _ & Hm)].
  { rewrite E in Hs. apply elem_of_nil in Hs. contradiction. }
  pose proof (after_launch_record (div_ops o) w max total
                (launch (div_ops o) w max total st0)) as Hsame.
  rewrite <- Hm in Hsame.
  assert (Hwf' : wf_options (div_ops o)) by exact Hwf.
  assert (Hs0 : s ∈ spawned (trace (either_state (launch (div_ops o) w max total st0)))).
  { destruct Hsame as (<- & _). exact Hs. }
  pose proof (launch_spawn_recorded (div_ops o) w _ total st0 s Hwf' Hr Hs0) as Hrec.
  eapply spawn_recorded_same in Hrec; [|exact Hsame].
  destruct Hrec as (S1 & S2 & S3 & S4 & S5 & S7 & k & Hk & S6).
  split; [symmetry; exact S3|]. split.
  { rewrite S4. apply (child_main_delay (div_ops o)). }
  split.
  { intros Hfit. unfold to_useconds_t. apply Z.mod_small, Hfit. }
  split; [exact S5|].
  rewrite S6. cbn [opt_backoff div_ops].
  apply Qplus_le_l, Hclock.
Qed.

(** ** A fork that fails during the launch *)

Lemma kills_send_alarm (ps : list (list proc_info_t)) (started : list Z) :
  kills (send_alarm ps started) = send_alarm ps started.
Proof.
  unfold send_alarm. generalize (seq 0 STRESS_MAX). intros cats.
  induction cats as [|i cats IH]; [reflexivity|].
  cbn [flat_map]. rewrite kills_app, IH. f_equal.
  generalize (tracked ps started i). intros row.
  induction row as [|p row IHr]; [reflexivity|].
  cbn [map]. unfold kills in *. cbn [List.filter is_kill]. rewrite IHr. reflexivity.
Qed.

Lemma fork_failed_trace (o : options) (n : Z) (c : nat) (j : Z) (st : state) :
  kills (trace (fork_failed o n c j (forked st)))
  = kills (trace st) ++ send_alarm (procs st) (started_procs st)
  /\ fork_failures (trace (fork_failed o n c j (forked st)))
     = fork_failures (trace st) ++ [EvForkFailed n c j].
Proof.
  unfold fork_failed, pr_err.
  destruct (same_books_print o "error" PR_ERR "Cannot fork"
              (log [EvForkFailed n c j] (forked st)))
    as (P1 & P2 & _ & _ & _ & P6 & P7).
  cbn [log trace]. rewrite kills_app, fork_failures_app, P1, P2, P6, P7.
  cbn [log forked trace procs started_procs].
  rewrite kills_app, fork_failures_app, kills_send_alarm, fork_failures_send_alarm.
  cbn. rewrite !app_nil_r. split; reflexivity.
Qed.

Lemma tracked_entry (st : state) (i : nat) (j : Z) :
  0 <= j < started_procs st !!! i ->
  (Z.to_nat (started_procs st !!! i) <= length (procs st !!! i))%nat ->
  entry st i j ∈ tracked (procs st) (started_procs st) i.
Proof.
  intros Hj Hlen. unfold tracked, entry.
  rewrite <- (lookup_total_take_lt _ (Z.to_nat (started_procs st !!! i))) by lia.
  apply list_elem_of_lookup_total_2. rewrite length_take. lia.
Qed.

Lemma tracked_is_entry (st : state) (i : nat) (q : proc_info_t) :
  q ∈ tracked (procs st) (started_procs st) i ->
  exists j, 0 <= j < started_procs st !!! i /\ q = entry st i j.
Proof.
  unfold tracked, entry. intros H. apply list_elem_of_lookup in H as [k Hk].
  apply lookup_take_Some in Hk as [Hk Hlt].
  exists (Z.of_nat k). split; [lia|].
  rewrite Nat2Z.id. symmetry. apply list_lookup_total_correct, Hk.
Qed.

(** On the books of the launch loop, the workers [send_alarm] signals are
    the workers forked so far. *)
Lemma send_alarm_spawned (o : options) (w : world) (max : Z) (k0 f0 : nat)
    (bound : nat -> Z) (st : state) (p : Z) :
  launch_inv o w max k0 f0 bound st ->
  (exists s, s ∈ spawned (trace st) /\ sp_pid s = p)
  <-> EvKill p SIGALRM ∈ send_alarm (procs st) (started_procs st).
Proof.
  intros Hinv. split.
  - intros (s & Hs & <-).
    destruct (inv_spawned Hinv s Hs) as (S1 & S2 & _ & _ & S5 & _).
    rewrite <- S5. apply (send_alarm_covers _ _ (sp_cat s)); [exact S1|].
    apply tracked_entry; [exact S2|].
    rewrite (inv_rows Hinv _ S1).
    pose proof (inv_started_le Hinv _ S1). lia.
  - intros H. apply send_alarm_only_tracked in H as (i & q & Hi & Hq & [= ->]).
    apply tracked_is_entry in Hq as (j & Hj & ->).
    destruct (inv_tracked Hinv i j Hi Hj) as (s & Hs & <- & <-).
    exists s. split; [exact Hs|].
    destruct (inv_spawned Hinv s Hs) as (_ & _ & _ & _ & S5 & _).
    symmetry. exact S5.
Qed.

(** C1 (the code departs from it in the exit code): whenever a fork has
    failed during the launch, the orchestrator has sent SIGALRM to every
    worker forked before, and to nobody else; the failed fork was the
    last one it called; and the run has left through the [out:] label,
    whose exit code is EXIT_SUCCESS (0), not 1. *)
Theorem fork_failure_exits_with_success (o : options) (w : world) :
  wf_options o ->
  fork_failures (trace (fst (main o w))) <> [] ->
  snd (main o w) = Exited EXIT_SUCCESS
  /\ (forall p, (exists s, s ∈ spawned (trace (fst (main o w))) /\ sp_pid s = p)
                <-> EvKill p SIGALRM ∈ kills (trace (fst (main o w))))
  /\ (forall e, e ∈ kills (trace (fst (main o w))) -> exists p, e = EvKill p SIGALRM)
  /\ forks (fst (main o w)) = S (length (spawned (trace (fst (main o w)))))
  /\ length (fork_failures (trace (fst (main o w)))) = 1%nat.
Proof.
  intros Hwf Hfail.
  destruct (main_reaches_launch o w)
    as [[_ E]|(max & total & st0 & Hr & Ht & Hf & _ & Hm)]; [contradiction|].
  assert (Hwf' : wf_options (div_ops o)) by exact Hwf.
  pose proof (launch_keeps_books (div_ops o) w max total st0 Hwf' Hr) as Hl.
  pose proof (after_launch_record (div_ops o) w max total
                (launch (div_ops o) w max total st0)) as Hsame.
  rewrite <- Hm in Hsame. rewrite Hm.
  destruct (launch (div_ops o) w max total st0) as [st1|st1]; cbn [either_state] in *.
  - destruct Hl as (n & c & bound & st & Hinv & ->).
    destruct (fork_failed_trace (div_ops o) n c (started_procs st !!! c) st) as [K F].
    destruct (fork_failed_record (div_ops o) n c (started_procs st !!! c) st)
      as (F1 & F2 & F3 & F4 & F5).
    cbn [after_launch out fst snd].
    destruct (same_books_shm_unlink (shm_name w)
                (fork_failed (div_ops o) n c (started_procs st !!! c) (forked st)))
      as (_ & _ & _ & U4 & U5 & U6 & U7).
    rewrite U4, U5, U6, U7, K, F, F4, F5.
    rewrite (inv_no_kill Hinv), (inv_no_failure Hinv).
    cbn [app length].
    split; [reflexivity|]. split; [|split; [|split]].
    + intros p. eapply send_alarm_spawned, Hinv.
    + intros e He. apply send_alarm_only_tracked in He as (i & q & _ & _ & ->).
      eexists. reflexivity.
    + rewrite (inv_forks Hinv), Hf. reflexivity.
    + reflexivity.
  - exfalso. apply Hfail. destruct Hsame as (_ & -> & _).
    apply (inv_no_failure Hl).
Qed.

Lemma fork_failure_exits_with_success_witness :
  let o := sample_options 0 [2; 0; 1; 0] in
  let w := sample_world (forks_until 2) [] in
  snd (main o w) = Exited EXIT_SUCCESS
  /\ forks (fst (main o w)) = 3%nat
  /\ trace (fst (main o w))
     = [EvPrint "info" "dispatching hogs";
        EvShmUnlink "stress_ng_4242"; EvShmOpen "stress_ng_4242"; EvMmap 64;
        EvSpawn 0 0 0 100 [CAlarm 86400; CUsleep 0; CStress 0 0; CExit 0];
        EvSpawn 0 2 0 101 [CAlarm 86400; CUsleep 0; CStress 2 2; CExit 0];
        EvForkFailed 1 0 1; EvPrint "error" "Cannot fork";
        EvKill 100 SIGALRM; EvKill 101 SIGALRM;
        EvShmUnlink "stress_ng_4242"].
Proof.
  intros o w.
  assert (Hwf : wf_options o).
  { split; [reflexivity|]. intros i Hi. unfold STRESS_MAX in Hi.
    destruct i as [|[|[|[|i]]]]; reflexivity. }
  assert (Hfail : fork_failures (trace (fst (main o w))) <> []).
  { vm_compute. discriminate. }
  destruct (fork_failure_exits_with_success o w Hwf Hfail) as (H1 & _ & _ & H4 & _).
  split; [exact H1|]. split; [rewrite H4; reflexivity|]. vm_compute. reflexivity.
Defined.

(** ** The counter slots *)

Lemma counter_slot_beyond_region (max : Z) (i : nat) (j : Z) :
  0 < max -> Z.of_nat STRESS_MAX <= j -> region_slots max <= counter_slot max i j.
Proof.
  intros Hmax Hj. unfold region_slots, shm_len, counter_slot, STRESS_MAX in *.
  rewrite <- Z.mul_assoc, Z.mul_comm, Z.div_mul by lia. nia.
Qed.

Lemma counter_slot_shared (max j : Z) :
  0 <= max ->
  counter_slot max (Z.to_nat max) j = counter_slot max 0 (j + 1).
Proof. intros Hmax. unfold counter_slot. lia. Qed.

Lemma running_max_lower (o : options) (cats : list nat) :
  forall m,
    m <= foldl (fun max i => let n := num_procs o !!! i in
                             if max <? n then n else max) m cats.
Proof.
  induction cats as [|c cats IH]; intros m; cbn [foldl]; [lia|].
  etransitivity; [|apply IH]. cbv zeta.
  destruct (Z.ltb_spec m (num_procs o !!! c)); lia.
Qed.

Lemma running_max_bound (o : options) (cats : list nat) :
  forall m i, i ∈ cats ->
    num_procs o !!! i
    <= foldl (fun max i => let n := num_procs o !!! i in
                           if max <? n then n else max) m cats.
Proof.
  induction cats as [|c cats IH]; intros m i Hi.
  - apply elem_of_nil in Hi. contradiction.
  - cbn [foldl]. apply elem_of_cons in Hi as [->|Hi]; [|apply IH, Hi].
    etransitivity; [|apply running_max_lower]. cbv zeta.
    destruct (Z.ltb_spec m (num_procs o !!! c)); lia.
Qed.

Lemma max_procs_bound (o : options) (i : nat) :
  (i < STRESS_MAX)%nat -> num_procs o !!! i <= max_procs o.
Proof.
  intros Hi. unfold max_procs. apply running_max_bound.
  apply list_elem_of_In, in_seq. lia.
Qed.

Lemma slot_of_child_main (o : options) (max n : Z) (i : nat) (j : Z) :
  Z.land (opt_flags o) OPT_FLAGS_DRY_RUN = 0 ->
  slot_of (child_main o max n i j) = Some (counter_slot max i j).
Proof. intros H. unfold child_main. rewrite H. reflexivity. Qed.

(** In every run that is not a dry run, worker [j] of category [i] is
    handed slot [j * max + i], [max] being the largest worker count; from
    index 4 on that slot lies beyond the region. *)
Lemma worker_slot_in_run (o : options) (w : world) (s : worker) :
  wf_options o ->
  Z.land (opt_flags o) OPT_FLAGS_DRY_RUN = 0 ->
  s ∈ spawned (trace (fst (main o w))) ->
  slot_of (sp_prog s) = Some (counter_slot (max_procs o) (sp_cat s) (sp_index s))
  /\ (Z.of_nat STRESS_MAX <= sp_index s ->
      region_slots (max_procs o) <= counter_slot (max_procs o) (sp_cat s) (sp_index s)).
Proof.
  intros Hwf Hdry Hs.
  destruct (main_reaches_launch o w)
    as [[E _]|(max & total & st0 & Hr & Ht & Hf & -> & Hm)].
  { rewrite E in Hs. apply elem_of_nil in Hs. contradiction. }
  pose proof (after_launch_record (div_ops o) w (max_procs o) total
                (launch (div_ops o) w (max_procs o) total st0)) as Hsame.
  rewrite <- Hm in Hsame.
  assert (Hwf' : wf_options (div_ops o)) by exact Hwf.
  assert (Hs0 : s ∈ spawned (trace (either_state
                   (launch (div_ops o) w (max_procs o) total st0)))).
  { destruct Hsame as (<- & _). exact Hs. }
  pose proof (launch_spawn_recorded (div_ops o) w _ total st0 s Hwf' Hr Hs0) as Hrec.
  destruct Hrec as (S1 & S2 & S3 & S4 & S5 & S7 & _).
  split.
  - rewrite S4. apply (slot_of_child_main (div_ops o)). exact Hdry.
  - intros Hj. apply counter_slot_beyond_region; [|exact Hj].
    pose proof (max_procs_bound o (sp_cat s) S1) as Hmax.
    cbn [num_procs div_ops] in S7. unfold STRESS_MAX in Hj. lia.
Qed.

(** C2 (the code departs from it): the slot handed to worker [j] of
    category [i] is [j * max + i].  With two iosync workers and one vm
    worker ([max] = 2, a region of 8 counters), worker 1 of iosync and
    worker 0 of vm are both given slot 2.  With five cpu workers ([max] =
    5, a region of 20 counters), worker 4 is given slot 21.  In general,
    in every run that is not a dry run a worker whose index within its
    category is 4 or more is handed a slot beyond the region, and category
    [max] worker [j] would share its slot with category 0 worker [j + 1]. *)
Theorem counter_slots_collide_and_overrun :
  (let o := sample_options 0 [2; 0; 1; 0] in
   let w := sample_world forks_ok [] in
   slots (trace (fst (main o w)))
   = [(0%nat, 0, 100, Some 0); (2%nat, 0, 101, Some 2); (0%nat, 1, 102, Some 2)]
   /\ region_slots 2 = 8)
  /\ (let o := sample_options 0 [0; 5; 0; 0] in
      let w := sample_world forks_ok [] in
      slots (trace (fst (main o w)))
      = [(1%nat, 0, 100, Some 1); (1%nat, 1, 101, Some 6); (1%nat, 2, 102, Some 11);
         (1%nat, 3, 103, Some 16); (1%nat, 4, 104, Some 21)]
      /\ region_slots 5 = 20)
  /\ (forall o w s,
        wf_options o -> Z.land (opt_flags o) OPT_FLAGS_DRY_RUN = 0 ->
        s ∈ spawned (trace (fst (main o w))) ->
        slot_of (sp_prog s) = Some (counter_slot (max_procs o) (sp_cat s) (sp_index s))
        /\ (Z.of_nat STRESS_MAX <= sp_index s ->
            region_slots (max_procs o)
            <= counter_slot (max_procs o) (sp_cat s) (sp_index s)))
  /\ (forall max j, 0 <= max ->
                    counter_slot max (Z.to_nat max) j = counter_slot max 0 (j + 1)).
Proof.
  split; [|split; [|split]].
  - split; vm_compute; reflexivity.
  - split; vm_compute; reflexivity.
  - exact worker_slot_in_run.
  - exact counter_slot_shared.
Qed.

(** ** Launch staggering: examples *)

Lemma clock_100us_from_zero (k : nat) : (clock_100us 0 <= clock_100us k)%Q.
Proof.
  unfold clock_100us, Qle. cbn. lia.
Qed.

Lemma stagger_by_round_witness :
  let o := sample_options 1000 [1; 1; 0; 0] in
  let w := sample_world forks_ok [] in
  let s := mk_worker 0 1 0 101 [CAlarm 86400; CUsleep 0; CStress 1 1; CExit 0] in
  sp_round s = sp_index s
  /\ pid (entry (fst (main o w)) 1 0) = 101
  /\ (w_clock w 0 + inject_Z (1000 * 0) / 1000000
      <= start (entry (fst (main o w)) 1 0))%Q.
Proof.
  intros o w s.
  assert (Hwf : wf_options o).
  { split; [reflexivity|]. intros i Hi. unfold STRESS_MAX in Hi.
    destruct i as [|[|[|[|i]]]]; reflexivity. }
  assert (Hs : s ∈ spawned (trace (fst (main o w)))).
  { apply list_elem_of_In. vm_compute. right. left. reflexivity. }
  destruct (stagger_by_round o w s Hwf clock_100us_from_zero Hs)
    as (H1 & _ & _ & H4 & H5).
  split; [exact H1|]. split; [exact H4|exact H5].
Defined.

(** C6 as stated fails: one iosync and one cpu worker, backoff 1000
    microseconds, a clock that advances 100 microseconds per reading.
    The cpu worker is second in the spawn sequence (index 1) but is forked
    in round 0: it sleeps 0 microseconds, not 1000, and the start time
    recorded for it is less than the orchestrator's start time plus
    1000 microseconds. *)
Lemma stagger_not_by_spawn_sequence :
  let o := sample_options 1000 [1; 1; 0; 0] in
  let w := sample_world forks_ok [] in
  spawned (trace (fst (main o w))) !! 1%nat
  = Some (mk_worker 0 1 0 101 [CAlarm 86400; CUsleep 0; CStress 1 1; CExit 0])
  /\ opt_backoff o * 1 = 1000
  /\ (start (entry (fst (main o w)) 1 0)
      < w_clock w 0 + inject_Z (opt_backoff o * 1) / 1000000)%Q.
Proof. intros o w. repeat split; vm_compute; reflexivity. Qed.

(** ** The name of the shared-memory object: two runs *)

(** One cpu worker: while it is outstanding the name is in the namespace;
    once it has been reaped and [main] has left, the name is gone. *)
Lemma shm_name_lifetime_witness :
  let o := sample_options 0 [0; 1; 0; 0] in
  (let w := sample_world forks_ok [] in
   shm_name w ∈ shm_ns (fst (main o w)))
  /\ (let w := sample_world forks_ok [mk_wait 100 0] in
      shm_name w ∉ shm_ns (fst (main o w))).
Proof.
  intros o. split.
  - intros w. destruct (shm_name_lifetime o w) as (_ & H & _).
    apply (H 1). vm_compute. reflexivity.
  - intros w. destruct (shm_name_lifetime o w) as (_ & _ & H & _).
    apply H. vm_compute. reflexivity.
Defined.

(** ** [stress_null] as a whole *)

Lemma null_close_only (fd : Z) (st : Null.nstate) :
  Null.fds st = [fd] -> Null.fds (Null.close fd st) = [].
Proof.
  intros Hs. unfold Null.close. cbn [Null.fds]. rewrite Hs.
  cbn. rewrite decide_False by (intros H; apply H; reflexivity). reflexivity.
Qed.

Lemma null_loop_releases (max_ops fd : Z) (steps : list Null.step) :
  forall st code st',
    Null.fds st = [fd] ->
    Null.loop max_ops fd steps st = Null.Returned code st' ->
    Null.fds st' = [].
Proof.
  induction steps as [|s steps IH]; intros st code st' Hs; cbn [Null.loop];
    [discriminate|].
  unfold Null.body.
  destruct (Null.s_ret s <=? 0).
  - destruct (_ || _).
    + destruct (keep_stressing _ _ _); [apply IH; exact Hs|].
      intros [= _ <-]. apply null_close_only, Hs.
    + destruct (c_true _).
      * intros [= _ <-]. apply null_close_only, Hs.
      * destruct (keep_stressing _ _ _); [apply IH; exact Hs|].
        intros [= _ <-]. apply null_close_only, Hs.
  - destruct (keep_stressing _ _ _); [apply IH; exact Hs|].
    intros [= _ <-]. apply null_close_only, Hs.
Qed.

(** X12: however [stress_null] returns, on success, on a fatal write error
    or because [/dev/null] could not be opened, it holds no descriptor. *)
Lemma stress_null_releases (max_ops counter0 open_ret : Z) (steps : list Null.step)
    (code : Z) (st : Null.nstate) :
  Null.stress_null max_ops counter0 open_ret steps = Null.Returned code st ->
  Null.fds st = [].
Proof.
  unfold Null.stress_null. destruct (open_ret <? 0).
  - intros [= _ <-]. reflexivity.
  - apply null_loop_releases. reflexivity.
Qed.

Lemma stress_null_releases_witness :
  let steps := [Null.mk_step 4096 0 true; Null.mk_step (-1) 28 true] in
  exists st, Null.stress_null 0 0 3 steps = Null.Returned EXIT_FAILURE st
             /\ Null.fds st = [].
Proof.
  intros steps. eexists. split; [vm_compute; reflexivity|].
  apply (stress_null_releases 0 0 3 steps EXIT_FAILURE). vm_compute. reflexivity.
Defined.

(** * Further properties of the orchestrator *)

(** ** Carrying a second invariant through the launch loop

    [P n c st]: the property holds when round [n] is about to look at
    category [c]. *)

Section LaunchWith.

Variables (o : options) (w : world) (max : Z) (k0 f0 : nat).
Variable P : Z -> nat -> state -> Prop.

Hypothesis Hwf : wf_options o.

Hypothesis P_fork : forall n c child st,
  0 <= n -> (c < STRESS_MAX)%nat ->
  launch_inv o w max k0 f0 (round_bound o n c) st -> P n c st ->
  started_procs st !!! c < num_procs o !!! c ->
  P n (S c) (fork_parent o w max n c (started_procs st !!! c) child (forked st)).

Hypothesis P_skip : forall n c st,
  0 <= n -> (c < STRESS_MAX)%nat ->
  launch_inv o w max k0 f0 (round_bound o n c) st -> P n c st ->
  num_procs o !!! c <= started_procs st !!! c ->
  P n (S c) st.

Hypothesis P_round : forall n st,
  0 <= n -> launch_inv o w max k0 f0 (round_bound o n STRESS_MAX) st ->
  P n STRESS_MAX st -> P (n + 1) 0%nat st.

Lemma launch_one_with (n : Z) (c : nat) (st : state) :
  0 <= n -> (c < STRESS_MAX)%nat ->
  launch_inv o w max k0 f0 (round_bound o n c) st -> P n c st ->
  match launch_one o w max n c st with
  | inr st' => launch_inv o w max k0 f0 (round_bound o n (S c)) st' /\ P n (S c) st'
  | inl st' =>
      exists n' c' st0,
        launch_inv o w max k0 f0 (round_bound o n' c') st0 /\ P n' c' st0
        /\ st' = fork_failed o n' c' (started_procs st0 !!! c') (forked st0)
  end.
Proof.
  intros Hn Hc Hinv HP.
  pose proof (launch_one_inv o w max k0 f0 n c st Hwf Hn Hc Hinv) as H1.
  unfold launch_one in *.
  destruct (Z.ltb_spec (started_procs st !!! c) (num_procs o !!! c)) as [Hlt|Hge].
  - destruct (w_fork w (forks st)) as [|child].
    + exists n, c, st. split; [exact Hinv|]. split; [exact HP|reflexivity].
    + split; [exact H1|]. apply P_fork; assumption.
  - split; [exact H1|]. apply P_skip; assumption.
Qed.

Lemma launch_round_with (n : Z) :
  0 <= n ->
  forall m c st,
    (c + m = STRESS_MAX)%nat ->
    launch_inv o w max k0 f0 (round_bound o n c) st -> P n c st ->
    match launch_round o w max n (seq c m) st with
    | inr st' => launch_inv o w max k0 f0 (round_bound o n STRESS_MAX) st'
                 /\ P n STRESS_MAX st'
    | inl st' =>
        exists n' c' st0,
          launch_inv o w max k0 f0 (round_bound o n' c') st0 /\ P n' c' st0
          /\ st' = fork_failed o n' c' (started_procs st0 !!! c') (forked st0)
    end.
Proof.
  intros Hn. induction m as [|m IH]; intros c st Hcm Hinv HP.
  - cbn. replace STRESS_MAX with c by lia. split; assumption.
  - cbn [seq launch_round].
    pose proof (launch_one_with n c st Hn ltac:(lia) Hinv HP) as H1.
    destruct (launch_one o w max n c st) as [st'|st']; [exact H1|].
    destruct H1 as [H1 H2]. apply IH; [lia|exact H1|exact H2].
Qed.

Lemma launch_rounds_with :
  forall rounds n st,
    0 <= n ->
    launch_inv o w max k0 f0 (round_bound o n 0) st -> P n 0%nat st ->
    match launch_rounds o w max rounds n st with
    | inr st' => launch_inv o w max k0 f0 (round_bound o (n + Z.of_nat rounds) 0) st'
                 /\ P (n + Z.of_nat rounds) 0%nat st'
    | inl st' =>
        exists n' c' st0,
          launch_inv o w max k0 f0 (round_bound o n' c') st0 /\ P n' c' st0
          /\ st' = fork_failed o n' c' (started_procs st0 !!! c') (forked st0)
    end.
Proof.
  induction rounds as [|rounds IH]; intros n st Hn Hinv HP.
  - cbn [launch_rounds]. replace (n + Z.of_nat 0) with n by lia. split; assumption.
  - cbn [launch_rounds].
    pose proof (launch_round_with n Hn STRESS_MAX 0%nat st eq_refl Hinv HP) as H1.
    destruct (launch_round o w max n (seq 0 STRESS_MAX) st) as [st'|st']; [exact H1|].
    destruct H1 as [H1 H2].
    replace (n + Z.of_nat (S rounds)) with ((n + 1) + Z.of_nat rounds) by lia.
    apply IH; [lia| |apply P_round; assumption].
    eapply launch_inv_bound; [|exact H1].
    intros i Hi. apply round_bound_next, Hi.
Qed.

End LaunchWith.

Section LaunchFrom.

Variables (o : options) (w : world) (max : Z).
Variable P : Z -> nat -> state -> Prop.

Hypothesis Hwf : wf_options o.

Hypothesis P_fork : forall k0 f0 n c child st,
  0 <= n -> (c < STRESS_MAX)%nat ->
  launch_inv o w max k0 f0 (round_bound o n c) st -> P n c st ->
  started_procs st !!! c < num_procs o !!! c ->
  P n (S c) (fork_parent o w max n c (started_procs st !!! c) child (forked st)).

Hypothesis P_skip : forall n c st, P n c st -> P n (S c) st.

Hypothesis P_round : forall n st, P n STRESS_MAX st -> P (n + 1) 0%nat st.

(** The launch loop entered from a ready state. *)
Lemma launch_with (total : Z) (st : state) :
  launch_ready o st -> P 0 0%nat st ->
  match launch o w max total st with
  | inr st' =>
      launch_inv o w max (ticks st) (forks st)
                 (round_bound o (Z.of_nat (Z.to_nat total)) 0) st'
      /\ P (Z.of_nat (Z.to_nat total)) 0%nat st'
  | inl st' =>
      exists n c st0,
        launch_inv o w max (ticks st) (forks st) (round_bound o n c) st0 /\ P n c st0
        /\ st' = fork_failed o n c (started_procs st0 !!! c) (forked st0)
  end.
Proof.
  intros Hr HP. unfold launch.
  apply (launch_rounds_with o w max (ticks st) (forks st) P Hwf); try lia.
  - intros n c child st1. apply P_fork.
  - intros n c st1 _ _ _ H _. apply P_skip, H.
  - intros n st1 _ _. apply P_round.
  - apply launch_ready_inv; assumption.
  - exact HP.
Qed.

End LaunchFrom.

(** A property of the list of workers forked that the launch loop
    establishes holds of every run of [main]. *)
Lemma main_spawned_with (Q : list worker -> Prop)
    (P : Z -> nat -> state -> Prop) (o : options) (w : world) :
  wf_options o ->
  Q [] ->
  (forall max k0 f0 n c child st,
     0 <= n -> (c < STRESS_MAX)%nat ->
     launch_inv (div_ops o) w max k0 f0 (round_bound (div_ops o) n c) st -> P n c st ->
     started_procs st !!! c < num_procs o !!! c ->
     P n (S c) (fork_parent (div_ops o) w max n c (started_procs st !!! c) child
                            (forked st))) ->
  (forall n c st, P n c st -> P n (S c) st) ->
  (forall n st, P n STRESS_MAX st -> P (n + 1) 0%nat st) ->
  (forall st, spawned (trace st) = [] -> P 0 0%nat st) ->
  (forall n c st, P n c st -> Q (spawned (trace st))) ->
  Q (spawned (trace (fst (main o w)))).
Proof.
  intros Hwf Hnil Hfork Hskip Hround Hinit HQ.
  destruct (main_reaches_launch o w)
    as [[E _]|(max & total & st0 & Hr & Ht & Hf & _ & Hm)].
  { rewrite E. exact Hnil. }
  pose proof (after_launch_record (div_ops o) w max total
                (launch (div_ops o) w max total st0)) as (Hsame & _).
  rewrite <- Hm in Hsame. rewrite Hsame.
  assert (Hwf' : wf_options (div_ops o)) by exact Hwf.
  pose proof (launch_with (div_ops o) w max P Hwf' (Hfork max) Hskip Hround total st0
                Hr (Hinit st0 (proj1 (proj2 (proj2 (proj2 Hr)))))) as H.
  destruct (launch (div_ops o) w max total st0) as [st1|st1]; cbn [either_state].
  - destruct H as (n & c & st & _ & HP & ->).
    destruct (fork_failed_record (div_ops o) n c (started_procs st !!! c) st)
      as (_ & _ & _ & _ & ->).
    eapply HQ, HP.
  - destruct H as [_ HP]. eapply HQ, HP.
Qed.

(** ** Each place in the [procs] arrays is filled once *)

Lemma NoDup_snoc {A : Type} (l : list A) (x : A) :
  NoDup l -> x ∉ l -> NoDup (l ++ [x]).
Proof.
  intros Hl Hx. apply NoDup_app. split; [exact Hl|]. split.
  - intros y Hy Hy'. apply list_elem_of_singleton in Hy' as ->. contradiction.
  - apply NoDup_singleton.
Qed.

(** X1: in every run, no two workers forked are recorded at the same place
    [procs[i][j]]: category and index within the category identify a
    worker. *)
Theorem proc_slots_distinct (o : options) (w : world) :
  wf_options o ->
  NoDup (map proc_slot (spawned (trace (fst (main o w))))).
Proof.
  intros Hwf.
  apply (main_spawned_with (fun l => NoDup (map proc_slot l))
           (fun _ _ st => NoDup (map proc_slot (spawned (trace st)))) o w Hwf).
  - apply NoDup_nil_2.
  - intros max k0 f0 n c child st Hn Hc Hinv HP Hlt.
    destruct (fork_parent_trace (div_ops o) w max n c (started_procs st !!! c) child st)
      as (-> & _).
    rewrite map_app. cbn [map]. apply NoDup_snoc; [exact HP|].
    unfold proc_slot at 1. cbn [sp_cat sp_index].
    intros Hin. apply list_elem_of_In, in_map_iff in Hin as (s & Hs & Hin).
    apply list_elem_of_In in Hin.
    destruct (inv_spawned Hinv s Hin) as (_ & S2 & _).
    unfold proc_slot in Hs. injection Hs as E1 E2. rewrite E1 in S2. lia.
  - intros n c st H. exact H.
  - intros n st H. exact H.
  - intros st ->. apply NoDup_nil_2.
  - intros n c st H. exact H.
Qed.

Lemma proc_slots_distinct_witness :
  let o := sample_options 0 [2; 0; 1; 0] in
  let w := sample_world forks_ok [] in
  map proc_slot (spawned (trace (fst (main o w))))
  = [(0%nat, 0); (2%nat, 0); (0%nat, 1)]
  /\ NoDup (map proc_slot (spawned (trace (fst (main o w))))).
Proof.
  intros o w. split; [vm_compute; reflexivity|].
  apply proc_slots_distinct.
  split; [reflexivity|]. intros i Hi. destruct i as [|[|[|[|i]]]]; reflexivity.
Defined.

(** ** Round-robin order *)

Lemma StronglySorted_snoc {A : Type} (R : A -> A -> Prop) (l : list A) (x : A) :
  StronglySorted R l -> Forall (fun y => R y x) l -> StronglySorted R (l ++ [x]).
Proof.
  induction l as [|a l IH]; intros Hs Hf; cbn [app].
  - constructor; constructor.
  - apply StronglySorted_inv in Hs as [Hs Ha]. apply Forall_cons in Hf as [Hax Hf].
    constructor; [apply IH; assumption|].
    apply Forall_app. split; [exact Ha|]. constructor; [exact Hax|constructor].
Qed.

Lemma launched_before_next (n : Z) (c : nat) (s : worker) :
  launched_before n c s -> launched_before n (S c) s.
Proof. unfold launched_before. intros [H|[H H']]; [left; exact H|right; split; lia]. Qed.

Lemma launched_before_round (n : Z) (c : nat) (s : worker) :
  launched_before n c s -> launched_before (n + 1) 0 s.
Proof. unfold launched_before. intros [H|[H H']]; left; lia. Qed.

(** X2: workers are forked in round-robin order: the list of workers in
    spawn order is sorted by launch round and, within a round, by
    category number, strictly; so a round forks at most one worker per
    category, and a category never gets its next worker before every
    other category that still wants one has had its turn. *)
Theorem spawn_order_round_robin (o : options) (w : world) :
  wf_options o ->
  StronglySorted spawn_before (spawned (trace (fst (main o w)))).
Proof.
  intros Hwf.
  apply (main_spawned_with (StronglySorted spawn_before)
           (fun n c st => StronglySorted spawn_before (spawned (trace st))
                          /\ Forall (launched_before n c) (spawned (trace st)))
           o w Hwf).
  - constructor.
  - intros max k0 f0 n c child st Hn Hc Hinv [Hs Hf] Hlt.
    destruct (fork_parent_trace (div_ops o) w max n c (started_procs st !!! c) child st)
      as (-> & _).
    split.
    + apply StronglySorted_snoc; [exact Hs|]. exact Hf.
    + apply Forall_app. split.
      * eapply Forall_impl; [exact Hf|]. intros s. apply launched_before_next.
      * constructor; [|constructor]. right. cbn. split; [reflexivity|lia].
  - intros n c st [Hs Hf]. split; [exact Hs|].
    eapply Forall_impl; [exact Hf|]. intros s. apply launched_before_next.
  - intros n st [Hs Hf]. split; [exact Hs|].
    eapply Forall_impl; [exact Hf|]. intros s. apply launched_before_round.
  - intros st ->. split; constructor.
  - intros n c st [Hs _]. exact Hs.
Qed.

Lemma spawn_order_round_robin_witness :
  let o := sample_options 0 [2; 0; 1; 0] in
  let w := sample_world forks_ok [] in
  map (fun s => (sp_round s, sp_cat s)) (spawned (trace (fst (main o w))))
  = [(0, 0%nat); (0, 2%nat); (1, 0%nat)]
  /\ StronglySorted spawn_before (spawned (trace (fst (main o w)))).
Proof.
  intros o w. split; [vm_compute; reflexivity|].
  apply spawn_order_round_robin.
  split; [reflexivity|]. intros i Hi. destruct i as [|[|[|[|i]]]]; reflexivity.
Defined.

(** ** How [main] can end *)

Lemma alloc_procs_total (o : options) (w : world) :
  forall cats max ps total max' ps' total',
    alloc_procs o w cats max ps total = Some (max', ps', total') ->
    total' = foldl (fun t i => t + num_procs o !!! i) total cats.
Proof.
  induction cats as [|i cats IH]; intros max ps total max' ps' total' H.
  - cbn in H. injection H as _ _ <-. reflexivity.
  - cbn [alloc_procs] in H. destruct (w_calloc w i); [|discriminate].
    apply IH in H. exact H.
Qed.

Lemma after_launch_outcome (o : options) (w : world) (max total : Z)
    (r : state + state) :
  snd (after_launch o w max total r) = Exited EXIT_SUCCESS
  \/ exists n, snd (after_launch o w max total r) = Waiting n.
Proof.
  unfold after_launch. destruct r as [st|st]; [left; reflexivity|].
  destruct (reap _ _ _ _ _) as [st'|n st']; [left; reflexivity|right].
  exists n. reflexivity.
Qed.

(** Either [main] ends before the launch loop, with exit code 1 and
    without a fork, a signal or a worker; or it has mapped the region and
    entered the loop knowing [max] and [total_procs]. *)
Lemma main_early_or_launch (o : options) (w : world) :
  (snd (main o w) = Exited EXIT_FAILURE
   /\ forks (fst (main o w)) = 0%nat
   /\ spawned (trace (fst (main o w))) = []
   /\ fork_failures (trace (fst (main o w))) = []
   /\ kills (trace (fst (main o w))) = [])
  \/ exists st0,
       launch_ready (div_ops o) st0 /\ ticks st0 = 1%nat /\ forks st0 = 0%nat
       /\ total_requested o <> 0
       /\ main o w = after_launch (div_ops o) w (max_procs o) (total_requested o)
                       (launch (div_ops o) w (max_procs o) (total_requested o) st0).
Proof.
  assert (Hearly : forall st0 st,
             forks st0 = 0%nat -> trace st0 = [] -> same_books st0 st ->
             forks st = 0%nat /\ spawned (trace st) = []
             /\ fork_failures (trace st) = [] /\ kills (trace st) = []).
  { intros st0 st F T (_ & _ & _ & B4 & B5 & B6 & B7).
    rewrite B4, B5, B6, B7, F, T. repeat split. }
  unfold main.
  destruct (alloc_procs (div_ops o) w _ 0 [] 0) as [[[max ps] total]|] eqn:Ea.
  - pose proof (alloc_procs_max _ _ _ _ _ _ _ _ _ Ea) as Hmax.
    pose proof (alloc_procs_total _ _ _ _ _ _ _ _ _ Ea) as Htot.
    change (max = max_procs o) in Hmax. change (total = total_requested o) in Htot.
    subst max total.
    destruct (Z.eqb_spec (total_requested o) 0) as [Hz|Hnz].
    + left. split; [reflexivity|]. cbn [fst].
      apply (Hearly (with_procs ps (init_state w))); try reflexivity.
      apply same_books_print.
    + pose proof (setup_shm_books (div_ops o) w (max_procs o)
                    (pr_inf (div_ops o) "dispatching hogs" (with_procs ps (init_state w))))
        as HB.
      pose proof (same_books_print (div_ops o) "info" PR_INF "dispatching hogs"
                    (with_procs ps (init_state w))) as HC.
      fold (pr_inf (div_ops o)) in HC.
      pose proof (same_books_trans _ _ _ HC HB) as HBC.
      destruct (setup_shm _ _ _ _) as [st1|st1]; cbn [either_state] in *.
      * left. split; [reflexivity|]. cbn [fst].
        apply (Hearly (with_procs ps (init_state w))); try reflexivity. exact HBC.
      * right.
        exists (pr_dbg (div_ops o) "starting processes" (snd (time_now w st1))).
        pose proof (same_books_print (div_ops o) "debug" PR_DBG "starting processes"
                      (snd (time_now w st1))) as (D1 & D2 & D3 & D4 & D5 & D6 & D7).
        fold (pr_dbg (div_ops o)) in D1, D2, D3, D4, D5, D6, D7.
        destruct HBC as (B1 & B2 & B3 & B4 & B5 & B6 & B7).
        destruct (alloc_procs_shape _ _ _ _ _ Ea) as [L1 L2].
        split; [|split; [|split; [|split]]].
        -- unfold launch_ready. rewrite D1, D2, D5, D6, D7.
           cbn [time_now snd procs started_procs trace].
           rewrite B1, B2, B5, B6, B7.
           cbn [with_procs init_state procs started_procs trace].
           repeat split; assumption.
        -- rewrite D3. cbn [time_now snd ticks]. rewrite B3. reflexivity.
        -- rewrite D4. cbn [time_now snd forks]. rewrite B4. reflexivity.
        -- exact Hnz.
        -- reflexivity.
  - left. split; [reflexivity|]. cbn [fst].
    apply (Hearly (init_state w)); try reflexivity. apply same_books_print.
Qed.

Lemma launched_not_failure (o : options) (w : world) (max total : Z)
    (r : state + state) :
  snd (after_launch o w max total r) <> Exited EXIT_FAILURE.
Proof.
  destruct (after_launch_outcome o w max total r) as [H|[n H]];
    rewrite H; discriminate.
Qed.

(** X3: the failure exit code is only ever produced before the launch
    loop: a run of [main] that ends with exit code 1 has called [fork]
    not once, has forked no worker and sent no signal. *)
Theorem failure_exit_before_any_fork (o : options) (w : world) :
  snd (main o w) = Exited EXIT_FAILURE ->
  forks (fst (main o w)) = 0%nat
  /\ spawned (trace (fst (main o w))) = []
  /\ kills (trace (fst (main o w))) = [].
Proof.
  intros Hexit.
  destruct (main_early_or_launch o w) as [(_ & F & S & _ & K)|(st0 & _ & _ & _ & _ & Hm)].
  - repeat split; assumption.
  - exfalso. rewrite Hm in Hexit. exact (launched_not_failure _ _ _ _ _ Hexit).
Qed.

Lemma failure_exit_before_any_fork_witness :
  let o := sample_options 0 [0; 3; 0; 0] in
  let w := mk_world 4242 ∅ (fun _ => true) 3 0 false forks_ok clock_100us []
                    (fun _ => 0) in
  snd (main o w) = Exited EXIT_FAILURE /\ forks (fst (main o w)) = 0%nat.
Proof.
  intros o w. split; [vm_compute; reflexivity|].
  apply (failure_exit_before_any_fork o w). vm_compute. reflexivity.
Defined.

(** ** Runs that never get to the launch loop *)

Lemma alloc_procs_ok (o : options) (w : world) :
  forall cats max ps total,
    (forall i, i ∈ cats -> w_calloc w i = true) ->
    exists r, alloc_procs o w cats max ps total = Some r.
Proof.
  induction cats as [|i cats IH]; intros max ps total Hc.
  - eexists. reflexivity.
  - cbn [alloc_procs]. rewrite (Hc i) by (apply elem_of_cons; left; reflexivity).
    apply IH. intros j Hj. apply Hc, elem_of_cons. right. exact Hj.
Qed.

Lemma setup_shm_fails (o : options) (w : world) (max : Z) (st : state) :
  w_shm_open w < 0 \/ w_ftruncate w < 0 \/ w_mmap_ok w = false ->
  exists st', setup_shm o w max st = inl st'.
Proof.
  intros H. unfold setup_shm.
  destruct (Z.ltb_spec (w_shm_open w) 0) as [_|H1]; [eexists; reflexivity|].
  destruct (Z.ltb_spec (w_ftruncate w) 0) as [_|H2]; [eexists; reflexivity|].
  destruct (w_mmap_ok w); [|eexists; reflexivity].
  destruct H as [H|[H|H]]; [lia|lia|discriminate].
Qed.

(** X4: if no worker is requested at all, [main] ends with exit code 1
    before it has touched the shared-memory namespace or called [fork]. *)
Theorem no_workers_no_run (o : options) (w : world) :
  total_requested o = 0 ->
  snd (main o w) = Exited EXIT_FAILURE
  /\ shm_ns (fst (main o w)) = w_shm_ns w
  /\ forks (fst (main o w)) = 0%nat.
Proof.
  intros Hz. unfold main.
  destruct (alloc_procs (div_ops o) w _ 0 [] 0) as [[[max ps] total]|] eqn:Ea.
  - pose proof (alloc_procs_total _ _ _ _ _ _ _ _ _ Ea) as Htot.
    change (total = total_requested o) in Htot. rewrite Htot, Hz. cbn [Z.eqb fst snd].
    split; [reflexivity|]. unfold pr_err. rewrite print_shm_ns.
    destruct (print_procs (div_ops o) "error" PR_ERR "No stress workers specified"
                (with_procs ps (init_state w))) as (_ & _ & -> & _).
    split; reflexivity.
  - cbn [fst snd]. split; [reflexivity|]. unfold pr_err. rewrite print_shm_ns.
    destruct (print_procs (div_ops o) "error" PR_ERR "cannot allocate procs"
                (init_state w)) as (_ & _ & -> & _).
    split; reflexivity.
Qed.

Lemma no_workers_no_run_witness :
  let w := sample_world forks_ok [] in
  snd (main default_options w) = Exited EXIT_FAILURE
  /\ forks (fst (main default_options w)) = 0%nat.
Proof.
  intros w.
  destruct (no_workers_no_run default_options w eq_refl) as (H1 & _ & H3).
  split; assumption.
Defined.

(** X5: if the shared-memory object cannot be opened, resized or mapped,
    [main] ends with exit code 1 without having called [fork]; and when it
    got as far as the set-up (the arrays were allocated and some worker
    was requested), the object's name is not left in the namespace. *)
Theorem region_failure_aborts (o : options) (w : world) :
  w_shm_open w < 0 \/ w_ftruncate w < 0 \/ w_mmap_ok w = false ->
  snd (main o w) = Exited EXIT_FAILURE
  /\ forks (fst (main o w)) = 0%nat
  /\ spawned (trace (fst (main o w))) = []
  /\ ((forall i, (i < STRESS_MAX)%nat -> w_calloc w i = true) ->
      total_requested o <> 0 ->
      shm_name w ∉ shm_ns (fst (main o w))).
Proof.
  intros Hfail.
  assert (Hexit : snd (main o w) = Exited EXIT_FAILURE
                  /\ ((forall i, (i < STRESS_MAX)%nat -> w_calloc w i = true) ->
                      total_requested o <> 0 ->
                      shm_name w ∉ shm_ns (fst (main o w)))).
  { unfold main.
    destruct (alloc_procs (div_ops o) w _ 0 [] 0) as [[[max ps] total]|] eqn:Ea.
    - pose proof (alloc_procs_total _ _ _ _ _ _ _ _ _ Ea) as Htot.
      change (total = total_requested o) in Htot. subst total.
      destruct (Z.eqb_spec (total_requested o) 0) as [Hz|Hnz].
      + split; [reflexivity|]. intros _ Hne. contradiction.
      + destruct (setup_shm_fails (div_ops o) w max
                    (pr_inf (div_ops o) "dispatching hogs"
                            (with_procs ps (init_state w))) Hfail) as [st' E].
        rewrite E. split; [reflexivity|]. intros _ _. cbn [fst].
        eapply setup_shm_failed, E.
    - split; [reflexivity|]. intros Hc _. exfalso.
      destruct (alloc_procs_ok (div_ops o) w (seq 0 STRESS_MAX) 0 [] 0) as [r Hr].
      + intros i Hi. apply Hc. apply list_elem_of_In, in_seq in Hi. lia.
      + rewrite Hr in Ea. discriminate. }
  destruct Hexit as [He Hn].
  destruct (main_early_or_launch o w) as [(_ & F & S & _)|(st0 & _ & _ & _ & _ & Hm)].
  - repeat split; assumption.
  - exfalso. rewrite Hm in He. exact (launched_not_failure _ _ _ _ _ He).
Qed.

Lemma region_failure_aborts_witness :
  let o := sample_options 0 [0; 3; 0; 0] in
  let w := mk_world 4242 {["stress_ng_4242"]} (fun _ => true) 3 (-1) true forks_ok
                    clock_100us [] (fun _ => 0) in
  snd (main o w) = Exited EXIT_FAILURE
  /\ shm_name w ∉ shm_ns (fst (main o w)).
Proof.
  intros o w.
  destruct (region_failure_aborts o w) as (H1 & _ & _ & H4).
  - right. left. vm_compute. reflexivity.
  - split; [exact H1|]. apply H4; [intros i _; reflexivity|].
    vm_compute. discriminate.
Defined.

(** ** Runs in which every fork succeeds *)

Lemma launch_rounds_succeed (o : options) (w : world) (max : Z) :
  forks_succeed w ->
  forall rounds n st st', launch_rounds o w max rounds n st <> inl st'.
Proof.
  intros Hok.
  assert (Hone : forall n c st st', launch_one o w max n c st <> inl st').
  { intros n c st st'. unfold launch_one. destruct (_ <? _); [|discriminate].
    destruct (w_fork w (forks st)) eqn:E; [|discriminate].
    exfalso. exact (Hok _ E). }
  assert (Hround : forall n cats st st', launch_round o w max n cats st <> inl st').
  { intros n. induction cats as [|c cats IH]; intros st st'; cbn [launch_round];
      [discriminate|].
    destruct (launch_one o w max n c st) as [s|s] eqn:E; [|apply IH].
    exfalso. exact (Hone _ _ _ _ E). }
  induction rounds as [|rounds IH]; intros n st st'; cbn [launch_rounds]; [discriminate|].
  destruct (launch_round o w max n (seq 0 STRESS_MAX) st) as [s|s] eqn:E; [|apply IH].
  exfalso. exact (Hround _ _ _ _ E).
Qed.

Lemma total_requested_bounds (o : options) (i : nat) :
  wf_options o -> (i < STRESS_MAX)%nat ->
  0 <= num_procs o !!! i <= total_requested o.
Proof.
  intros Hwf Hi. unfold total_requested, STRESS_MAX in *. cbn [seq foldl].
  pose proof (wf_options_range o 0 Hwf ltac:(unfold STRESS_MAX; lia)).
  pose proof (wf_options_range o 1 Hwf ltac:(unfold STRESS_MAX; lia)).
  pose proof (wf_options_range o 2 Hwf ltac:(unfold STRESS_MAX; lia)).
  pose proof (wf_options_range o 3 Hwf ltac:(unfold STRESS_MAX; lia)).
  destruct i as [|[|[|[|i]]]]; lia.
Qed.

Lemma fork_parent_total (o : options) (w : world) (max n : Z) (c : nat)
    (j child : Z) (st : state) :
  (c < STRESS_MAX)%nat -> length (started_procs st) = STRESS_MAX ->
  j = started_procs st !!! c ->
  started_total (fork_parent o w max n c j child (forked st)) = started_total st + 1.
Proof.
  intros Hc Hlen ->. unfold started_total, STRESS_MAX in *. cbn [seq foldl].
  rewrite !fork_parent_started by lia.
  destruct c as [|[|[|[|c]]]]; [| | | |lia]; repeat case_decide; lia.
Qed.

(** The launch loop counts in [started_procs] what it forks. *)
Lemma launch_counts (o : options) (w : world) (max total : Z) (st : state) :
  wf_options o -> launch_ready o st ->
  match launch o w max total st with
  | inr st' =>
      launch_inv o w max (ticks st) (forks st)
                 (round_bound o (Z.of_nat (Z.to_nat total)) 0) st'
      /\ Z.of_nat (length (spawned (trace st'))) = started_total st'
  | inl _ => True
  end.
Proof.
  intros Hwf Hr.
  pose proof (launch_with o w max
                (fun _ _ s => Z.of_nat (length (spawned (trace s))) = started_total s)
                Hwf) as H.
  cbv beta in H.
  assert (H0 : Z.of_nat (length (spawned (trace st))) = started_total st).
  { destruct Hr as (_ & _ & R3 & R4 & _). rewrite R4. unfold started_total.
    rewrite R3. reflexivity. }
  specialize (fun Hf => H Hf (fun _ _ _ h => h) (fun _ _ h => h) total st Hr H0).
  destruct (launch o w max total st) as [st'|st']; [exact I|].
  apply H. intros k0 f0 n c child s Hn Hc Hinv HP Hlt.
  destruct (fork_parent_trace o w max n c (started_procs s !!! c) child s) as (-> & _).
  rewrite length_app, (fork_parent_total o w max n c _ child s Hc
                         (inv_started_len Hinv) eq_refl).
  cbn [length]. lia.
Qed.

Lemma started_total_requested (o : options) (st : state) :
  (forall i, (i < STRESS_MAX)%nat -> started_procs st !!! i = num_procs o !!! i) ->
  started_total st = total_requested o.
Proof.
  intros H. unfold started_total, total_requested, STRESS_MAX in *. cbn [seq foldl].
  rewrite !H by lia. reflexivity.
Qed.

(** What the rest of [main] leaves of the count of [fork] calls. *)
Lemma proc_finished_forks (w : world) (p : Z) (st : state) :
  forks (proc_finished w p st) = forks st.
Proof.
  unfold proc_finished, time_now.
  destruct (find_proc _ _ _ _) as [[i j]|]; reflexivity.
Qed.

Lemma print_forks (o : options) (level : string) (flag : Z) (msg : string) (st : state) :
  forks (print o level flag msg st) = forks st.
Proof. unfold print. destruct (c_true _); reflexivity. Qed.

Lemma reap_forks (o : options) (w : world) (waits : list wait_result) :
  forall n st, forks (reaping_state (reap o w waits n st)) = forks st.
Proof.
  induction waits as [|r waits IH]; intros n st; cbn [reap].
  - destruct (n =? 0); reflexivity.
  - destruct (n =? 0); [reflexivity|].
    destruct (0 <? wr_ret r).
    + rewrite IH. unfold pr_dbg. rewrite print_forks. apply proc_finished_forks.
    + destruct (wr_ret r =? -1); rewrite IH; reflexivity.
Qed.

Lemma report_forks (o : options) (w : world) (max : Z) (st : state) :
  forks (report o w max st) = forks st.
Proof.
  unfold report. destruct (c_true _); [|reflexivity].
  generalize (seq 0 STRESS_MAX). intros l. revert st.
  induction l as [|i l IH]; intros st; [reflexivity|].
  cbn [foldl]. rewrite IH. destruct (c_true _); reflexivity.
Qed.

Lemma after_launch_forks (o : options) (w : world) (max total : Z)
    (r : state + state) :
  forks (fst (after_launch o w max total r)) = forks (either_state r).
Proof.
  unfold after_launch. destruct r as [st|st]; cbn [either_state]; [reflexivity|].
  pose proof (reap_forks o w (w_wait w) total (pr_dbg o "%d processes running" st)) as H.
  destruct (reap _ _ _ _ _) as [st'|n st']; cbn [reaping_state fst] in *.
  - unfold out, time_now, pr_inf. cbn [fst shm_unlink forks].
    rewrite report_forks, print_forks. cbn [forks]. rewrite H.
    unfold pr_dbg. apply print_forks.
  - rewrite H. unfold pr_dbg. apply print_forks.
Qed.

(** X6: if no fork fails, a run that gets past the set-up forks exactly
    the number of workers requested for each category, and calls [fork]
    exactly once per worker: [started_procs[i]] ends equal to
    [num_procs[i]] and the number of workers forked is [total_procs]. *)
Theorem every_request_satisfied (o : options) (w : world) :
  wf_options o -> forks_succeed w ->
  snd (main o w) <> Exited EXIT_FAILURE ->
  (forall i, (i < STRESS_MAX)%nat ->
             started_procs (fst (main o w)) !!! i = num_procs o !!! i)
  /\ Z.of_nat (length (spawned (trace (fst (main o w))))) = total_requested o
  /\ forks (fst (main o w)) = length (spawned (trace (fst (main o w))))
  /\ fork_failures (trace (fst (main o w))) = [].
Proof.
  intros Hwf Hok Hexit.
  destruct (main_early_or_launch o w) as [(E & _)|(st0 & Hr & Ht & Hf & Hnz & Hm)];
    [contradiction|].
  assert (Hwf' : wf_options (div_ops o)) by exact Hwf.
  pose proof (launch_counts (div_ops o) w (max_procs o) (total_requested o) st0 Hwf' Hr)
    as Hl.
  pose proof (after_launch_record (div_ops o) w (max_procs o) (total_requested o)
                (launch (div_ops o) w (max_procs o) (total_requested o) st0))
    as (S1 & S2 & S3 & _).
  pose proof (after_launch_forks (div_ops o) w (max_procs o) (total_requested o)
                (launch (div_ops o) w (max_procs o) (total_requested o) st0)) as HF.
  rewrite <- Hm in S1, S2, S3, HF. rewrite S1, S2, S3, HF.
  destruct (launch (div_ops o) w (max_procs o) (total_requested o) st0)
    as [st1|st1] eqn:El; cbn [either_state].
  { exfalso. unfold launch in El. exact (launch_rounds_succeed _ _ _ Hok _ _ _ _ El). }
  destruct Hl as [Hinv Hcount].
  assert (Hst : forall i, (i < STRESS_MAX)%nat ->
                          started_procs st1 !!! i = num_procs o !!! i).
  { intros i Hi. rewrite (inv_started Hinv i Hi). unfold round_bound.
    cbn [Nat.ltb Nat.leb num_procs div_ops].
    pose proof (total_requested_bounds o i Hwf Hi). lia. }
  split; [exact Hst|]. split; [|split].
  - rewrite Hcount. apply started_total_requested, Hst.
  - rewrite (inv_forks Hinv), Hf. reflexivity.
  - apply (inv_no_failure Hinv).
Qed.

Lemma every_request_satisfied_witness :
  let o := sample_options 0 [2; 0; 1; 0] in
  let w := sample_world forks_ok [] in
  Z.of_nat (length (spawned (trace (fst (main o w))))) = 3
  /\ forks (fst (main o w)) = 3%nat.
Proof.
  intros o w.
  destruct (every_request_satisfied o w) as (_ & H2 & H3 & _).
  - split; [reflexivity|]. intros i Hi. destruct i as [|[|[|[|i]]]]; reflexivity.
  - intros k. discriminate.
  - vm_compute. discriminate.
  - split; [exact H2|]. rewrite H3. vm_compute. reflexivity.
Defined.

(** ** The reap loop: how many children are waited for *)

Lemma positives_cons (r : wait_result) (waits : list wait_result) :
  positives (r :: waits) = (if 0 <? wr_ret r then 1 else 0) + positives waits.
Proof.
  unfold positives. cbn [List.filter]. destruct (0 <? wr_ret r); cbn [length]; lia.
Qed.

Lemma positives_nonneg (waits : list wait_result) : 0 <= positives waits.
Proof. unfold positives. lia. Qed.

(** The loop is left exactly when [n_procs] returns of [wait] have named
    a child; failed waits do not count. *)
Lemma reap_accounting (o : options) (w : world) (waits : list wait_result) :
  forall n st,
    0 <= n ->
    match reap o w waits n st with
    | Reaped _ => n <= positives waits
    | InWait m _ => m = n - positives waits /\ 0 < m
    end.
Proof.
  induction waits as [|r waits IH]; intros n st Hn; cbn [reap].
  - destruct (Z.eqb_spec n 0) as [->|Hne]; [apply positives_nonneg|].
    unfold positives. cbn. lia.
  - destruct (Z.eqb_spec n 0) as [->|Hne]; [apply positives_nonneg|].
    rewrite positives_cons.
    destruct (0 <? wr_ret r).
    + specialize (IH (n - 1)
                     (pr_dbg o "process [%d] terminated" (proc_finished w (wr_ret r) st))
                     ltac:(lia)).
      destruct (reap _ _ _ _ _); lia.
    + destruct (wr_ret r =? -1).
      * specialize (IH n (log [EvPrintf "Break"]
                            (log (send_alarm (procs st) (started_procs st)) st)) Hn).
        destruct (reap _ _ _ _ _); lia.
      * specialize (IH n st Hn). destruct (reap _ _ _ _ _); lia.
Qed.

(** X7: if no fork fails, a run that gets past the set-up ends, with exit
    code 0, exactly when [wait] has returned a child's pid as many times
    as workers were requested; until then the orchestrator is blocked in
    [wait] with the difference outstanding.  Failed waits do not count
    towards it. *)
Theorem run_ends_when_all_reaped (o : options) (w : world) :
  wf_options o -> forks_succeed w ->
  snd (main o w) <> Exited EXIT_FAILURE ->
  snd (main o w)
  = if total_requested o <=? positives (w_wait w)
    then Exited EXIT_SUCCESS
    else Waiting (total_requested o - positives (w_wait w)).
Proof.
  intros Hwf Hok Hexit.
  destruct (main_early_or_launch o w) as [(E & _)|(st0 & Hr & Ht & Hf & Hnz & Hm)];
    [contradiction|].
  rewrite Hm.
  destruct (launch (div_ops o) w (max_procs o) (total_requested o) st0)
    as [st1|st1] eqn:El.
  { exfalso. unfold launch in El. exact (launch_rounds_succeed _ _ _ Hok _ _ _ _ El). }
  unfold after_launch.
  assert (Hpos : 0 <= total_requested o).
  { pose proof (total_requested_bounds o 0 Hwf ltac:(unfold STRESS_MAX; lia)). lia. }
  pose proof (reap_accounting (div_ops o) w (w_wait w) (total_requested o)
                (pr_dbg (div_ops o) "%d processes running" st1) Hpos) as H.
  destruct (reap _ _ _ _ _) as [st2|n st2]; cbn [snd].
  - destruct (Z.leb_spec (total_requested o) (positives (w_wait w))); [reflexivity|lia].
  - destruct (Z.leb_spec (total_requested o) (positives (w_wait w))); [lia|].
    destruct H as [-> _]. reflexivity.
Qed.

Lemma run_ends_when_all_reaped_witness :
  let o := sample_options 0 [1; 1; 0; 0] in
  (let w := sample_world forks_ok [mk_wait 101 0; mk_wait (-1) EINTR] in
   snd (main o w) = Waiting 1)
  /\ (let w := sample_world forks_ok [mk_wait 101 0; mk_wait (-1) EINTR; mk_wait 100 0] in
      snd (main o w) = Exited EXIT_SUCCESS).
Proof.
  intros o.
  assert (Hwf : wf_options o).
  { split; [reflexivity|]. intros i Hi. destruct i as [|[|[|[|i]]]]; reflexivity. }
  split; intros w.
  - rewrite (run_ends_when_all_reaped o w Hwf); [reflexivity| |].
    + intros k. discriminate.
    + vm_compute. discriminate.
  - rewrite (run_ends_when_all_reaped o w Hwf); [reflexivity| |].
    + intros k. discriminate.
    + vm_compute. discriminate.
Defined.

(** ** Whom the orchestrator signals *)

Lemma kills_elem (e : event) (tr : list event) :
  e ∈ kills tr <-> e ∈ tr /\ is_kill e = true.
Proof.
  unfold kills. rewrite !list_elem_of_In. apply List.filter_In.
Qed.

Lemma launch_inv_signals_ok (o : options) (w : world) (max : Z) (k0 f0 : nat)
    (bound : nat -> Z) (st : state) :
  launch_inv o w max k0 f0 bound st -> signals_ok st.
Proof.
  intros Hinv. split.
  - intros i q Hi Hq. apply tracked_is_entry in Hq as (j & Hj & ->).
    destruct (inv_tracked Hinv i j Hi Hj) as (s & Hs & <- & <-).
    exists s. split; [exact Hs|].
    destruct (inv_spawned Hinv s Hs) as (_ & _ & _ & _ & S5 & _). symmetry. exact S5.
  - intros e He. rewrite (inv_no_kill Hinv) in He. apply elem_of_nil in He. contradiction.
Qed.

Lemma signals_ok_quiet (st st' : state) :
  procs st' = procs st -> started_procs st' = started_procs st ->
  spawned (trace st') = spawned (trace st) -> kills (trace st') = kills (trace st) ->
  signals_ok st -> signals_ok st'.
Proof.
  intros E1 E2 E3 E4 [HT HK]. split.
  - intros i q Hi Hq. rewrite E1, E2 in Hq. rewrite E3. apply (HT i q Hi Hq).
  - intros e He. rewrite E4 in He. rewrite E3. apply (HK e He).
Qed.

Lemma signals_ok_books (st st' : state) :
  same_books st st' -> signals_ok st -> signals_ok st'.
Proof.
  intros (B1 & B2 & _ & _ & B5 & _ & B7). apply signals_ok_quiet; assumption.
Qed.

Lemma signals_ok_send_alarm (st : state) :
  signals_ok st -> signals_ok (log (send_alarm (procs st) (started_procs st)) st).
Proof.
  intros [HT HK]. split.
  - intros i q Hi Hq. cbn [log procs started_procs trace] in *.
    rewrite spawned_app, spawned_send_alarm, app_nil_r. apply (HT i q Hi Hq).
  - intros e He. cbn [log trace] in *.
    rewrite spawned_app, spawned_send_alarm, app_nil_r.
    rewrite kills_app, kills_send_alarm in He. apply elem_of_app in He as [He|He].
    + apply (HK e He).
    + apply send_alarm_only_tracked in He as (i & q & Hi & Hq & ->).
      destruct (HT i q Hi Hq) as (s & Hs & <-). exists s. split; [exact Hs|reflexivity].
Qed.

Lemma proc_finished_tracked_pids (w : world) (p : Z) (st : state) (i : nat) :
  pid <$> tracked (procs (proc_finished w p st)) (started_procs (proc_finished w p st)) i
  = pid <$> tracked (procs st) (started_procs st) i.
Proof.
  unfold proc_finished, time_now.
  destruct (find_proc _ _ _ _) as [[i0 j0]|]; [|reflexivity].
  cbn [procs started_procs]. unfold tracked. rewrite !fmap_take. f_equal.
  rewrite list_lookup_total_insert.
  destruct (decide (i0 = i /\ _)) as [[-> _]|_]; [|reflexivity].
  rewrite list_fmap_insert. apply list_insert_id'. intros Hlt.
  rewrite length_fmap in Hlt. rewrite list_lookup_fmap.
  rewrite (list_lookup_lookup_total_lt _ _ Hlt). reflexivity.
Qed.

Lemma signals_ok_proc_finished (w : world) (p : Z) (st : state) :
  signals_ok st -> signals_ok (proc_finished w p st).
Proof.
  intros [HT HK].
  assert (Htr : trace (proc_finished w p st) = trace st).
  { unfold proc_finished, time_now. destruct (find_proc _ _ _ _) as [[i j]|]; reflexivity. }
  split.
  - intros i q Hi Hq. rewrite Htr.
    apply (list_elem_of_fmap_2 pid) in Hq. rewrite proc_finished_tracked_pids in Hq.
    apply list_elem_of_fmap in Hq as (q0 & -> & Hq0). apply (HT i q0 Hi Hq0).
  - intros e He. rewrite Htr in *. apply (HK e He).
Qed.

Lemma signals_ok_reap (o : options) (w : world) (waits : list wait_result) :
  forall n st, signals_ok st -> signals_ok (reaping_state (reap o w waits n st)).
Proof.
  induction waits as [|r waits IH]; intros n st H; cbn [reap].
  - destruct (n =? 0); exact H.
  - destruct (n =? 0); [exact H|].
    destruct (0 <? wr_ret r).
    + apply IH. eapply signals_ok_books; [apply same_books_print|].
      apply signals_ok_proc_finished, H.
    + destruct (wr_ret r =? -1); [|apply IH, H].
      apply IH. eapply signals_ok_books; [apply same_books_log; reflexivity|].
      apply signals_ok_send_alarm, H.
Qed.

Lemma same_books_report (o : options) (w : world) (max : Z) (st : state) :
  same_books st (report o w max st).
Proof.
  unfold report. destruct (c_true _); [|apply same_books_refl].
  generalize (seq 0 STRESS_MAX). intros l. revert st.
  induction l as [|i l IH]; intros st; [apply same_books_refl|].
  cbn [foldl]. eapply same_books_trans; [|apply IH].
  destruct (c_true _); [|apply same_books_refl].
  apply same_books_log; reflexivity.
Qed.

Lemma signals_ok_time_now (w : world) (st : state) :
  signals_ok st -> signals_ok (snd (time_now w st)).
Proof. apply signals_ok_quiet; reflexivity. Qed.

Lemma signals_ok_after_launch (o : options) (w : world) (max total : Z)
    (r : state + state) :
  signals_ok (either_state r) -> signals_ok (fst (after_launch o w max total r)).
Proof.
  unfold after_launch. destruct r as [st|st]; cbn [either_state]; intros H.
  - cbn [out fst]. eapply signals_ok_books; [apply same_books_shm_unlink|exact H].
  - pose proof (signals_ok_reap o w (w_wait w) total
                  (pr_dbg o "%d processes running" st)) as Hr.
    destruct (reap _ _ _ _ _) as [st'|n st']; cbn [reaping_state fst] in *.
    + cbn [time_now out fst].
      eapply signals_ok_books; [apply same_books_shm_unlink|].
      eapply signals_ok_books; [apply same_books_report|].
      eapply signals_ok_books; [apply (same_books_print o "info" PR_INF)|].
      apply (signals_ok_time_now w). apply Hr.
      eapply signals_ok_books; [apply same_books_print|exact H].
    + apply Hr. eapply signals_ok_books; [apply same_books_print|exact H].
Qed.

(** X8: the only signal the orchestrator ever sends is SIGALRM, and it
    sends it only to workers it has forked itself: every [kill] in a run
    names the pid one of its own successful forks returned. *)
Theorem signals_only_own_workers (o : options) (w : world) (e : event) :
  wf_options o ->
  e ∈ kills (trace (fst (main o w))) ->
  exists s, s ∈ spawned (trace (fst (main o w))) /\ e = EvKill (sp_pid s) SIGALRM.
Proof.
  intros Hwf He.
  destruct (main_early_or_launch o w) as [(_ & _ & _ & _ & K)|(st0 & Hr & _ & _ & _ & Hm)].
  { rewrite K in He. apply elem_of_nil in He. contradiction. }
  assert (Hwf' : wf_options (div_ops o)) by exact Hwf.
  pose proof (launch_keeps_books (div_ops o) w (max_procs o) (total_requested o) st0
                Hwf' Hr) as Hl.
  assert (Hok : signals_ok (fst (main o w))).
  { rewrite Hm. apply signals_ok_after_launch.
    destruct (launch (div_ops o) w (max_procs o) (total_requested o) st0) as [st1|st1];
      cbn [either_state].
    - destruct Hl as (n & c & bound & st & Hinv & ->). unfold fork_failed.
      apply signals_ok_send_alarm.
      eapply signals_ok_books; [apply same_books_print|].
      apply (signals_ok_quiet (forked st)).
      { reflexivity. }
      { reflexivity. }
      { cbn [log trace forked]. rewrite spawned_app, app_nil_r. reflexivity. }
      { cbn [log trace forked]. rewrite kills_app, app_nil_r. reflexivity. }
      apply (signals_ok_quiet st); [reflexivity..|].
      eapply launch_inv_signals_ok, Hinv.
    - eapply launch_inv_signals_ok, Hl. }
  apply (proj2 Hok e He).
Qed.

Lemma signals_only_own_workers_witness :
  let o := sample_options 0 [0; 2; 0; 0] in
  let w := sample_world forks_ok [mk_wait (-1) EINTR] in
  kills (trace (fst (main o w))) = [EvKill 100 SIGALRM; EvKill 101 SIGALRM]
  /\ exists s, s ∈ spawned (trace (fst (main o w)))
               /\ EvKill 101 SIGALRM = EvKill (sp_pid s) SIGALRM.
Proof.
  intros o w. split; [vm_compute; reflexivity|].
  apply (signals_only_own_workers o w (EvKill 101 SIGALRM)).
  - split; [reflexivity|]. intros i Hi. destruct i as [|[|[|[|i]]]]; reflexivity.
  - apply list_elem_of_In. vm_compute. right. left. reflexivity.
Defined.

(** * Further properties of the stressors *)

(** ** [stress_null]: the operation budget *)

Lemma null_body_counter (fd : Z) (s : Null.step) (st : Null.nstate) :
  match Null.body fd s st with
  | inl st' =>
      (Null.s_ret s <= 0 /\ Null.counter st' = Null.counter st)
      \/ (0 < Null.s_ret s /\ Null.counter st' = inc_counter (Null.counter st))
  | inr (code, st') => code = EXIT_FAILURE /\ Null.counter st' = Null.counter st
  end.
Proof.
  unfold Null.body.
  destruct (Z.leb_spec (Null.s_ret s) 0) as [Hle|Hgt].
  - destruct (_ || _); [left; split; [exact Hle|reflexivity]|].
    destruct (c_true _); [split; reflexivity|].
    left. split; [exact Hle|reflexivity].
  - right. split; [exact Hgt|reflexivity].
Qed.

Lemma null_loop_budget (max_ops fd : Z) (steps : list Null.step) :
  forall st,
    0 <= Null.counter st <= max_ops -> max_ops < 2 ^ 64 ->
    (steps <> [] -> Null.counter st < max_ops) ->
    let st' := null_state (Null.loop max_ops fd steps st) in
    Null.counter st <= Null.counter st' <= max_ops.
Proof.
  induction steps as [|s steps IH]; intros st Hc Hm Hlt; cbn [Null.loop null_state].
  - lia.
  - assert (Hlt' : Null.counter st < max_ops) by (apply Hlt; discriminate).
    pose proof (null_body_counter fd s st) as Hb.
    destruct (Null.body fd s st) as [st1|[code st1]].
    + assert (H1 : Null.counter st <= Null.counter st1 <= max_ops).
      { destruct Hb as [[_ ->]|[_ ->]]; [lia|].
        rewrite inc_counter_succ by lia. lia. }
      unfold keep_stressing.
      destruct (Null.s_do_run s); cbn [andb].
      * destruct (Z.eqb_spec max_ops 0) as [?|_]; [lia|]. cbn [orb].
        destruct (Z.ltb_spec (Null.counter st1) max_ops) as [Hlt1|Hge].
        -- specialize (IH st1). cbn zeta in IH.
           assert (Null.counter st1 <= Null.counter
                     (null_state (Null.loop max_ops fd steps st1)) <= max_ops).
           { apply IH; [lia|exact Hm|intros _; exact Hlt1]. }
           lia.
        -- cbn. lia.
      * cbn. lia.
    + destruct Hb as [_ Hb]. cbn. lia.
Qed.

Lemma null_loop_success (max_ops fd : Z) (steps : list Null.step) :
  forall st st',
    flag_stays_set steps -> 0 < max_ops ->
    Null.loop max_ops fd steps st = Null.Returned EXIT_SUCCESS st' ->
    max_ops <= Null.counter st'.
Proof.
  induction steps as [|s steps IH]; intros st st' Hf Hm; cbn [Null.loop];
    [discriminate|].
  apply Forall_cons in Hf as [Hs Hf].
  pose proof (null_body_counter fd s st) as Hb.
  destruct (Null.body fd s st) as [st1|[code st1]].
  - unfold keep_stressing. rewrite Hs. cbn [andb].
    destruct (Z.eqb_spec max_ops 0) as [?|_]; [lia|]. cbn [orb].
    destruct (Z.ltb_spec (Null.counter st1) max_ops) as [Hlt1|Hge].
    + apply IH; assumption.
    + intros [= <-]. cbn. exact Hge.
  - destruct Hb as [-> _]. intros H. discriminate H.
Qed.

(** X9: with a budget [max_ops > 0] and a counter that starts below it,
    [stress_null] never takes the counter past the budget, however the
    writes go and whether it has returned or not; and when it returns
    EXIT_SUCCESS with the stop flag never cleared, the counter is exactly
    the budget. *)
Theorem null_budget_respected (max_ops counter0 open_ret : Z)
    (steps : list Null.step) :
  0 <= counter0 < max_ops -> max_ops < 2 ^ 64 ->
  let r := Null.stress_null max_ops counter0 open_ret steps in
  counter0 <= Null.counter (null_state r) <= max_ops
  /\ (flag_stays_set steps ->
      forall st, r = Null.Returned EXIT_SUCCESS st -> Null.counter st = max_ops).
Proof.
  intros Hc Hm r.
  assert (Hb : counter0 <= Null.counter (null_state r) <= max_ops).
  { subst r. unfold Null.stress_null. destruct (open_ret <? 0).
    - cbn. lia.
    - apply (null_loop_budget max_ops open_ret steps
               (Null.mk_nstate counter0 [open_ret] [Null.NOpen open_ret]));
        cbn [Null.counter]; [lia|exact Hm|intros _; lia]. }
  split; [exact Hb|].
  intros Hf st Hr. rewrite Hr in Hb. cbn [null_state] in Hb.
  assert (max_ops <= Null.counter st); [|lia].
  subst r. unfold Null.stress_null in Hr. destruct (open_ret <? 0).
  - discriminate Hr.
  - eapply null_loop_success; [exact Hf|lia|exact Hr].
Qed.

Lemma null_budget_respected_witness :
  let steps := [Null.mk_step 4096 0 true; Null.mk_step (-1) EINTR true;
                Null.mk_step 4096 0 true; Null.mk_step 4096 0 true] in
  exists st, Null.stress_null 2 0 3 steps = Null.Returned EXIT_SUCCESS st
             /\ Null.counter st = 2.
Proof.
  intros steps. eexists. split; [vm_compute; reflexivity|].
  destruct (null_budget_respected 2 0 3 steps) as [_ H]; [lia|lia|].
  apply H.
  - repeat constructor.
  - vm_compute. reflexivity.
Defined.

Lemma null_successes_cons (s : Null.step) (steps : list Null.step) :
  Null.successes (s :: steps)
  = (if 0 <? Null.s_ret s then 1 else 0) + Null.successes steps.
Proof.
  unfold Null.successes. rewrite filter_cons.
  destruct (Z.ltb_spec 0 (Null.s_ret s)) as [H|H].
  - rewrite decide_True by exact H. cbn [length]. lia.
  - rewrite decide_False by lia. lia.
Qed.

Lemma null_successes_nonneg (steps : list Null.step) : 0 <= Null.successes steps.
Proof. unfold Null.successes. lia. Qed.

Lemma null_body_benign (fd : Z) (s : Null.step) (st : Null.nstate) :
  (Null.s_ret s <= 0 ->
   Null.s_errno s = EAGAIN \/ Null.s_errno s = EINTR \/ Null.s_errno s = 0) ->
  exists st', Null.body fd s st = inl st'
              /\ Null.fds st' = Null.fds st
              /\ Null.counter st'
                 = if 0 <? Null.s_ret s then inc_counter (Null.counter st)
                   else Null.counter st.
Proof.
  intros H. unfold Null.body.
  destruct (Z.leb_spec (Null.s_ret s) 0) as [Hle|Hgt].
  - destruct (Z.ltb_spec 0 (Null.s_ret s)) as [?|_]; [lia|].
    destruct (H Hle) as [-> | [-> | ->]]; eexists; (split; [reflexivity|split; reflexivity]).
  - destruct (Z.ltb_spec 0 (Null.s_ret s)) as [_|?]; [|lia].
    eexists. split; [reflexivity|split; reflexivity].
Qed.

Lemma null_loop_reaches (max_ops fd : Z) (steps : list Null.step) :
  forall st,
    flag_stays_set steps -> no_fatal_write steps ->
    0 <= Null.counter st < max_ops -> max_ops < 2 ^ 64 ->
    Null.fds st = [fd] ->
    max_ops - Null.counter st <= Null.successes steps ->
    exists st', Null.loop max_ops fd steps st = Null.Returned EXIT_SUCCESS st'
                /\ Null.counter st' = max_ops /\ Null.fds st' = [].
Proof.
  induction steps as [|s steps IH]; intros st Hf Hn Hc Hm Hfd Hs.
  - unfold Null.successes in Hs. cbn in Hs. lia.
  - apply Forall_cons in Hf as [Hrun Hf]. apply Forall_cons in Hn as [Hben Hn].
    rewrite null_successes_cons in Hs. cbn [Null.loop].
    destruct (null_body_benign fd s st Hben) as (st1 & Hb & Hfd1 & Hc1). rewrite Hb.
    unfold keep_stressing. rewrite Hrun. cbn [andb].
    destruct (Z.eqb_spec max_ops 0) as [?|_]; [lia|]. cbn [orb].
    assert (Hc1' : Null.counter st1
                   = Null.counter st + (if 0 <? Null.s_ret s then 1 else 0)).
    { rewrite Hc1. destruct (0 <? Null.s_ret s); [|lia].
      apply inc_counter_succ. lia. }
    destruct (Z.ltb_spec (Null.counter st1) max_ops) as [Hlt|Hge].
    + apply IH; try assumption; [|congruence|].
      * destruct (0 <? Null.s_ret s); lia.
      * lia.
    + eexists. split; [reflexivity|]. split.
      * cbn. destruct (0 <? Null.s_ret s); lia.
      * apply null_close_only. congruence.
Qed.

(** X10: [stress_null] does return once its budget is spent: if
    [/dev/null] opens, the stop flag stays set, no [write] fails for good
    and at least [max_ops - counter0] of the writes the kernel serves
    complete, the stressor returns EXIT_SUCCESS with the counter at
    [max_ops] and the descriptor closed. *)
Theorem null_budget_reached (max_ops counter0 open_ret : Z)
    (steps : list Null.step) :
  0 <= open_ret -> 0 <= counter0 < max_ops -> max_ops < 2 ^ 64 ->
  flag_stays_set steps -> no_fatal_write steps ->
  max_ops - counter0 <= Null.successes steps ->
  exists st, Null.stress_null max_ops counter0 open_ret steps
             = Null.Returned EXIT_SUCCESS st
             /\ Null.counter st = max_ops /\ Null.fds st = [].
Proof.
  intros Ho Hc Hm Hf Hn Hs. unfold Null.stress_null.
  destruct (Z.ltb_spec open_ret 0) as [?|_]; [lia|].
  apply null_loop_reaches; try assumption; reflexivity.
Qed.

Lemma null_budget_reached_witness :
  let steps := [Null.mk_step (-1) EAGAIN true; Null.mk_step 4096 0 true;
                Null.mk_step 0 0 true; Null.mk_step 4096 0 true;
                Null.mk_step 4096 0 true] in
  exists st, Null.stress_null 7 5 3 steps = Null.Returned EXIT_SUCCESS st
             /\ Null.counter st = 7 /\ Null.fds st = [].
Proof.
  intros steps. apply (null_budget_reached 7 5 3 steps); try lia.
  - repeat constructor.
  - repeat constructor; cbn; intros; auto; lia.
  - vm_compute. discriminate.
Defined.

Lemma null_loop_unlimited (fd : Z) (steps : list Null.step) :
  forall st,
    flag_stays_set steps -> no_fatal_write steps ->
    0 <= Null.counter st < 2 ^ 64 ->
    exists st', Null.loop 0 fd steps st = Null.Running st'
                /\ Null.counter st'
                   = to_uint64 (Null.counter st + Null.successes steps)
                /\ Null.fds st' = Null.fds st.
Proof.
  induction steps as [|s steps IH]; intros st Hf Hn Hc.
  - exists st. split; [reflexivity|]. split; [|reflexivity].
    unfold Null.successes. cbn. rewrite Z.add_0_r, to_uint64_small; lia.
  - apply Forall_cons in Hf as [Hrun Hf]. apply Forall_cons in Hn as [Hben Hn].
    cbn [Null.loop].
    destruct (null_body_benign fd s st Hben) as (st1 & Hb & Hfd1 & Hc1). rewrite Hb.
    unfold keep_stressing. rewrite Hrun. cbn [andb Z.eqb orb].
    destruct (IH st1 Hf Hn) as (st' & Hl & Hc' & Hfd').
    { rewrite Hc1. destruct (0 <? Null.s_ret s); [|exact Hc].
      unfold inc_counter, to_uint64. apply Z.mod_pos_bound. lia. }
    exists st'. split; [exact Hl|]. split; [|congruence].
    rewrite Hc', Hc1, null_successes_cons.
    destruct (0 <? Null.s_ret s).
    + unfold inc_counter, to_uint64. rewrite Zplus_mod_idemp_l. f_equal. lia.
    + f_equal.
Qed.

Lemma null_loop_no_success (fd : Z) (steps : list Null.step) :
  forall st st',
    flag_stays_set steps ->
    Null.loop 0 fd steps st <> Null.Returned EXIT_SUCCESS st'.
Proof.
  induction steps as [|s steps IH]; intros st st' Hf; cbn [Null.loop];
    [discriminate|].
  apply Forall_cons in Hf as [Hrun Hf].
  pose proof (null_body_counter fd s st) as Hb.
  destruct (Null.body fd s st) as [st1|[code st1]].
  - unfold keep_stressing. rewrite Hrun. cbn [andb Z.eqb orb]. apply IH, Hf.
  - destruct Hb as [-> _]. discriminate.
Qed.

(** X11: without a budget ([max_ops = 0]) [stress_null] never returns
    EXIT_SUCCESS while the stop flag stays set; if moreover no [write]
    fails for good it is still running after any number of writes, the
    descriptor open and the counter at the number of completed writes
    modulo 2^64. *)
Theorem null_unlimited_keeps_going (counter0 open_ret : Z)
    (steps : list Null.step) :
  flag_stays_set steps ->
  (forall st, Null.stress_null 0 counter0 open_ret steps
              <> Null.Returned EXIT_SUCCESS st)
  /\ (0 <= open_ret -> 0 <= counter0 < 2 ^ 64 -> no_fatal_write steps ->
      exists st, Null.stress_null 0 counter0 open_ret steps = Null.Running st
                 /\ Null.counter st = to_uint64 (counter0 + Null.successes steps)
                 /\ Null.fds st = [open_ret]).
Proof.
  intros Hf. unfold Null.stress_null. split.
  - intros st. destruct (open_ret <? 0); [discriminate|].
    apply null_loop_no_success, Hf.
  - intros Ho Hc Hn. destruct (Z.ltb_spec open_ret 0) as [?|_]; [lia|].
    apply (null_loop_unlimited open_ret steps
             (Null.mk_nstate counter0 [open_ret] [Null.NOpen open_ret]));
      assumption.
Qed.

Lemma null_unlimited_keeps_going_witness :
  let steps := [Null.mk_step 4096 0 true; Null.mk_step 4096 0 true] in
  exists st, Null.stress_null 0 (2 ^ 64 - 1) 3 steps = Null.Running st
             /\ Null.counter st = 1 /\ Null.fds st = [3].
Proof.
  intros steps.
  destruct (null_unlimited_keeps_going (2 ^ 64 - 1) 3 steps) as [_ H].
  - repeat constructor.
  - destruct H as (st & H1 & H2 & H3); [lia|lia| |].
    + repeat constructor; cbn; lia.
    + exists st. split; [exact H1|]. split; [|exact H3].
      rewrite H2. vm_compute. reflexivity.
Defined.

(** ** [spawn]: retrying [fork] *)

(** X13: [spawn] calls [fork] again for every failure that leaves EAGAIN
    while the stop flag is set, and for nothing else: as long as every
    answer is such a failure it is still forking, and the first other
    answer alone decides the result, a failure giving -1, a zero making
    this the child, a pid being returned as it is, after one [fork] per
    answer read and without reading an answer beyond. *)
Theorem spawn_retries_until_answer (a : Z) (pre post : list Spawn.fork_obs)
    (o : Spawn.fork_obs) :
  Forall (fun r => Spawn.retried r = true) pre ->
  Spawn.retried o = false ->
  Spawn.spawn a pre [] = (Spawn.Forking, replicate (length pre) Spawn.SFork)
  /\ fst (Spawn.spawn a (pre ++ o :: post) [])
     = (if Spawn.fo_ret o <? 0 then Spawn.InParent (-1)
        else if Spawn.fo_ret o =? 0 then Spawn.InChild
        else Spawn.InParent (Spawn.fo_ret o))
  /\ Spawn.fork_calls (snd (Spawn.spawn a (pre ++ o :: post) []))
     = S (length pre).
Proof.
  intros Hpre Ho.
  assert (Hgen : forall rest tr,
            Spawn.spawn a pre tr
            = (Spawn.Forking, tr ++ replicate (length pre) Spawn.SFork)
            /\ Spawn.spawn a (pre ++ rest) tr
               = Spawn.spawn a rest (tr ++ replicate (length pre) Spawn.SFork)).
  { induction Hpre as [|r pre Hr Hpre IH]; intros rest tr.
    - cbn [length replicate app]. rewrite app_nil_r. split; reflexivity.
    - cbn [Spawn.spawn app length replicate].
      unfold Spawn.retried in Hr.
      apply andb_true_iff in Hr as [Hr He]. apply andb_true_iff in Hr as [Hr Hd].
      rewrite Hr, Hd, He. cbn [andb].
      destruct (IH rest (tr ++ [Spawn.SFork])) as [H1 H2].
      rewrite H1, H2, <- !app_assoc. split; reflexivity. }
  destruct (Hgen (o :: post) []) as [H1 H2]. split; [exact H1|].
  rewrite H2. cbn [app Spawn.spawn].
  assert (Hcount : forall n tl,
            Spawn.fork_calls (replicate n Spawn.SFork ++ Spawn.SFork :: tl)
            = S (n + Spawn.fork_calls tl)).
  { intros n tl. unfold Spawn.fork_calls. rewrite List.filter_app, length_app.
    cbn [List.filter Spawn.is_fork length].
    replace (length (List.filter Spawn.is_fork (replicate n Spawn.SFork))) with n; [lia|].
    induction n as [|n IHn]; cbn; [reflexivity|]. f_equal. exact IHn. }
  unfold Spawn.retried in Ho.
  destruct (Spawn.fo_ret o <? 0); cbn [andb] in Ho.
  - rewrite Ho. cbn [fst snd]. split; [reflexivity|].
    rewrite (Hcount (length pre) []). cbn. lia.
  - destruct (Spawn.fo_ret o =? 0); cbn [fst snd]; (split; [reflexivity|]);
      rewrite <- app_assoc; cbn [app]; rewrite Hcount; cbn; lia.
Qed.

Lemma spawn_retries_until_answer_witness :
  let eagain := Spawn.mk_fork_obs (-1) EAGAIN true in
  let stopped := Spawn.mk_fork_obs (-1) EAGAIN false in
  fst (Spawn.spawn 0 [eagain; eagain; Spawn.mk_fork_obs 77 0 true; eagain] [])
  = Spawn.InParent 77
  /\ fst (Spawn.spawn 0 [eagain; stopped; Spawn.mk_fork_obs 77 0 true] [])
     = Spawn.InParent (-1).
Proof.
  intros eagain stopped. split.
  - destruct (spawn_retries_until_answer 0 [eagain; eagain] [eagain]
                (Spawn.mk_fork_obs 77 0 true)) as (_ & H & _).
    + repeat constructor.
    + reflexivity.
    + exact H.
  - destruct (spawn_retries_until_answer 0 [eagain] [Spawn.mk_fork_obs 77 0 true]
                stopped) as (_ & H & _).
    + repeat constructor.
    + reflexivity.
    + exact H.
Defined.

(** ** [stress_wait]: whom it signals, how it leaves, how far it counts *)

Lemma spawn_parent_pid (a : Z) (obs : list Spawn.fork_obs) :
  forall tr ret,
    fst (Spawn.spawn a obs tr) = Spawn.InParent ret ->
    ret = -1 \/ (0 < ret /\ ret ∈ forked_pids obs).
Proof.
  unfold forked_pids.
  induction obs as [|o obs IH]; intros tr ret; cbn [Spawn.spawn fst map List.filter];
    [discriminate|].
  destruct (Z.ltb_spec (Spawn.fo_ret o) 0) as [Hneg|Hpos].
  - destruct (Z.ltb_spec 0 (Spawn.fo_ret o)) as [?|_]; [lia|].
    destruct (_ && _).
    + apply IH.
    + intros [= <-]. left. reflexivity.
  - destruct (Z.eqb_spec (Spawn.fo_ret o) 0) as [?|Hnz]; [discriminate|].
    intros [= <-]. right.
    destruct (Z.ltb_spec 0 (Spawn.fo_ret o)) as [?|?]; [|lia].
    split; [lia|]. apply list_elem_of_here.
Qed.

Lemma count_trace (b : Wait.build) (status : Z) (st : Wait.wstate) :
  (Wait.wcounter (Wait.count b status st) = Wait.wcounter st
   /\ Wait.wtrace (Wait.count b status st) = Wait.wtrace st)
  \/ (Wait.wcounter (Wait.count b status st) = inc_counter (Wait.wcounter st)
      /\ Wait.wtrace (Wait.count b status st) = Wait.wtrace st ++ [Wait.WInc]).
Proof.
  unfold Wait.count. destruct (_ && _); [left|right]; split; reflexivity.
Qed.

Section WaiterCalls.
Variables (b : Wait.build) (max_ops pid_r pid_k : Z) (pids : list Z).
Hypothesis Hr : 0 < pid_r /\ pid_r ∈ pids.

Lemma own_call_count (status : Z) (st : Wait.wstate) :
  Forall (own_call pids) (Wait.wtrace st) ->
  Forall (own_call pids) (Wait.wtrace (Wait.count b status st)).
Proof.
  intros H. destruct (count_trace b status st) as [[_ ->]|[_ ->]]; [exact H|].
  apply Forall_app. split; [exact H|]. repeat constructor.
Qed.

Lemma own_call_wlog (es : list Wait.wevent) (st : Wait.wstate) :
  Forall (own_call pids) es ->
  Forall (own_call pids) (Wait.wtrace st) ->
  Forall (own_call pids) (Wait.wtrace (Wait.wlog es st)).
Proof. intros He H. cbn. apply Forall_app. split; assumption. Qed.

Lemma own_call_wbody (o : Wait.wobs) (st : Wait.wstate) :
  Forall (own_call pids) (Wait.wtrace st) ->
  match Wait.wbody b pid_r o st with
  | inl st' | inr st' => Forall (own_call pids) (Wait.wtrace st')
  end.
Proof.
  intros H. unfold Wait.wbody.
  assert (H1 : Forall (own_call pids)
                 (Wait.wtrace (Wait.wlog [Wait.WWaitpid pid_r (Wait.def_WCONINUED b)] st))).
  { apply own_call_wlog; [|exact H]. repeat constructor; apply Hr. }
  destruct (negb (Wait.wo_run1 o)); [exact H1|].
  destruct (Wait.have_waitid b); [|apply own_call_count, H1].
  assert (H2 : Forall (own_call pids)
                 (Wait.wtrace (Wait.wlog [Wait.WWaitid pid_r (Wait.def_WCONINUED b)]
                                 (Wait.count b (Wait.wo_status o)
                                    (Wait.wlog [Wait.WWaitpid pid_r (Wait.def_WCONINUED b)] st))))).
  { apply own_call_wlog; [|apply own_call_count, H1]. repeat constructor; apply Hr. }
  destruct (negb (Wait.wo_run2 o)); [exact H2|].
  apply own_call_count, H2.
Qed.

Lemma own_call_tidy (st : Wait.wstate) :
  Forall (own_call pids) (Wait.wtrace st) ->
  Forall (own_call pids) (Wait.wtrace (Wait.tidy pid_r st)).
Proof.
  intros H. apply own_call_wlog; [|exact H].
  repeat constructor; apply Hr.
Qed.

Hypothesis Hk : 0 < pid_k /\ pid_k ∈ pids.

Lemma own_call_drain (st : Wait.wstate) :
  Forall (own_call pids) (Wait.wtrace st) ->
  Forall (own_call pids) (Wait.wtrace (Wait.drain pid_r pid_k st)).
Proof.
  intros H. apply own_call_tidy, own_call_wlog; [|exact H].
  repeat constructor; apply Hk.
Qed.

Lemma own_call_monitor (obs : list Wait.wobs) :
  forall st,
    Forall (own_call pids) (Wait.wtrace st) ->
    Forall (own_call pids)
      (Wait.wtrace (wait_state (Wait.monitor b max_ops pid_r pid_k obs st))).
Proof.
  induction obs as [|o obs IH]; intros st H; cbn [Wait.monitor wait_state];
    [exact H|].
  pose proof (own_call_wbody o st H) as Hb.
  destruct (Wait.wbody b pid_r o st) as [st'|st'].
  - destruct (keep_stressing _ _ _); [apply IH, Hb|].
    cbn [wait_state]. apply own_call_drain, Hb.
  - cbn [wait_state]. apply own_call_drain, Hb.
Qed.

End WaiterCalls.

(** X14: the process that called [stress_wait] signals and waits for its
    own two children only: every [kill], [waitpid] and [waitid] it issues
    names a positive pid that one of its [fork]s returned, never -1 or 0,
    and the only signal it sends is SIGKILL. *)
Theorem waiter_calls_own_children (b : Wait.build) (max_ops counter0 : Z)
    (forks_r forks_k : list Spawn.fork_obs) (obs : list Wait.wobs)
    (r : Wait.wresult) :
  stress_wait_spawning b max_ops counter0 forks_r forks_k obs = AsWaiter r ->
  Forall (own_call (forked_pids forks_r ++ forked_pids forks_k))
         (Wait.wtrace (wait_state r)).
Proof.
  unfold stress_wait_spawning.
  destruct (fst (Spawn.spawn 0 forks_r [])) as [pid_r| |] eqn:Er; try discriminate.
  apply spawn_parent_pid in Er as [->|[Hr Hrin]].
  { cbn. intros [= <-]. cbn. repeat constructor. }
  destruct (Z.ltb_spec pid_r 0) as [?|_]; [lia|].
  destruct (fst (Spawn.spawn pid_r forks_k [])) as [pid_k| |] eqn:Ek; try discriminate.
  intros [= <-].
  assert (Hr' : 0 < pid_r /\ pid_r ∈ forked_pids forks_r ++ forked_pids forks_k).
  { split; [exact Hr|]. apply elem_of_app. left. exact Hrin. }
  assert (H0 : Forall (own_call (forked_pids forks_r ++ forked_pids forks_k))
                 [Wait.WDbg "waiter started"]) by repeat constructor.
  unfold Wait.stress_wait.
  destruct (Z.ltb_spec pid_r 0) as [?|_]; [lia|].
  apply spawn_parent_pid in Ek as [->|[Hk Hkin]].
  - cbn [Z.ltb Z.compare wait_state]. apply own_call_tidy; [exact Hr'|].
    apply own_call_wlog; [repeat constructor|exact H0].
  - destruct (Z.ltb_spec pid_k 0) as [?|_]; [lia|].
    apply own_call_monitor; [exact Hr'| |exact H0].
    split; [exact Hk|]. apply elem_of_app. right. exact Hkin.
Qed.

Lemma waiter_calls_own_children_witness :
  let eagain := Spawn.mk_fork_obs (-1) EAGAIN true in
  let o := Wait.mk_wobs 0 true (Wait.mk_siginfo 17 6) true false in
  exists r, stress_wait_spawning Wait.build_as_written 0 0
              [eagain; Spawn.mk_fork_obs 50 0 true] [Spawn.mk_fork_obs 51 0 true] [o]
            = AsWaiter r
            /\ Forall (own_call [50; 51]) (Wait.wtrace (wait_state r)).
Proof.
  intros eagain o. eexists. split; [vm_compute; reflexivity|].
  apply (waiter_calls_own_children Wait.build_as_written 0 0
           [eagain; Spawn.mk_fork_obs 50 0 true] [Spawn.mk_fork_obs 51 0 true] [o]).
  vm_compute. reflexivity.
Defined.

Lemma wkills_app (l1 l2 : list Wait.wevent) :
  List.filter is_wkill (l1 ++ l2) = List.filter is_wkill l1 ++ List.filter is_wkill l2.
Proof. apply List.filter_app. Qed.

Lemma count_no_kill (b : Wait.build) (status : Z) (st : Wait.wstate) :
  List.filter is_wkill (Wait.wtrace (Wait.count b status st))
  = List.filter is_wkill (Wait.wtrace st).
Proof.
  destruct (count_trace b status st) as [[_ ->]|[_ ->]]; [reflexivity|].
  rewrite wkills_app. apply app_nil_r.
Qed.

Lemma wbody_no_kill (b : Wait.build) (pid_r : Z) (o : Wait.wobs) (st : Wait.wstate) :
  match Wait.wbody b pid_r o st with
  | inl st' | inr st' =>
      List.filter is_wkill (Wait.wtrace st') = List.filter is_wkill (Wait.wtrace st)
  end.
Proof.
  unfold Wait.wbody.
  destruct (negb (Wait.wo_run1 o)).
  { cbn. rewrite wkills_app. apply app_nil_r. }
  destruct (Wait.have_waitid b).
  - destruct (negb (Wait.wo_run2 o)).
    + cbn [Wait.wlog Wait.wtrace]. rewrite wkills_app, count_no_kill.
      cbn [Wait.wlog Wait.wtrace]. rewrite wkills_app. cbn. rewrite !app_nil_r. reflexivity.
    + rewrite count_no_kill. cbn [Wait.wlog Wait.wtrace].
      rewrite wkills_app, count_no_kill.
      cbn [Wait.wlog Wait.wtrace]. rewrite wkills_app. cbn. rewrite !app_nil_r. reflexivity.
  - rewrite count_no_kill. cbn. rewrite wkills_app. apply app_nil_r.
Qed.

Lemma monitor_teardown (b : Wait.build) (max_ops pid_r pid_k : Z)
    (obs : list Wait.wobs) :
  forall st code st',
    0 <= pid_k ->
    List.filter is_wkill (Wait.wtrace st) = [] ->
    Wait.monitor b max_ops pid_r pid_k obs st = Wait.WReturned code st' ->
    code = EXIT_SUCCESS
    /\ exists tr, Wait.wtrace st' = tr ++ teardown pid_r pid_k
                  /\ List.filter is_wkill tr = [].
Proof.
  assert (Hd : forall st, 0 <= pid_k -> List.filter is_wkill (Wait.wtrace st) = [] ->
                 exists tr, Wait.wtrace (Wait.drain pid_r pid_k st)
                            = tr ++ teardown pid_r pid_k
                            /\ List.filter is_wkill tr = []).
  { intros st Hk H. exists (Wait.wtrace st). split; [|exact H].
    unfold teardown. destruct (Z.ltb_spec pid_k 0) as [?|_]; [lia|].
    cbn. rewrite <- app_assoc. reflexivity. }
  induction obs as [|o obs IH]; intros st code st' Hk H; cbn [Wait.monitor];
    [discriminate|].
  pose proof (wbody_no_kill b pid_r o st) as Hb.
  destruct (Wait.wbody b pid_r o st) as [st1|st1]; rewrite H in Hb.
  - destruct (keep_stressing _ _ _); [apply IH; assumption|].
    intros [= <- <-]. split; [reflexivity|]. apply Hd; assumption.
  - intros [= <- <-]. split; [reflexivity|]. apply Hd; assumption.
Qed.

Lemma monitor_not_exited (b : Wait.build) (max_ops pid_r pid_k : Z)
    (obs : list Wait.wobs) :
  forall st code st',
    Wait.monitor b max_ops pid_r pid_k obs st <> Wait.WExited code st'.
Proof.
  induction obs as [|o obs IH]; intros st code st'; cbn [Wait.monitor];
    [discriminate|].
  destruct (Wait.wbody b pid_r o st) as [st1|st1]; [|discriminate].
  destruct (keep_stressing _ _ _); [apply IH|discriminate].
Qed.

(** X15: however [stress_wait] returns, it has killed and reaped what it
    spawned, in a fixed order and at the very end: the killer first (when
    there is one), then the runner, each SIGKILL followed by a [waitpid]
    on the same pid, with no [kill] before.  It returns EXIT_FAILURE
    exactly when the killer could not be spawned; and it leaves through
    [exit] only when the runner could not be, having signalled nobody. *)
Theorem wait_teardown (b : Wait.build) (max_ops counter0 pid_r pid_k : Z)
    (obs : list Wait.wobs) (code : Z) (st : Wait.wstate) :
  (Wait.stress_wait b max_ops counter0 pid_r pid_k obs = Wait.WReturned code st ->
   0 <= pid_r
   /\ code = (if pid_k <? 0 then EXIT_FAILURE else EXIT_SUCCESS)
   /\ exists tr, Wait.wtrace st = tr ++ teardown pid_r pid_k
                 /\ List.filter is_wkill tr = [])
  /\ (Wait.stress_wait b max_ops counter0 pid_r pid_k obs = Wait.WExited code st ->
      pid_r < 0 /\ code = EXIT_FAILURE
      /\ Forall (fun e => wait_target e = None) (Wait.wtrace st)).
Proof.
  unfold Wait.stress_wait.
  destruct (Z.ltb_spec pid_r 0) as [Hr|Hr].
  - split; [discriminate|]. intros [= <- <-].
    split; [exact Hr|]. split; [reflexivity|]. cbn. repeat constructor.
  - destruct (Z.ltb_spec pid_k 0) as [Hk|Hk].
    + split; [|discriminate]. intros [= <- <-].
      split; [exact Hr|]. split; [reflexivity|].
      exists [Wait.WDbg "waiter started"; Wait.WDbg "fork"].
      split; [|reflexivity].
      unfold teardown. destruct (Z.ltb_spec pid_k 0) as [_|?]; [|lia]. reflexivity.
    + split.
      * intros H. split; [exact Hr|].
        apply monitor_teardown in H as [-> H]; [|exact Hk|reflexivity].
        split; [reflexivity|exact H].
      * intros H. apply monitor_not_exited in H. contradiction.
Qed.

Lemma wait_teardown_witness :
  let o := Wait.mk_wobs 0 true (Wait.mk_siginfo 17 6) true false in
  exists st tr,
    Wait.stress_wait Wait.build_as_written 0 0 50 51 [o]
    = Wait.WReturned EXIT_SUCCESS st
    /\ Wait.wtrace st
       = tr ++ [Wait.WKill 51 SIGKILL; Wait.WWaitpid 51 false;
                Wait.WKill 50 SIGKILL; Wait.WWaitpid 50 false].
Proof.
  intros o. eexists.
  assert (E : Wait.stress_wait Wait.build_as_written 0 0 50 51 [o]
              = Wait.WReturned EXIT_SUCCESS
                  (wait_state (Wait.stress_wait Wait.build_as_written 0 0 50 51 [o])))
    by (vm_compute; reflexivity).
  destruct (wait_teardown Wait.build_as_written 0 0 50 51 [o] EXIT_SUCCESS
              (wait_state (Wait.stress_wait Wait.build_as_written 0 0 50 51 [o])))
    as [H _].
  destruct (H E) as (_ & _ & tr & Htr & _).
  exists tr. split; [exact E|exact Htr].
Defined.

Lemma count_counter (b : Wait.build) (status : Z) (st : Wait.wstate) :
  0 <= Wait.wcounter st < 2 ^ 64 - 1 ->
  let st' := Wait.count b status st in
  Wait.wcounter st <= Wait.wcounter st' <= Wait.wcounter st + 1
  /\ Wait.wcounter st' - Wait.wcounter st
     = Z.of_nat (Wait.incs (Wait.wtrace st')) - Z.of_nat (Wait.incs (Wait.wtrace st)).
Proof.
  intros Hc st'. subst st'.
  destruct (count_trace b status st) as [[-> ->]|[-> ->]]; [lia|].
  rewrite inc_counter_succ by exact Hc. rewrite incs_app. cbn. lia.
Qed.

Lemma wbody_counter (b : Wait.build) (pid_r : Z) (o : Wait.wobs) (st : Wait.wstate) :
  0 <= Wait.wcounter st < 2 ^ 64 - 2 ->
  match Wait.wbody b pid_r o st with
  | inl st' | inr st' =>
      Wait.wcounter st <= Wait.wcounter st'
        <= Wait.wcounter st + (if Wait.have_waitid b then 2 else 1)
      /\ Wait.wcounter st' - Wait.wcounter st
         = Z.of_nat (Wait.incs (Wait.wtrace st')) - Z.of_nat (Wait.incs (Wait.wtrace st))
  end.
Proof.
  intros Hc. unfold Wait.wbody.
  set (st0 := Wait.wlog [Wait.WWaitpid pid_r (Wait.def_WCONINUED b)] st).
  assert (H0 : Wait.wcounter st0 = Wait.wcounter st
               /\ Wait.incs (Wait.wtrace st0) = Wait.incs (Wait.wtrace st)).
  { subst st0. cbn [Wait.wlog Wait.wcounter Wait.wtrace]. rewrite incs_app. cbn.
    split; [reflexivity|lia]. }
  destruct H0 as [H0 H0'].
  destruct (negb (Wait.wo_run1 o)).
  { rewrite H0, H0'. destruct (Wait.have_waitid b); lia. }
  pose proof (count_counter b (Wait.wo_status o) st0) as H1.
  cbn zeta in H1. rewrite H0, H0' in H1. specialize (H1 ltac:(lia)).
  set (st1 := Wait.count b (Wait.wo_status o) st0) in *.
  destruct (Wait.have_waitid b); [|lia].
  set (st2 := Wait.wlog [Wait.WWaitid pid_r (Wait.def_WCONINUED b)] st1).
  assert (H2 : Wait.wcounter st2 = Wait.wcounter st1
               /\ Wait.incs (Wait.wtrace st2) = Wait.incs (Wait.wtrace st1)).
  { subst st2. cbn [Wait.wlog Wait.wcounter Wait.wtrace]. rewrite incs_app. cbn.
    split; [reflexivity|lia]. }
  destruct H2 as [H2 H2'].
  destruct (negb (Wait.wo_run2 o)).
  { rewrite H2, H2'. lia. }
  pose proof (count_counter b (Wait.wo_status o) st2) as H3.
  cbn zeta in H3. rewrite H2, H2' in H3. specialize (H3 ltac:(lia)). lia.
Qed.

Lemma monitor_counter (b : Wait.build) (max_ops pid_r pid_k : Z)
    (obs : list Wait.wobs) :
  forall st,
    0 <= Wait.wcounter st < max_ops -> max_ops < 2 ^ 64 - 2 ->
    let st' := wait_state (Wait.monitor b max_ops pid_r pid_k obs st) in
    Wait.wcounter st <= Wait.wcounter st'
      <= max_ops + (if Wait.have_waitid b then 1 else 0)
    /\ Wait.wcounter st' - Wait.wcounter st
       = Z.of_nat (Wait.incs (Wait.wtrace st')) - Z.of_nat (Wait.incs (Wait.wtrace st)).
Proof.
  assert (Hd : forall st, Wait.wcounter (Wait.drain pid_r pid_k st) = Wait.wcounter st
                 /\ Wait.incs (Wait.wtrace (Wait.drain pid_r pid_k st))
                    = Wait.incs (Wait.wtrace st)).
  { intros st. unfold Wait.drain, Wait.tidy.
    cbn [Wait.wlog Wait.wcounter Wait.wtrace]. rewrite !incs_app.
    split; [reflexivity|]. cbn. lia. }
  induction obs as [|o obs IH]; intros st Hc Hm; cbn [Wait.monitor wait_state].
  - destruct (Wait.have_waitid b); lia.
  - pose proof (wbody_counter b pid_r o st ltac:(lia)) as Hb.
    destruct (Wait.wbody b pid_r o st) as [st1|st1].
    + unfold keep_stressing. destruct (Wait.wo_run3 o); cbn [andb].
      * destruct (Z.eqb_spec max_ops 0) as [?|_]; [lia|]. cbn [orb].
        destruct (Z.ltb_spec (Wait.wcounter st1) max_ops) as [Hlt|Hge].
        -- specialize (IH st1 ltac:(lia) Hm). cbn zeta in IH. lia.
        -- cbn [wait_state]. destruct (Hd st1) as [-> ->].
           destruct (Wait.have_waitid b); lia.
      * cbn [wait_state]. destruct (Hd st1) as [-> ->].
        destruct (Wait.have_waitid b); lia.
    + cbn [wait_state]. destruct (Hd st1) as [-> ->].
      destruct (Wait.have_waitid b); lia.
Qed.

(** X16: [stress_wait] counts once per [inc_counter] call and tests its
    budget only at the end of a pass, which may have counted twice: with a
    counter that starts below the budget it stops at most one past the
    budget, and never past it in a build without [waitid]. *)
Theorem wait_budget_overshoot (b : Wait.build) (max_ops counter0 pid_r pid_k : Z)
    (obs : list Wait.wobs) :
  0 <= counter0 < max_ops -> max_ops < 2 ^ 64 - 2 ->
  let st := wait_state (Wait.stress_wait b max_ops counter0 pid_r pid_k obs) in
  counter0 <= Wait.wcounter st <= max_ops + (if Wait.have_waitid b then 1 else 0)
  /\ Wait.wcounter st = counter0 + Z.of_nat (Wait.incs (Wait.wtrace st)).
Proof.
  intros Hc Hm. unfold Wait.stress_wait.
  destruct (pid_r <? 0).
  { cbn. destruct (Wait.have_waitid b); lia. }
  destruct (pid_k <? 0).
  { cbn. destruct (Wait.have_waitid b); lia. }
  pose proof (monitor_counter b max_ops pid_r pid_k obs
                (Wait.mk_wstate counter0 [Wait.WDbg "waiter started"])) as H.
  cbn [Wait.wcounter Wait.wtrace] in H. specialize (H Hc Hm). cbn zeta in H.
  change (Wait.incs [Wait.WDbg "waiter started"]) with 0%nat in H. lia.
Qed.

Lemma wait_budget_overshoot_witness :
  let o := Wait.mk_wobs 0 true (Wait.mk_siginfo 17 6) true true in
  let st := wait_state (Wait.stress_wait Wait.build_as_written 3 0 50 51 [o; o; o]) in
  Wait.wcounter st = 4 /\ Wait.incs (Wait.wtrace st) = 4%nat.
Proof.
  intros o st.
  destruct (wait_budget_overshoot Wait.build_as_written 3 0 50 51 [o; o; o])
    as [_ H]; [lia|lia|].
  fold st in H. split; [|vm_compute; reflexivity].
  rewrite H. vm_compute. reflexivity.
Defined.

(** ** [stress_iosync] and [stress_cpu]: the bogo-operation loop *)

Lemma bogo_loop_below (k ops : Z) (passes : nat) :
  forall st,
    0 <= b_counter st < ops -> ops < 2 ^ 64 ->
    bogo_loop k ops passes st
    = if ops - b_counter st <=? Z.of_nat passes
      then BogoReturned (mk_bogo ops (b_calls st + (ops - b_counter st) * k))
      else BogoSpinning (mk_bogo (b_counter st + Z.of_nat passes)
                                 (b_calls st + Z.of_nat passes * k)).
Proof.
  induction passes as [|n IH]; intros [c calls] Hc Hm; cbn [b_counter b_calls] in *.
  - cbn [bogo_loop]. destruct (Z.leb_spec (ops - c) (Z.of_nat 0)) as [?|_]; [lia|].
    f_equal. f_equal; lia.
  - cbn [bogo_loop b_counter b_calls].
    rewrite to_uint64_small by lia.
    unfold c_true, c_not.
    destruct (Z.eqb_spec ops 0) as [?|_]; [lia|]. cbn [Z.eqb negb orb].
    destruct (Z.ltb_spec (c + 1) ops) as [Hlt|Hge].
    + rewrite IH by (cbn [b_counter]; lia). cbn [b_counter b_calls].
      destruct (Z.leb_spec (ops - (c + 1)) (Z.of_nat n)) as [H1|H1];
        destruct (Z.leb_spec (ops - c) (Z.of_nat (S n))) as [H2|H2]; try lia;
        f_equal; f_equal; lia.
    + destruct (Z.leb_spec (ops - c) (Z.of_nat (S n))) as [_|?]; [|lia].
      assert (ops = c + 1) as -> by lia.
      f_equal. f_equal. lia.
Qed.

Lemma bogo_loop_unlimited (k : Z) (passes : nat) :
  forall st,
    0 <= b_counter st < 2 ^ 64 ->
    bogo_loop k 0 passes st
    = BogoSpinning (mk_bogo (to_uint64 (b_counter st + Z.of_nat passes))
                            (b_calls st + Z.of_nat passes * k)).
Proof.
  induction passes as [|n IH]; intros [c calls] Hc; cbn [b_counter b_calls] in *.
  - cbn [bogo_loop]. rewrite to_uint64_small by lia. f_equal. f_equal; lia.
  - cbn [bogo_loop b_counter b_calls]. cbn [c_not Z.eqb c_true negb orb].
    rewrite IH; cbn [b_counter b_calls].
    + f_equal. f_equal; [|lia].
      unfold to_uint64. rewrite Zplus_mod_idemp_l. f_equal. lia.
    + unfold to_uint64. apply Z.mod_pos_bound. lia.
Qed.

Lemma bogo_loop_once (k ops : Z) (passes : nat) (st : bogo_state) :
  0 < ops <= b_counter st -> b_counter st < 2 ^ 64 - 1 ->
  bogo_loop k ops (S passes) st
  = BogoReturned (mk_bogo (b_counter st + 1) (b_calls st + k)).
Proof.
  intros Hc Hm. cbn [bogo_loop b_counter b_calls].
  rewrite to_uint64_small by lia. unfold c_true, c_not.
  destruct (Z.eqb_spec ops 0) as [?|_]; [lia|]. cbn [Z.eqb negb orb].
  destruct (Z.ltb_spec (b_counter st + 1) ops) as [?|_]; [lia|]. reflexivity.
Qed.

(** X17: a cpu or iosync worker whose counter starts below its budget
    makes exactly as many passes as are missing, each pass one [sync()]
    or 16384 [rand()]s, and returns with the counter at the budget; with
    fewer passes to run it is still in its loop, one count per pass made.
    The test comes after the body: a worker that finds its counter at or
    past the budget still performs one operation and counts it. *)
Theorem bogo_budget_exact (o : options) (passes : nat) (counter : Z) :
  (0 <= counter < opt_iosync_ops o -> opt_iosync_ops o < 2 ^ 64 ->
   stress_iosync o passes counter
   = if opt_iosync_ops o - counter <=? Z.of_nat passes
     then BogoReturned (mk_bogo (opt_iosync_ops o) (opt_iosync_ops o - counter))
     else BogoSpinning (mk_bogo (counter + Z.of_nat passes) (Z.of_nat passes)))
  /\ (0 <= counter < opt_cpu_ops o -> opt_cpu_ops o < 2 ^ 64 ->
      stress_cpu o passes counter
      = if opt_cpu_ops o - counter <=? Z.of_nat passes
        then BogoReturned (mk_bogo (opt_cpu_ops o)
                                   ((opt_cpu_ops o - counter) * 16384))
        else BogoSpinning (mk_bogo (counter + Z.of_nat passes)
                                   (Z.of_nat passes * 16384)))
  /\ (0 < opt_iosync_ops o <= counter -> counter < 2 ^ 64 - 1 ->
      stress_iosync o (S passes) counter = BogoReturned (mk_bogo (counter + 1) 1))
  /\ (0 < opt_cpu_ops o <= counter -> counter < 2 ^ 64 - 1 ->
      stress_cpu o (S passes) counter
      = BogoReturned (mk_bogo (counter + 1) 16384)).
Proof.
  split; [|split; [|split]]; intros Hc Hm.
  - unfold stress_iosync. rewrite bogo_loop_below by (cbn; lia).
    cbn [b_counter b_calls]. destruct (_ <=? _); f_equal; f_equal; lia.
  - unfold stress_cpu. rewrite bogo_loop_below by (cbn; lia).
    cbn [b_counter b_calls]. destruct (_ <=? _); f_equal; f_equal; lia.
  - unfold stress_iosync. rewrite bogo_loop_once by (cbn; lia). reflexivity.
  - unfold stress_cpu. rewrite bogo_loop_once by (cbn; lia). reflexivity.
Qed.

Lemma bogo_budget_exact_witness :
  let o := mk_options (Z.lor PR_ERR PR_INF) 60 0 3 2 0 0 [1; 1; 0; 0] in
  stress_cpu o 5 0 = BogoReturned (mk_bogo 3 49152)
  /\ stress_cpu o 2 0 = BogoSpinning (mk_bogo 2 32768)
  /\ stress_iosync o 5 0 = BogoReturned (mk_bogo 2 2)
  /\ stress_cpu o 1 7 = BogoReturned (mk_bogo 8 16384).
Proof.
  intros o. destruct (bogo_budget_exact o 5 0) as (Hi & Hc & _).
  destruct (bogo_budget_exact o 2 0) as (_ & Hc2 & _).
  destruct (bogo_budget_exact o 0 7) as (_ & _ & _ & Hc3).
  split; [|split; [|split]].
  - rewrite Hc; [reflexivity|cbn; lia|cbn; lia].
  - rewrite Hc2; [reflexivity|cbn; lia|cbn; lia].
  - rewrite Hi; [reflexivity|cbn; lia|cbn; lia].
  - apply Hc3; cbn; lia.
Defined.

(** X18: a total budget smaller than the number of workers is no budget:
    the division leaves each worker a budget of zero, which the loop test
    reads as "no limit", so a cpu or iosync worker of such a run never
    returns, whatever number of passes it is given. *)
Theorem small_budget_never_stops (o : options) (passes : nat) (counter : Z) :
  0 <= counter < 2 ^ 64 ->
  (check_value (num_procs o !!! STRESS_IOSYNC) = true ->
   0 <= opt_iosync_ops o < num_procs o !!! STRESS_IOSYNC ->
   stress_iosync (div_ops o) passes counter
   = BogoSpinning (mk_bogo (to_uint64 (counter + Z.of_nat passes)) (Z.of_nat passes)))
  /\ (check_value (num_procs o !!! STRESS_CPU) = true ->
      0 <= opt_cpu_ops o < num_procs o !!! STRESS_CPU ->
      stress_cpu (div_ops o) passes counter
      = BogoSpinning (mk_bogo (to_uint64 (counter + Z.of_nat passes))
                              (Z.of_nat passes * 16384))).
Proof.
  intros Hc.
  assert (Hdiv : forall opt n, check_value n = true -> 0 <= opt < n ->
                               DIV_OPS_BY_PROCS opt n = 0).
  { intros opt n Hn Ho. apply check_value_range in Hn.
    rewrite DIV_OPS_BY_PROCS_pos by lia. apply Z.div_small. lia. }
  split; intros Hn Ho.
  - unfold stress_iosync. cbn [div_ops opt_iosync_ops]. rewrite Hdiv by assumption.
    rewrite bogo_loop_unlimited by (cbn; lia). cbn [b_counter b_calls].
    f_equal. f_equal. lia.
  - unfold stress_cpu. cbn [div_ops opt_cpu_ops]. rewrite Hdiv by assumption.
    rewrite bogo_loop_unlimited by (cbn; lia). cbn [b_counter b_calls].
    f_equal.
Qed.

Lemma small_budget_never_stops_witness :
  let o := mk_options (Z.lor PR_ERR PR_INF) 60 0 1000 0 0 0 [0; 1024; 0; 0] in
  opt_cpu_ops (div_ops o) = 0
  /\ stress_cpu (div_ops o) 2000 0 = BogoSpinning (mk_bogo 2000 32768000).
Proof.
  intros o. split; [reflexivity|].
  destruct (small_budget_never_stops o 2000 0) as [_ H]; [lia|].
  rewrite H; [reflexivity|reflexivity|cbn; lia].
Defined.


(** ** [stress_vm] *)

Lemma mmaps_app (l1 l2 : list vm_event) : mmaps (l1 ++ l2) = (mmaps l1 + mmaps l2)%nat.
Proof. unfold mmaps. rewrite List.filter_app, length_app. reflexivity. Qed.

Lemma munmaps_app (l1 l2 : list vm_event) :
  munmaps (l1 ++ l2) = (munmaps l1 + munmaps l2)%nat.
Proof. unfold munmaps. rewrite List.filter_app, length_app. reflexivity. Qed.

Ltac vm_counts :=
  cbn [vm_log vm_final vm_buf vm_val vm_maps vm_counter vm_trace];
  rewrite ?mmaps_app, ?munmaps_app;
  repeat match goal with
         | |- _ /\ _ => split
         | |- forall _, _ => intro
         | |- _ <> _ => discriminate
         | |- _ <> _ => assumption
         | |- _ <> _ => congruence
         | |- @eq nat _ _ => cbn; lia
         | |- _ => reflexivity
         end.

Lemma vm_work_shape (o : options) (z : sizes) (ob : vm_obs) (gray : Z)
    (st : vm_state) :
  match vm_work o z ob gray st with
  | inl st' =>
      vm_buf st' = vm_buf st /\ vm_val st' = vm_val st /\ vm_maps st' = vm_maps st
      /\ vm_counter st' = to_uint64 (vm_counter st + 1)
      /\ opt_vm_hang z <> 0
      /\ mmaps (vm_trace st') = mmaps (vm_trace st)
      /\ munmaps (vm_trace st')
         = (munmaps (vm_trace st) + if vm_keep o then 0 else 1)%nat
  | inr r =>
      vm_buf (vm_final r) = vm_buf st /\ vm_val (vm_final r) = vm_val st
      /\ vm_maps (vm_final r) = vm_maps st
      /\ vm_counter (vm_final r) = vm_counter st
      /\ (forall st', r <> VmExited 0 st') /\ (forall st', r <> VmSpinning st')
      /\ mmaps (vm_trace (vm_final r)) = mmaps (vm_trace st)
      /\ munmaps (vm_trace (vm_final r)) = munmaps (vm_trace st)
      /\ (forall st' n, r = VmInvalidStore st' -> vm_buf st <> Mapped n)
  end.
Proof.
  unfold vm_work.
  destruct (opt_vm_bytes z <=? 0).
  - destruct (Z.eqb_spec (opt_vm_hang z) 0) as [Hh|Hh]; [vm_counts|].
    destruct (opt_vm_hang z =? DEFAULT_VM_HANG); destruct (vm_keep o); vm_counts.
  - destruct (vm_buf st) as [| |n] eqn:Eb; [vm_counts; rewrite Eb; reflexivity..|].
    destruct (opt_vm_stride z =? 0); [vm_counts; rewrite Eb; reflexivity|].
    destruct (Z.eqb_spec (opt_vm_hang z) 0) as [Hh|Hh]; [vm_counts; rewrite Eb; reflexivity|].
    destruct (opt_vm_hang z =? DEFAULT_VM_HANG); destruct (vo_readback ob) as [[off got]|];
      destruct (vm_keep o); vm_counts; rewrite ?Eb; try reflexivity.
Qed.

Lemma vm_pass_shape (o : options) (z : sizes) (ob : vm_obs) (st : vm_state) :
  let called := negb (vm_keep o) || is_null_buf (vm_buf st) in
  let got := called && vo_mmap_ok ob in
  match vm_pass o z ob st with
  | inl st' =>
      vm_val st' = to_uint8 (vm_val st + 1)
      /\ vm_maps st' = (vm_maps st + if got then 1 else 0)%nat
      /\ mmaps (vm_trace st') = (mmaps (vm_trace st) + if called then 1 else 0)%nat
      /\ (called = true -> vm_buf st' <> NullBuf)
      /\ (called = false -> vm_buf st' = vm_buf st)
      /\ ((called && negb (vo_mmap_ok ob) = true
           /\ vm_counter st' = vm_counter st /\ vm_buf st' = MapFailed
           /\ munmaps (vm_trace st') = munmaps (vm_trace st))
          \/ (called && negb (vo_mmap_ok ob) = false
              /\ vm_counter st' = to_uint64 (vm_counter st + 1)
              /\ opt_vm_hang z <> 0
              /\ munmaps (vm_trace st')
                 = (munmaps (vm_trace st) + if vm_keep o then 0 else 1)%nat))
  | inr r =>
      vm_maps (vm_final r) = (vm_maps st + if got then 1 else 0)%nat
      /\ mmaps (vm_trace (vm_final r))
         = (mmaps (vm_trace st) + if called then 1 else 0)%nat
      /\ vm_counter (vm_final r) = vm_counter st
      /\ munmaps (vm_trace (vm_final r)) = munmaps (vm_trace st)
      /\ (forall st', r <> VmExited 0 st') /\ (forall st', r <> VmSpinning st')
      /\ ((exists st', r = VmInvalidStore st') -> called = false)
      /\ (vm_keep o = false -> got = true)
  end.
Proof.
  intros called got. subst got called. unfold vm_pass.
  cbn [vm_buf vm_val vm_counter vm_maps vm_trace].
  destruct (vm_keep o) eqn:Ek; cbn [negb orb andb].
  - destruct (is_null_buf (vm_buf st)) eqn:En; cbn [andb].
    + destruct (vo_mmap_ok ob); cbn [negb andb].
      * match goal with |- context [vm_work o z ob ?g ?s] =>
          pose proof (vm_work_shape o z ob g s) as H;
          destruct (vm_work o z ob g s) as [st'|r] end;
          cbn [vm_buf vm_val vm_counter vm_maps vm_trace] in H; rewrite ?Ek in H.
        -- destruct H as (Hb & Hv & Hm & Hc & Hh & H1 & H2).
           rewrite mmaps_app, munmaps_app in *. cbn in H1, H2.
           repeat split; try assumption; try lia; try congruence.
           all: try (right; repeat split; try assumption; try reflexivity; lia).
        -- destruct H as (Hb & Hv & Hm & Hc & Hx & Hs & H1 & H2 & Hi).
           rewrite mmaps_app, munmaps_app in *. cbn in H1, H2.
           repeat split; try assumption; try lia; try discriminate.
           all: try (intros [st' E]; exfalso; eapply Hi; [exact E|reflexivity]).
      * vm_counts; try discriminate. left. vm_counts.
    + match goal with |- context [vm_work o z ob ?g ?s] =>
        pose proof (vm_work_shape o z ob g s) as H;
        destruct (vm_work o z ob g s) as [st'|r] end;
        cbn [vm_buf vm_val vm_counter vm_maps vm_trace] in H; rewrite ?Ek in H.
      * destruct H as (Hb & Hv & Hm & Hc & Hh & H1 & H2).
        repeat split; try assumption; try lia; try discriminate.
        all: try (right; repeat split; try reflexivity; assumption).
        intros _. exact Hb.
      * destruct H as (Hb & Hv & Hm & Hc & Hx & Hs & H1 & H2 & Hi).
        repeat split; try assumption; try lia; try discriminate.
  - destruct (vo_mmap_ok ob); cbn [negb andb].
    + match goal with |- context [vm_work o z ob ?g ?s] =>
        pose proof (vm_work_shape o z ob g s) as H;
        destruct (vm_work o z ob g s) as [st'|r] end;
        cbn [vm_buf vm_val vm_counter vm_maps vm_trace] in H; rewrite ?Ek in H.
      * destruct H as (Hb & Hv & Hm & Hc & Hh & H1 & H2).
        rewrite mmaps_app, munmaps_app in *. cbn in H1, H2.
        repeat split; try assumption; try lia; try congruence.
        all: try (right; repeat split; try assumption; try reflexivity; lia).
      * destruct H as (Hb & Hv & Hm & Hc & Hx & Hs & H1 & H2 & Hi).
        rewrite mmaps_app, munmaps_app in *. cbn in H1, H2.
        repeat split; try assumption; try lia; try discriminate.
        all: try (intros [st' E]; exfalso; eapply Hi; [exact E|reflexivity]).
    + vm_counts; try discriminate. left. vm_counts.
Qed.

Lemma vm_loop_balanced (o : options) (z : sizes) (obs : list vm_obs) :
  vm_keep o = false ->
  forall st,
    vm_maps st = munmaps (vm_trace st) ->
    let r := vm_loop o z obs st in
    (munmaps (vm_trace (vm_final r)) <= vm_maps (vm_final r)
       <= S (munmaps (vm_trace (vm_final r))))%nat
    /\ (vm_settled r = true -> vm_maps (vm_final r) = munmaps (vm_trace (vm_final r)))
    /\ (forall st', r <> VmInvalidStore st').
Proof.
  intros Ek. induction obs as [|ob obs IH]; intros st HJ; cbn [vm_loop].
  - cbn. split; [lia|]. split; [intros _; exact HJ|discriminate].
  - pose proof (vm_pass_shape o z ob st) as H. cbn zeta in H.
    rewrite Ek in H. cbn [negb orb andb] in H.
    destruct (vm_pass o z ob st) as [st1|r].
    + destruct H as (_ & Hm & _ & _ & _ & Hd).
      assert (HJ1 : vm_maps st1 = munmaps (vm_trace st1)).
      { destruct Hd as [(Hf & _ & _ & Hu)|(Hf & _ & _ & Hu)].
        - destruct (vo_mmap_ok ob); [discriminate Hf|lia].
        - destruct (vo_mmap_ok ob); [lia|discriminate Hf]. }
      destruct (_ || _); [apply IH, HJ1|].
      cbn. split; [lia|]. split; [intros _; exact HJ1|discriminate].
    + destruct H as (Hm & _ & _ & Hu & Hx & Hs & Hi & Hg).
      specialize (Hg eq_refl). rewrite Hg in Hm.
      split; [lia|]. split.
      * intros Hset. destruct r as [code st'| | | |]; try discriminate Hset.
        -- cbn in Hset. apply Z.eqb_eq in Hset. subst code. exfalso. eapply Hx. reflexivity.
        -- exfalso. eapply Hs. reflexivity.
      * intros st' ->. assert (true = false); [|discriminate].
        apply Hi. eexists. reflexivity.
Qed.

Lemma vm_loop_keep (o : options) (z : sizes) (obs : list vm_obs) :
  vm_keep o = true ->
  forall st,
    munmaps (vm_trace st) = 0%nat ->
    (mmaps (vm_trace st) + (if is_null_buf (vm_buf st) then 1 else 0) <= 1)%nat ->
    let st' := vm_final (vm_loop o z obs st) in
    (mmaps (vm_trace st') <= 1)%nat /\ munmaps (vm_trace st') = 0%nat.
Proof.
  intros Ek. induction obs as [|ob obs IH]; intros st Hu Hn; cbn [vm_loop].
  - cbn. split; [destruct (is_null_buf _); lia|exact Hu].
  - pose proof (vm_pass_shape o z ob st) as H. cbn zeta in H.
    rewrite Ek in H. cbn [negb orb andb] in H.
    destruct (vm_pass o z ob st) as [st1|r].
    + destruct H as (_ & _ & Hmm & Hnn & Hsame & Hd).
      assert (Hu1 : munmaps (vm_trace st1) = 0%nat).
      { destruct Hd as [(_ & _ & _ & H)|(_ & _ & _ & H)]; lia. }
      assert (Hn1 : (mmaps (vm_trace st1)
                     + (if is_null_buf (vm_buf st1) then 1 else 0) <= 1)%nat).
      { destruct (is_null_buf (vm_buf st)) eqn:En.
        - specialize (Hnn eq_refl).
          destruct (vm_buf st1); [contradiction|cbn; lia..].
        - rewrite (Hsame eq_refl), En. lia. }
      destruct (_ || _); [apply IH; assumption|].
      cbn. split; [destruct (is_null_buf (vm_buf st1)); lia|exact Hu1].
    + destruct H as (_ & Hmm & _ & Hu' & _).
      split; [destruct (is_null_buf (vm_buf st)); lia|lia].
Qed.

(** X19: a vm worker that does not keep its buffer maps one region per
    pass and unmaps it before it counts: it never holds more than one
    mapping, and none between two passes or when it leaves through
    [exit(0)].  A worker that keeps its buffer calls [mmap] at most once
    in its life and never calls [munmap]. *)
Theorem vm_mappings_balanced (o : options) (z : sizes) (obs : list vm_obs)
    (counter : Z) :
  let r := stress_vm o z obs counter in
  let st := vm_final r in
  (vm_keep o = false ->
   (munmaps (vm_trace st) <= vm_maps st <= S (munmaps (vm_trace st)))%nat
   /\ (vm_settled r = true -> vm_maps st = munmaps (vm_trace st)))
  /\ (vm_keep o = true ->
      (mmaps (vm_trace st) <= 1)%nat /\ munmaps (vm_trace st) = 0%nat).
Proof.
  intros r st. subst st r. unfold stress_vm. split; intros Ek.
  - destruct (vm_loop_balanced o z obs Ek (mk_vm_state NullBuf 0 counter 0 []))
      as (H1 & H2 & _); [reflexivity|].
    split; assumption.
  - apply (vm_loop_keep o z obs Ek (mk_vm_state NullBuf 0 counter 0 []));
      [reflexivity|cbn; lia].
Qed.

(** X20: with the keep flag, a first [mmap] that fails is never tried
    again: [buf] holds MAP_FAILED, which is not NULL, so the next pass
    skips the [mmap] and stores through MAP_FAILED.  Without the flag the
    worker never stores through an invalid buffer: a failed [mmap] is
    followed by a new one in the next pass. *)
Theorem vm_keep_failed_mmap (o : options) (z : sizes) (ob ob2 : vm_obs)
    (rest : list vm_obs) (counter : Z) :
  0 < opt_vm_bytes z -> vo_mmap_ok ob = false ->
  opt_vm_ops o = 0 \/ counter < opt_vm_ops o ->
  (vm_keep o = true ->
   stress_vm o z (ob :: ob2 :: rest) counter
   = VmInvalidStore (mk_vm_state MapFailed 2 counter 0
                                 [VmMmap (opt_vm_bytes z) false]))
  /\ (vm_keep o = false ->
      stress_vm o z (ob :: ob2 :: rest) counter
      = vm_loop o z (ob2 :: rest)
          (mk_vm_state MapFailed 1 counter 0 [VmMmap (opt_vm_bytes z) false])
      /\ forall st, stress_vm o z (ob :: ob2 :: rest) counter <> VmInvalidStore st).
Proof.
  intros Hb Hf Hops.
  assert (Htest : c_true (c_not (opt_vm_ops o)) || (counter <? opt_vm_ops o) = true).
  { destruct Hops as [->|H]; [reflexivity|].
    apply orb_true_iff. right. apply Z.ltb_lt. exact H. }
  split; intros Ek.
  - unfold stress_vm. cbn [vm_loop]. unfold vm_pass at 1.
    cbn [vm_buf vm_val vm_counter vm_maps vm_trace is_null_buf].
    rewrite Ek, Hf. cbn [negb orb andb vm_counter app]. rewrite Htest.
    unfold vm_pass. cbn [vm_buf vm_val vm_counter vm_maps vm_trace is_null_buf].
    rewrite Ek. cbn [negb orb andb]. unfold vm_work.
    destruct (Z.leb_spec (opt_vm_bytes z) 0) as [?|_]; [lia|].
    cbn [vm_buf]. reflexivity.
  - split.
    + unfold stress_vm. cbn [vm_loop]. unfold vm_pass at 1.
      cbn [vm_buf vm_val vm_counter vm_maps vm_trace is_null_buf].
      rewrite Ek, Hf. cbn [negb orb andb vm_counter app]. rewrite Htest. reflexivity.
    + intros st. unfold stress_vm.
      apply (vm_loop_balanced o z (ob :: ob2 :: rest) Ek
               (mk_vm_state NullBuf 0 counter 0 [])). reflexivity.
Qed.

Lemma vm_keep_failed_mmap_witness :
  let o := mk_options (Z.lor (Z.lor PR_ERR PR_INF) OPT_FLAGS_VM_KEEP) 60 0 0 0 0 0
                      [0; 0; 1; 0] in
  let fails := mk_vm_obs false None in
  let works := mk_vm_obs true None in
  stress_vm o default_sizes [fails; works; works] 0
  = VmInvalidStore (mk_vm_state MapFailed 2 0 0 [VmMmap DEFAULT_VM_BYTES false]).
Proof.
  intros o fails works.
  destruct (vm_keep_failed_mmap o default_sizes fails works [works] 0) as [H _].
  - reflexivity.
  - reflexivity.
  - left. reflexivity.
  - apply H. reflexivity.
Defined.

Lemma vm_mappings_balanced_witness :
  let o := mk_options (Z.lor PR_ERR PR_INF) 60 0 0 0 2 0 [0; 0; 1; 0] in
  let works := mk_vm_obs true None in
  let fails := mk_vm_obs false None in
  let r := stress_vm o default_sizes [works; fails; works; works] 0 in
  vm_settled r = true /\ vm_maps (vm_final r) = 2%nat
  /\ munmaps (vm_trace (vm_final r)) = 2%nat.
Proof.
  intros o works fails r.
  destruct (vm_mappings_balanced o default_sizes [works; fails; works; works] 0)
    as [H _].
  destruct (H eq_refl) as [_ H']. fold r in H'.
  split; [reflexivity|]. split; [reflexivity|].
  rewrite <- H' by reflexivity. reflexivity.
Defined.

Lemma vm_loop_hang_zero (o : options) (z : sizes) (obs : list vm_obs) :
  opt_vm_hang z = 0 ->
  forall st,
    let r := vm_loop o z obs st in
    vm_counter (vm_final r) = vm_counter st
    /\ munmaps (vm_trace (vm_final r)) = munmaps (vm_trace st).
Proof.
  intros Hh. induction obs as [|ob obs IH]; intros st; cbn [vm_loop].
  - split; reflexivity.
  - pose proof (vm_pass_shape o z ob st) as H. cbn zeta in H.
    destruct (vm_pass o z ob st) as [st1|r].
    + destruct H as (_ & _ & _ & _ & _ & [(_ & Hc & _ & Hu)|(_ & _ & Hne & _)]);
        [|contradiction].
      destruct (_ || _).
      * destruct (IH st1) as [H1 H2]. cbn zeta. split; congruence.
      * cbn. split; assumption.
    + destruct H as (_ & _ & Hc & Hu & _). split; assumption.
Qed.

(** X21: a hang time of zero, which the range check of [--vm-hang]
    admits, stops the vm worker for good: it never counts an operation and
    never unmaps, and when its first [mmap] succeeds it sits in its
    endless sleep with the region dirtied once. *)
Theorem vm_hang_zero_never_counts (o : options) (z : sizes) (obs : list vm_obs)
    (counter : Z) :
  opt_vm_hang z = 0 ->
  let r := stress_vm o z obs counter in
  vm_counter (vm_final r) = counter
  /\ munmaps (vm_trace (vm_final r)) = 0%nat
  /\ (forall ob rest, obs = ob :: rest -> vo_mmap_ok ob = true ->
                      0 < opt_vm_bytes z -> opt_vm_stride z <> 0 ->
      r = VmHung (mk_vm_state (Mapped 0) 1 counter 1
                    [VmMmap (opt_vm_bytes z) true; VmFill 0])).
Proof.
  intros Hh r. subst r. unfold stress_vm.
  destruct (vm_loop_hang_zero o z obs Hh (mk_vm_state NullBuf 0 counter 0 []))
    as [H1 H2].
  split; [exact H1|]. split; [exact H2|].
  intros ob rest -> Hok Hb Hs. cbn [vm_loop]. unfold vm_pass.
  cbn [vm_buf vm_val vm_counter vm_maps vm_trace is_null_buf].
  assert (Hcall : negb (vm_keep o) || (vm_keep o && true) = true)
    by (destruct (vm_keep o); reflexivity).
  rewrite Hcall, Hok. unfold vm_work.
  destruct (Z.leb_spec (opt_vm_bytes z) 0) as [?|_]; [lia|].
  cbn [vm_buf]. destruct (Z.eqb_spec (opt_vm_stride z) 0) as [?|_]; [contradiction|].
  rewrite Hh. reflexivity.
Qed.

Lemma vm_hang_zero_never_counts_witness :
  let o := mk_options (Z.lor PR_ERR PR_INF) 60 0 0 0 0 0 [0; 0; 1; 0] in
  let z := mk_sizes DEFAULT_VM_BYTES DEFAULT_VM_STRIDE 0 DEFAULT_HDD_BYTES in
  let obs := [mk_vm_obs false None; mk_vm_obs true None; mk_vm_obs true None] in
  vm_counter (vm_final (stress_vm o z obs 0)) = 0
  /\ exists st, stress_vm o z obs 0 = VmHung st.
Proof.
  intros o z obs.
  destruct (vm_hang_zero_never_counts o z obs 0) as [H _]; [reflexivity|].
  split; [exact H|]. eexists. vm_compute. reflexivity.
Defined.





(** ** [stress_io], the hdd stressor *)

Lemma io_writes_app (l1 l2 : list io_event) :
  io_writes (l1 ++ l2) = (io_writes l1 + io_writes l2)%nat.
Proof. unfold io_writes. rewrite List.filter_app, length_app. reflexivity. Qed.

(** The inner loop touches neither the descriptors nor the names. *)
Lemma io_fill_frame (o : options) (z : sizes) (fd : Z) (writes : list Z) :
  forall i st,
    match io_fill o z fd i writes st with
    | inl (st', _) =>
        io_files st' = io_files st /\ io_open st' = io_open st
        /\ io_names st' = io_names st
    | inr r =>
        io_files (io_final r) = io_files st /\ io_open (io_final r) = io_open st
        /\ io_names (io_final r) = io_names st
        /\ io_settled r = false
    end.
Proof.
  induction writes as [|ret writes IH]; intros i st; cbn [io_fill].
  - destruct (i <? opt_hdd_bytes z); cbn; repeat split.
  - destruct (i <? opt_hdd_bytes z); [|cbn; repeat split].
    destruct (ret <? 0); [cbn; repeat split|].
    destruct (_ && _); [cbn; repeat split|].
    match goal with |- context [io_fill o z fd ?j writes ?s] =>
      specialize (IH j s); destruct (io_fill o z fd j writes s) as [[st' ws]|r]
    end; exact IH.
Qed.

Lemma unlink_after_close_clean (flags : Z) :
  Hdd.unlink_after_close flags = true -> Hdd.no_clean_set flags = false.
Proof.
  intros H. apply unlink_after_close_iff in H. subst flags. reflexivity.
Qed.

Lemma io_loop_names (o : options) (z : sizes) (mk : list Z) :
  forall writes st,
    io_open st = [] ->
    io_names st = (if Hdd.no_clean_set (opt_flags o) then seq 0 (io_files st) else []) ->
    let r := io_loop o z mk writes st in
    io_names (io_final r)
    = (if Hdd.no_clean_set (opt_flags o) then seq 0 (io_files (io_final r)) else [])
    /\ (length (io_open (io_final r)) <= 1)%nat
    /\ (io_settled r = true -> io_open (io_final r) = []).
Proof.
  induction mk as [|fd mk IH]; intros writes st Ho Hn; cbn [io_loop].
  - cbn. rewrite Ho. split; [exact Hn|]. split; [cbn; lia|reflexivity].
  - destruct (fd <? 0).
    { cbn. rewrite Ho. split; [exact Hn|]. split; [cbn; lia|reflexivity]. }
    set (st1 := if Hdd.unlink_before_write (opt_flags o)
                then io_unlink (io_files st) (io_created fd st) else io_created fd st).
    assert (H1 : io_files st1 = S (io_files st) /\ io_open st1 = [fd]
                 /\ io_names st1
                    = (if Hdd.no_clean_set (opt_flags o)
                       then seq 0 (S (io_files st)) else [])).
    { subst st1. rewrite unlink_before_write_iff.
      destruct (Hdd.no_clean_set (opt_flags o)); cbn [negb].
      - cbn [io_created io_files io_open io_names]. rewrite Ho, Hn.
        repeat split. rewrite seq_S. reflexivity.
      - cbn [io_unlink io_created io_files io_open io_names]. rewrite Ho, Hn.
        repeat split. cbn. rewrite Nat.eqb_refl. reflexivity. }
    destruct H1 as (Hf1 & Ho1 & Hn1).
    pose proof (io_fill_frame o z fd writes 0 st1) as Hfill.
    destruct (io_fill o z fd 0 writes st1) as [[st2 ws]|r].
    + destruct Hfill as (Hf2 & Ho2 & Hn2).
      set (st3 := if Hdd.unlink_after_close (opt_flags o)
                  then io_unlink (io_files st) (io_close fd st2) else io_close fd st2).
      assert (H3 : io_files st3 = S (io_files st) /\ io_open st3 = []
                   /\ io_names st3
                      = (if Hdd.no_clean_set (opt_flags o)
                         then seq 0 (S (io_files st)) else [])
                   /\ io_counter st3 = io_counter st2).
      { subst st3. destruct (Hdd.unlink_after_close (opt_flags o)) eqn:Ea.
        - apply unlink_after_close_clean in Ea. rewrite Ea in *.
          cbn [io_unlink io_close io_files io_open io_names io_counter].
          rewrite Hf2, Ho2, Hn2, Hf1, Ho1, Hn1. cbn. rewrite Z.eqb_refl. repeat split.
        - cbn [io_close io_files io_open io_names io_counter].
          rewrite Hf2, Ho2, Hn2, Hf1, Ho1, Hn1. cbn. rewrite Z.eqb_refl. repeat split. }
      destruct H3 as (Hf3 & Ho3 & Hn3 & Hc3).
      destruct (_ || _).
      * apply IH; [exact Ho3|]. rewrite Hn3, Hf3. reflexivity.
      * cbn [io_final io_settled]. rewrite Hn3, Hf3, Ho3.
        split; [reflexivity|]. split; [cbn; lia|reflexivity].
    + destruct Hfill as (Hf2 & Ho2 & Hn2 & Hs).
      rewrite Hn2, Hf2, Ho2, Hn1, Hf1, Ho1, Hs.
      split; [reflexivity|]. split; [cbn; lia|discriminate].
Qed.

(** X23: what an hdd worker leaves behind.  Whether its temporary files
    stay depends on the no-clean flag alone, under every option word:
    without the flag no name it created is linked any more, whenever and
    however the worker is stopped; with the flag every file it created
    still has its name.  And it holds at most one descriptor at any time,
    none between two passes or when it leaves through [exit(0)]. *)
Theorem io_leaves_behind (o : options) (z : sizes) (malloc_ok : bool)
    (mk writes : list Z) (counter : Z) :
  let r := stress_io o z malloc_ok mk writes counter in
  io_names (io_final r)
  = (if Hdd.no_clean_set (opt_flags o) then seq 0 (io_files (io_final r)) else [])
  /\ (length (io_open (io_final r)) <= 1)%nat
  /\ (io_settled r = true -> io_open (io_final r) = []).
Proof.
  unfold stress_io. destruct malloc_ok.
  - apply (io_loop_names o z mk writes (mk_io_state counter 0 [] [] [])).
    + reflexivity.
    + cbn. destruct (Hdd.no_clean_set _); reflexivity.
  - cbn. split; [destruct (Hdd.no_clean_set _); reflexivity|].
    split; [lia|reflexivity].
Qed.

Lemma io_leaves_behind_witness :
  let o := mk_options (Z.lor (Z.lor PR_ERR PR_INF) OPT_FLAGS_NO_CLEAN) 60 0 0 0 0 3
                      [0; 0; 0; 1] in
  let z := mk_sizes DEFAULT_VM_BYTES DEFAULT_VM_STRIDE DEFAULT_VM_HANG (2 * 65536) in
  let r := stress_io o z true [5; 5; 5] [65536; 65536; 65536; 65536] 0 in
  io_settled r = true /\ io_open (io_final r) = [] /\ io_names (io_final r) = [0; 1]%nat.
Proof.
  intros o z r.
  destruct (io_leaves_behind o z true [5; 5; 5] [65536; 65536; 65536; 65536] 0)
    as (Hn & _ & H).
  split; [reflexivity|]. split; [apply H; reflexivity|].
  fold r in Hn. rewrite Hn. reflexivity.
Defined.

Lemma io_fill_budget (o : options) (z : sizes) (fd : Z) (writes : list Z) :
  forall i st,
    0 <= io_counter st < opt_hdd_ops o -> opt_hdd_ops o < 2 ^ 64 ->
    match io_fill o z fd i writes st with
    | inl (st', ws) =>
        io_counter st <= io_counter st' <= opt_hdd_ops o
        /\ Z.of_nat (io_writes (io_trace st'))
           = Z.of_nat (io_writes (io_trace st)) + (io_counter st' - io_counter st)
        /\ Z.of_nat (length writes)
           = Z.of_nat (length ws) + (io_counter st' - io_counter st)
        /\ (i < opt_hdd_bytes z -> writes <> [] -> io_counter st < io_counter st')
        /\ (forall ret, ret ∈ ws -> ret ∈ writes)
    | inr r =>
        io_counter st <= io_counter (io_final r) < opt_hdd_ops o
        /\ Z.of_nat (io_writes (io_trace (io_final r)))
           = Z.of_nat (io_writes (io_trace st))
             + (io_counter (io_final r) - io_counter st)
             + (if r is IoExited _ _ then 1 else 0)
        /\ ((forall ret, ret ∈ writes -> 0 <= ret) ->
            (exists st', r = IoWriting st')
            /\ io_counter (io_final r) - io_counter st = Z.of_nat (length writes))
    end.
Proof.
  induction writes as [|ret writes IH]; intros i st Hc Hm; cbn [io_fill].
  - destruct (Z.ltb_spec i (opt_hdd_bytes z)); cbn.
    + split; [lia|]. split; [lia|]. intros _. split; [eexists; reflexivity|lia].
    + split; [lia|]. split; [lia|]. split; [lia|]. split; [intros; lia|]. intros r' Hin. exact Hin.
  - destruct (Z.ltb_spec i (opt_hdd_bytes z)) as [Hi|Hi].
    2:{ cbn [length]. split; [lia|]. split; [lia|]. split; [lia|].
        split; [intros; lia|]. intros r' Hin. exact Hin. }
    destruct (Z.ltb_spec ret 0) as [Hret|Hret].
    { cbn [io_final io_log io_counter io_trace]. rewrite !io_writes_app. cbn.
      split; [lia|]. split; [lia|]. intros H.
      specialize (H ret (list_elem_of_here _ _)). lia. }
    cbn [io_log io_counter io_files io_open io_names io_trace].
    rewrite to_uint64_small by lia.
    unfold c_true. destruct (Z.eqb_spec (opt_hdd_ops o) 0) as [?|_]; [lia|].
    cbn [negb andb].
    destruct (Z.leb_spec (opt_hdd_ops o) (io_counter st + 1)) as [Hge|Hlt].
    + cbn [io_counter io_trace length]. rewrite io_writes_app. cbn.
      split; [lia|]. split; [lia|]. split; [lia|]. split; [intros; lia|].
      intros r' Hin. apply list_elem_of_further, Hin.
    + match goal with |- context [io_fill o z fd ?j writes ?s] =>
        specialize (IH j s); destruct (io_fill o z fd j writes s) as [[st' ws]|r]
      end; cbn [io_counter io_trace] in IH; specialize (IH ltac:(lia) Hm);
        rewrite io_writes_app in IH; cbn [io_writes List.filter is_io_write length] in IH.
      * destruct IH as (H1 & H2 & H3 & _ & H5). cbn [length].
        split; [lia|]. split; [lia|]. split; [lia|]. split; [intros; lia|].
        intros r' Hin. apply list_elem_of_further, H5, Hin.
      * destruct IH as (H1 & H2 & H3).
        split; [lia|]. split; [lia|]. intros H.
        destruct H3 as [H3 H4].
        { intros r' Hr'. apply H. apply list_elem_of_further, Hr'. }
        split; [exact H3|]. cbn [length]. lia.
Qed.

Lemma io_tidy_counter (o : options) (fd : Z) (file : nat) (st : io_state) :
  let st' := if Hdd.unlink_after_close (opt_flags o)
             then io_unlink file (io_close fd st) else io_close fd st in
  io_counter st' = io_counter st
  /\ io_writes (io_trace st') = io_writes (io_trace st).
Proof.
  destruct (Hdd.unlink_after_close _);
    cbn [io_unlink io_close io_counter io_trace]; rewrite !io_writes_app; cbn; split; lia.
Qed.

Lemma io_open_counter (o : options) (fd : Z) (st : io_state) :
  let st' := if Hdd.unlink_before_write (opt_flags o)
             then io_unlink (io_files st) (io_created fd st) else io_created fd st in
  io_counter st' = io_counter st
  /\ io_writes (io_trace st') = io_writes (io_trace st).
Proof.
  destruct (Hdd.unlink_before_write _);
    cbn [io_unlink io_created io_counter io_trace]; rewrite !io_writes_app; cbn; split; lia.
Qed.

Lemma io_loop_budget (o : options) (z : sizes) (mk : list Z) :
  forall writes st,
    0 <= io_counter st < opt_hdd_ops o -> opt_hdd_ops o < 2 ^ 64 ->
    let r := io_loop o z mk writes st in
    io_counter st <= io_counter (io_final r) <= opt_hdd_ops o
    /\ (forall st', r = IoExited 0 st' -> io_counter st' = opt_hdd_ops o)
    /\ (let extra := Z.of_nat (io_writes (io_trace (io_final r)))
                     - Z.of_nat (io_writes (io_trace st))
                     - (io_counter (io_final r) - io_counter st) in
        0 <= extra <= 1 /\ (io_settled r = true -> extra = 0)).
Proof.
  induction mk as [|fd mk IH]; intros writes st Hc Hm; cbn [io_loop].
  - cbn. split; [lia|]. split; [discriminate|]. split; [lia|]. intros _. lia.
  - destruct (fd <? 0).
    { cbn [io_final io_settled io_log io_counter io_trace]. rewrite io_writes_app.
      split; [lia|]. split; [discriminate|]. cbn. split; [lia|]. discriminate. }
    pose proof (io_open_counter o fd st) as Hopen. cbn zeta in Hopen.
    set (st1 := if Hdd.unlink_before_write (opt_flags o)
                then io_unlink (io_files st) (io_created fd st) else io_created fd st)
      in *.
    destruct Hopen as [Hc1 Hw1].
    pose proof (io_fill_budget o z fd writes 0 st1 ltac:(lia) Hm) as Hfill.
    pose proof (io_fill_frame o z fd writes 0 st1) as Hframe.
    destruct (io_fill o z fd 0 writes st1) as [[st2 ws]|r].
    + destruct Hfill as (H1 & H2 & _).
      pose proof (io_tidy_counter o fd (io_files st) st2) as Htidy. cbn zeta in Htidy.
      set (st3 := if Hdd.unlink_after_close (opt_flags o)
                  then io_unlink (io_files st) (io_close fd st2) else io_close fd st2)
        in *.
      destruct Htidy as [Hc3 Hw3].
      unfold c_true, c_not.
      destruct (Z.eqb_spec (opt_hdd_ops o) 0) as [?|_]; [lia|]. cbn [Z.eqb negb orb].
      destruct (Z.ltb_spec (io_counter st3) (opt_hdd_ops o)) as [Hlt|Hge].
      * specialize (IH ws st3 ltac:(lia) Hm). cbn zeta in IH.
        destruct IH as (I1 & I2 & I3 & I4).
        split; [lia|]. split; [exact I2|]. split; [lia|]. intros Hs.
        specialize (I4 Hs). lia.
      * cbn [io_final io_settled]. split; [lia|]. split.
        -- intros st' [= <-]. lia.
        -- split; [lia|]. intros _. lia.
    + destruct Hfill as (H1 & H2 & _). destruct Hframe as (_ & _ & _ & Hs).
      split; [lia|]. split.
      * intros st' ->. cbn in Hs. discriminate.
      * split; [destruct r; lia|]. intros Hs'. congruence.
Qed.

(** X24: an hdd worker tests its budget after every [write], so with a
    counter that starts below the budget it never counts past it and
    leaves through [exit(0)] with the counter exactly at the budget.  It
    counts every [write] that does not return a negative value, a short
    one included: the [write] calls made are the operations counted, plus
    the one failed [write] when that is what ended the worker. *)
Theorem io_budget_respected (o : options) (z : sizes) (malloc_ok : bool)
    (mk writes : list Z) (counter : Z) :
  0 <= counter < opt_hdd_ops o -> opt_hdd_ops o < 2 ^ 64 ->
  let r := stress_io o z malloc_ok mk writes counter in
  let made := Z.of_nat (io_writes (io_trace (io_final r))) in
  counter <= io_counter (io_final r) <= opt_hdd_ops o
  /\ (forall st, r = IoExited 0 st -> io_counter st = opt_hdd_ops o)
  /\ io_counter (io_final r) - counter <= made <= io_counter (io_final r) - counter + 1
  /\ (io_settled r = true -> made = io_counter (io_final r) - counter).
Proof.
  intros Hc Hm. unfold stress_io. destruct malloc_ok.
  - destruct (io_loop_budget o z mk writes (mk_io_state counter 0 [] [] []) Hc Hm)
      as (H1 & H2 & H3 & H4).
    cbn [io_counter io_trace io_writes List.filter length] in *.
    split; [exact H1|]. split; [exact H2|]. split; [lia|].
    intros Hs. specialize (H4 Hs). lia.
  - cbn. split; [lia|]. split; [discriminate|]. split; [lia|]. discriminate.
Qed.

Lemma io_budget_respected_witness :
  let o := mk_options (Z.lor PR_ERR PR_INF) 60 0 0 0 0 3 [0; 0; 0; 1] in
  let z := mk_sizes DEFAULT_VM_BYTES DEFAULT_VM_STRIDE DEFAULT_VM_HANG (2 * 65536) in
  exists st, stress_io o z true [5; 5; 5] [65536; 100; 0; 65536] 0 = IoExited 0 st
             /\ io_counter st = 3 /\ io_writes (io_trace st) = 3%nat.
Proof.
  intros o z. eexists. split; [vm_compute; reflexivity|].
  destruct (io_budget_respected o z true [5; 5; 5] [65536; 100; 0; 65536] 0)
    as (_ & H & _); [cbn; lia|cbn; lia|].
  split; [|reflexivity]. apply H. vm_compute. reflexivity.
Defined.

Lemma io_loop_finishes (o : options) (z : sizes) (mk : list Z) :
  forall writes st,
    0 <= io_counter st < opt_hdd_ops o -> opt_hdd_ops o < 2 ^ 64 ->
    0 < opt_hdd_bytes z ->
    (forall fd, fd ∈ mk -> 0 <= fd) -> (forall ret, ret ∈ writes -> 0 <= ret) ->
    opt_hdd_ops o - io_counter st <= Z.of_nat (length mk) ->
    opt_hdd_ops o - io_counter st <= Z.of_nat (length writes) ->
    exists st', io_loop o z mk writes st = IoExited 0 st'
                /\ io_counter st' = opt_hdd_ops o.
Proof.
  induction mk as [|fd mk IH]; intros writes st Hc Hm Hb Hmk Hwr Hlm Hlw.
  - cbn in Hlm. lia.
  - cbn [io_loop].
    destruct (Z.ltb_spec fd 0) as [Hneg|_].
    { specialize (Hmk fd (list_elem_of_here _ _)). lia. }
    pose proof (io_open_counter o fd st) as Hopen. cbn zeta in Hopen.
    set (st1 := if Hdd.unlink_before_write (opt_flags o)
                then io_unlink (io_files st) (io_created fd st) else io_created fd st)
      in *.
    destruct Hopen as [Hc1 _].
    pose proof (io_fill_budget o z fd writes 0 st1 ltac:(lia) Hm) as Hfill.
    destruct (io_fill o z fd 0 writes st1) as [[st2 ws]|r].
    + destruct Hfill as (H1 & _ & H3 & H4 & H5).
      assert (Hprog : io_counter st1 < io_counter st2).
      { apply H4; [exact Hb|]. destruct writes; [cbn in Hlw; lia|discriminate]. }
      pose proof (io_tidy_counter o fd (io_files st) st2) as Htidy. cbn zeta in Htidy.
      set (st3 := if Hdd.unlink_after_close (opt_flags o)
                  then io_unlink (io_files st) (io_close fd st2) else io_close fd st2)
        in *.
      destruct Htidy as [Hc3 _].
      unfold c_true, c_not.
      destruct (Z.eqb_spec (opt_hdd_ops o) 0) as [?|_]; [lia|]. cbn [Z.eqb negb orb].
      destruct (Z.ltb_spec (io_counter st3) (opt_hdd_ops o)) as [Hlt|Hge].
      * apply IH; try assumption; try lia.
        -- intros fd' Hfd'. apply Hmk. apply list_elem_of_further, Hfd'.
        -- intros ret Hret. apply Hwr, H5, Hret.
        -- cbn [length] in Hlm. lia.
      * exists st3. split; [reflexivity|lia].
    + destruct Hfill as (H1 & _ & H3). destruct (H3 Hwr) as [_ H4]. lia.
Qed.

(** X25: an hdd worker with a budget does finish: when every [mkstemp]
    and every [write] succeeds and the kernel serves as many of each as
    operations are missing, the worker leaves through [exit(0)] with the
    counter at the budget, every descriptor closed. *)
Theorem io_budget_reached (o : options) (z : sizes) (mk writes : list Z)
    (counter : Z) :
  0 <= counter < opt_hdd_ops o -> opt_hdd_ops o < 2 ^ 64 ->
  0 < opt_hdd_bytes z ->
  (forall fd, fd ∈ mk -> 0 <= fd) -> (forall ret, ret ∈ writes -> 0 <= ret) ->
  opt_hdd_ops o - counter <= Z.of_nat (length mk) ->
  opt_hdd_ops o - counter <= Z.of_nat (length writes) ->
  exists st, stress_io o z true mk writes counter = IoExited 0 st
             /\ io_counter st = opt_hdd_ops o /\ io_open st = [].
Proof.
  intros Hc Hm Hb Hmk Hwr Hlm Hlw. unfold stress_io.
  destruct (io_loop_finishes o z mk writes (mk_io_state counter 0 [] [] []))
    as (st & E & Hst); try assumption.
  exists st. split; [exact E|]. split; [exact Hst|].
  destruct (io_loop_names o z mk writes (mk_io_state counter 0 [] [] []))
    as (_ & _ & H).
  - reflexivity.
  - cbn. destruct (Hdd.no_clean_set _); reflexivity.
  - rewrite E in H. apply H. reflexivity.
Qed.

Lemma io_budget_reached_witness :
  let o := mk_options (Z.lor PR_ERR PR_INF) 60 0 0 0 0 4 [0; 0; 0; 1] in
  let z := mk_sizes DEFAULT_VM_BYTES DEFAULT_VM_STRIDE DEFAULT_VM_HANG (3 * 65536) in
  exists st, stress_io o z true [5; 6; 7] [65536; 65536; 65536; 65536] 1
             = IoExited 0 st
             /\ io_counter st = 4 /\ io_open st = [].
Proof.
  intros o z.
  apply (io_budget_reached o z [5; 6; 7] [65536; 65536; 65536; 65536] 1).
  - cbn. lia.
  - cbn. lia.
  - cbn. lia.
  - intros fd Hfd. repeat (apply elem_of_cons in Hfd as [->|Hfd]; [lia|]).
    apply elem_of_nil in Hfd. contradiction.
  - intros ret Hret. repeat (apply elem_of_cons in Hret as [->|Hret]; [lia|]).
    apply elem_of_nil in Hret. contradiction.
  - cbn. lia.
  - cbn. lia.
Defined.

(** * The command line *)

Lemma check_range_ok (opt : string) (val lo hi v : Z) :
  check_range opt val lo hi = Ok v -> v = val /\ lo <= val <= hi.
Proof.
  unfold check_range.
  destruct (Z.ltb_spec val lo); destruct (Z.ltb_spec hi val); cbn;
    try discriminate.
  intros [= <-]. lia.
Qed.

Lemma checked_value_ok (msg : string) (val v : Z) :
  checked_value msg val = Ok v -> v = val /\ check_value val = true.
Proof.
  unfold checked_value. destruct (check_value val); [|discriminate].
  intros [= <-]. split; reflexivity.
Qed.

Lemma parse_bind_ok {A B : Type} (m : parse A) (f : A -> parse B) (b : B) :
  parse_bind m f = Ok b -> exists a, m = Ok a /\ f a = Ok b.
Proof.
  destruct m as [a| |]; cbn; try discriminate. intros H. exists a. split; [reflexivity|exact H].
Qed.

Lemma valid_set_flags (f : Z) (s : settings) :
  valid_settings s -> valid_settings (set_flags f s).
Proof. intros H. exact H. Qed.

Lemma valid_set_num_procs (i : nat) (n : Z) (s : settings) :
  (i < STRESS_MAX)%nat -> check_value n = true ->
  valid_settings s -> valid_settings (set_num_procs i n s).
Proof.
  intros Hi Hn ([Hlen Hall] & Hrest). split; [|exact Hrest].
  unfold wf_options. cbn [set_num_procs s_opts num_procs]. split.
  - rewrite length_insert. exact Hlen.
  - intros j Hj. destruct (decide (j = i)) as [->|Hne].
    + rewrite list_lookup_total_insert_eq by (rewrite Hlen; exact Hi). exact Hn.
    + rewrite list_lookup_total_insert_ne by congruence. apply Hall, Hj.
Qed.

Ltac parse_steps H :=
  repeat match type of H with
         | parse_bind _ _ = Ok _ =>
             let a := fresh "v" in
             let E := fresh "E" in
             apply parse_bind_ok in H as (a & E & H)
         end.

Lemma parse_option_valid (l : libc) (c : Z) (optarg : string) (s s' : settings) :
  valid_settings s -> parse_option l c optarg s = Ok s' -> valid_settings s'.
Proof.
  intros Hv. unfold parse_option.
  repeat match goal with
         | |- (if ?b then _ else _) = _ -> _ => destruct b
         end;
    intros H; parse_steps H; try discriminate H;
    try (injection H as <-);
    try (apply valid_set_flags, Hv);
    try (match goal with
         | E : checked_value _ _ = Ok _ |- _ =>
             apply checked_value_ok in E as [-> E];
             apply valid_set_num_procs;
               [unfold STRESS_MAX, STRESS_CPU, STRESS_IOSYNC, STRESS_VM, STRESS_HDD; lia
               |exact E|exact Hv]
         end);
    try exact Hv;
    repeat match goal with
           | E : check_range _ _ _ _ = Ok _ |- _ =>
               apply check_range_ok in E as [-> E]
           end;
    destruct Hv as (H1 & H2 & H3 & H4 & H5 & H6 & H7 & H8 & H9);
    unfold valid_settings, ops_in_range;
    cbn [set_sizes set_ops s_opts s_sizes opt_cpu_ops opt_iosync_ops opt_vm_ops
         opt_hdd_ops opt_vm_bytes opt_vm_stride opt_vm_hang opt_hdd_bytes];
    repeat match goal with |- context [decide ?P] => destruct (decide P); try discriminate end;
    repeat split; try assumption; try tauto; try (right; lia); try lia;
    try apply H1.
Qed.

Lemma parse_options_valid (l : libc) (args : list (Z * string)) :
  forall s s', valid_settings s -> parse_options l args s = Ok s' -> valid_settings s'.
Proof.
  induction args as [|[c optarg] args IH]; intros s s' Hv; cbn [parse_options].
  - intros [= <-]. exact Hv.
  - intros H. apply parse_bind_ok in H as (s1 & E & H).
    apply (IH s1 s'); [|exact H]. apply (parse_option_valid l c optarg s s1 Hv E).
Qed.

Lemma default_settings_valid : valid_settings default_settings.
Proof.
  split.
  - split; [reflexivity|]. intros i Hi. unfold STRESS_MAX in Hi.
    destruct i as [|[|[|[|i]]]]; reflexivity.
  - unfold ops_in_range. cbn. repeat split; try (left; reflexivity); try discriminate.
Qed.

(** X26: whatever the command line and whatever the C library's number
    readers return, options that get through the option loop are within
    their ranges: every worker count between 0 and 1024, every operation
    budget either absent or between its minimum and 100000000, the vm and
    hdd sizes within their limits, the stride at least 1.  These are the
    options [main] goes on with. *)
Theorem parsed_settings_valid (l : libc) (args : list (Z * string)) (w : world)
    (s : settings) :
  parse_options l args default_settings = Ok s ->
  valid_settings s /\ stress_ng l args w = Ok (main (s_opts s) w).
Proof.
  intros H. split.
  - apply (parse_options_valid l args default_settings s default_settings_valid H).
  - unfold stress_ng. rewrite H. reflexivity.
Qed.

Lemma parsed_settings_valid_witness :
  let args := [(chr "c"%char, "1024"); (OPT_CPU_OPS, "1000"); (OPT_VM_HANG, "1k")] in
  exists s, parse_options sample_libc args default_settings = Ok s
            /\ num_procs (s_opts s) = [0; 1024; 0; 0]
            /\ opt_cpu_ops (s_opts s) = 1000
            /\ opt_vm_hang (s_sizes s) = 1024
            /\ valid_settings s.
Proof.
  intros args. eexists. split; [vm_compute; reflexivity|].
  split; [reflexivity|]. split; [reflexivity|]. split; [reflexivity|].
  eapply (parsed_settings_valid sample_libc args (sample_world forks_ok [])).
  vm_compute. reflexivity.
Defined.

(** The flag word after an option depends on the option and on the flag
    word before it only. *)
Lemma parse_option_flags (l : libc) (c : Z) (optarg : string)
    (s1 s2 s1' s2' : settings) :
  opt_flags (s_opts s1) = opt_flags (s_opts s2) ->
  parse_option l c optarg s1 = Ok s1' -> parse_option l c optarg s2 = Ok s2' ->
  opt_flags (s_opts s1') = opt_flags (s_opts s2').
Proof.
  intros Hf. unfold parse_option.
  repeat match goal with
         | |- (if ?b then _ else _) = _ -> _ => destruct b
         end;
    intros H1 H2; parse_steps H1; parse_steps H2;
    try discriminate H1;
    injection H1 as <-; injection H2 as <-; cbn; congruence.
Qed.

Lemma parse_options_flags (l : libc) (args : list (Z * string)) :
  forall s1 s2 s1' s2',
    opt_flags (s_opts s1) = opt_flags (s_opts s2) ->
    parse_options l args s1 = Ok s1' -> parse_options l args s2 = Ok s2' ->
    opt_flags (s_opts s1') = opt_flags (s_opts s2').
Proof.
  induction args as [|[c optarg] args IH]; intros s1 s2 s1' s2' Hf; cbn [parse_options].
  - intros [= <-] [= <-]. exact Hf.
  - intros H1 H2.
    apply parse_bind_ok in H1 as (t1 & E1 & H1).
    apply parse_bind_ok in H2 as (t2 & E2 & H2).
    apply (IH t1 t2 s1' s2'); [|exact H1|exact H2].
    apply (parse_option_flags l c optarg s1 s2 t1 t2 Hf E1 E2).
Qed.

Lemma parse_options_app (l : libc) (pre post : list (Z * string)) :
  forall s s',
    parse_options l (pre ++ post) s = Ok s' ->
    exists t, parse_options l pre s = Ok t /\ parse_options l post t = Ok s'.
Proof.
  induction pre as [|[c optarg] pre IH]; intros s s'; cbn [app parse_options].
  - intros H. exists s. split; [reflexivity|exact H].
  - intros H. apply parse_bind_ok in H as (t & E & H).
    destruct (IH t s' H) as (u & H1 & H2).
    exists u. rewrite E. cbn [parse_bind]. split; assumption.
Qed.

(** X27: [-v] does not add the debug bit to the flag word, it replaces the
    word: every option flag set by an earlier option is lost.  The flag
    word after a command line is the one its part from the last [-v] on
    would give alone; in particular a dry run asked for before a final
    [-v] is not a dry run, and every child starts its stressor. *)
Theorem verbose_forgets_flags (l : libc) (pre post : list (Z * string))
    (optarg : string) (s : settings) :
  parse_options l (pre ++ (chr "v"%char, optarg) :: post) default_settings = Ok s ->
  (forall s', parse_options l ((chr "v"%char, optarg) :: post) default_settings = Ok s' ->
              opt_flags (s_opts s) = opt_flags (s_opts s'))
  /\ (post = [] ->
      opt_flags (s_opts s) = PR_ALL
      /\ forall max n i j,
           CStress i (counter_slot max i j) ∈ child_main (s_opts s) max n i j).
Proof.
  intros H. apply parse_options_app in H as (t & Hpre & Hpost).
  cbn [parse_options] in Hpost.
  assert (Ev : forall u, parse_option l (chr "v"%char) optarg u = Ok (set_flags PR_ALL u))
    by reflexivity.
  rewrite Ev in Hpost. cbn [parse_bind] in Hpost. split.
  - intros s' H'. cbn [parse_options] in H'. rewrite Ev in H'. cbn [parse_bind] in H'.
    apply (parse_options_flags l post (set_flags PR_ALL t)
             (set_flags PR_ALL default_settings) s s'); [reflexivity|exact Hpost|exact H'].
  - intros ->. cbn [parse_options] in Hpost. injection Hpost as <-.
    split; [reflexivity|]. intros max n i j. unfold child_main.
    cbn [set_flags s_opts opt_flags].
    apply elem_of_app. right. apply elem_of_app. left.
    change (c_true (c_not (Z.land PR_ALL OPT_FLAGS_DRY_RUN))) with true.
    apply list_elem_of_here.
Qed.

Lemma verbose_forgets_flags_witness :
  let args := [(chr "n"%char, ""); (chr "c"%char, "2"); (chr "v"%char, "")] in
  exists s, parse_options sample_libc args default_settings = Ok s
            /\ opt_flags (s_opts s) = PR_ALL
            /\ CStress STRESS_CPU (counter_slot 2 STRESS_CPU 0)
               ∈ child_main (s_opts s) 2 0 STRESS_CPU 0.
Proof.
  intros args. eexists. split; [vm_compute; reflexivity|].
  destruct (verbose_forgets_flags sample_libc
              [(chr "n"%char, ""); (chr "c"%char, "2")] [] ""
              (set_flags PR_ALL
                 (set_num_procs STRESS_CPU 2
                    (set_flags (Z.lor (opt_flags default_options) OPT_FLAGS_DRY_RUN)
                       default_settings)))) as [_ H].
  - vm_compute. reflexivity.
  - destruct (H eq_refl) as [H1 H2]. split; [exact H1|apply H2].
Defined.

Lemma parse_bind_quit {A B : Type} (m : parse A) (f : A -> parse B)
    (code : Z) (msg : string) :
  parse_bind m f = Quit code msg ->
  m = Quit code msg \/ exists a, m = Ok a /\ f a = Quit code msg.
Proof.
  destruct m as [a| |]; cbn; try discriminate.
  - intros H. right. exists a. split; [reflexivity|exact H].
  - intros [= -> ->]. left. reflexivity.
Qed.

Lemma get_uint64_message (l : libc) (str : string) (code : Z) (msg : string) :
  get_uint64 l str = Quit code msg -> msg = "Invalid number".
Proof.
  unfold get_uint64. destruct (sscanf_u64 l str); [discriminate|].
  intros [= _ <-]. reflexivity.
Qed.

Lemma find_scale_message (ch val : Z) (scales : list scale_t) (what : string)
    (code : Z) (msg : string) :
  find_scale ch val scales what = Quit code msg ->
  msg = "Illegal " +:+ what +:+ " specifier".
Proof.
  induction scales as [|sc scales IH]; cbn [find_scale]; [discriminate|].
  destruct (sc_ch sc =? 0); [intros [= _ <-]; reflexivity|].
  destruct (ch =? sc_ch sc); [discriminate|exact IH].
Qed.

Lemma get_uint64_scale_message (l : libc) (str : string) (scales : list scale_t)
    (what : string) (code : Z) (msg : string) :
  get_uint64_scale l str scales what = Quit code msg ->
  msg = "Invalid number" \/ msg = "invalid size"
  \/ msg = "Illegal " +:+ what +:+ " specifier".
Proof.
  unfold get_uint64_scale. intros H.
  apply parse_bind_quit in H as [H|(v & _ & H)].
  - left. apply (get_uint64_message l str code msg H).
  - destruct (_ =? _)%nat; [injection H as _ <-; right; left; reflexivity|].
    destruct (isdigit _); [discriminate|].
    right. right. apply (find_scale_message _ _ _ _ _ _ H).
Qed.

Lemma check_range_message (opt : string) (val lo hi code : Z) (msg : string) :
  check_range opt val lo hi = Quit code msg -> msg = "out of range for " +:+ opt.
Proof.
  unfold check_range. destruct (_ || _); [|discriminate].
  intros [= _ <-]. reflexivity.
Qed.

Lemma checked_value_message (what : string) (val code : Z) (msg : string) :
  checked_value what val = Quit code msg ->
  msg = "Number of " +:+ what +:+ " workers must be between 0 and 1024".
Proof.
  unfold checked_value. destruct (check_value val); [discriminate|].
  intros [= _ <-]. reflexivity.
Qed.

Ltac quit_steps H :=
  repeat match type of H with
         | parse_bind _ _ = Quit _ _ =>
             let a := fresh "v" in
             let E := fresh "E" in
             apply parse_bind_quit in H as [H|(a & E & H)]
         end.

Lemma parse_options_quit (l : libc) (pre rest : list (Z * string)) :
  forall s code msg,
    parse_options l pre s = Quit code msg ->
    parse_options l (pre ++ rest) s = Quit code msg.
Proof.
  induction pre as [|[c optarg] pre IH]; intros s code msg; cbn [app parse_options];
    [discriminate|].
  destruct (parse_option l c optarg s) as [t| |]; cbn [parse_bind];
    [apply IH|intros H; exact H|discriminate].
Qed.

Lemma parse_options_through (l : libc) (pre rest : list (Z * string)) :
  forall s t,
    parse_options l pre s = Ok t ->
    parse_options l (pre ++ rest) s = parse_options l rest t.
Proof.
  induction pre as [|[c optarg] pre IH]; intros s t; cbn [app parse_options].
  - intros [= <-]. reflexivity.
  - destruct (parse_option l c optarg s) as [u| |]; cbn [parse_bind];
      [apply IH|discriminate|discriminate].
Qed.

(** X28: the [default:] arm of the option switch is dead: no code that
    [getopt_long] returns for this option table reaches it.  What
    [getopt_long] does not recognise comes back as ['?'], the code of
    [--help]: wherever it stands on the command line, if the options
    before it were accepted the run prints the usage and leaves with
    EXIT_SUCCESS, whatever follows; an option before it that is refused
    ends the run first, with its own exit code. *)
Theorem unknown_option_is_help (l : libc) (optarg : string)
    (pre rest : list (Z * string)) (w : world) :
  (forall c s, c ∈ getopt_codes ->
               parse_option l c optarg s <> Quit EXIT_FAILURE "Unknown option")
  /\ (forall t, parse_options l pre default_settings = Ok t ->
                stress_ng l (pre ++ (chr "?"%char, optarg) :: rest) w
                = Quit EXIT_SUCCESS "usage")
  /\ (forall code msg, parse_options l pre default_settings = Quit code msg ->
                       stress_ng l (pre ++ (chr "?"%char, optarg) :: rest) w
                       = Quit code msg).
Proof.
  split; [|split].
  - intros c s Hc.
    unfold getopt_codes, short_options, long_options in Hc. cbn [map snd app] in Hc.
    repeat (apply elem_of_cons in Hc as [->|Hc];
            [unfold parse_option;
             repeat match goal with
                    | |- context [Z.eqb ?a ?b] =>
                        let v := eval vm_compute in (Z.eqb a b) in
                        change (Z.eqb a b) with v
                    end;
             cbv iota;
             intros H; quit_steps H;
             repeat match goal with
                    | E : get_uint64_scale _ _ _ _ = Quit _ _ |- _ =>
                        apply get_uint64_scale_message in E as [E|[E|E]]
                    | E : get_uint64_byte _ _ = Quit _ _ |- _ =>
                        apply get_uint64_scale_message in E as [E|[E|E]]
                    | E : get_uint64_time _ _ = Quit _ _ |- _ =>
                        apply get_uint64_scale_message in E as [E|[E|E]]
                    | E : get_uint64 _ _ = Quit _ _ |- _ =>
                        apply get_uint64_message in E
                    | E : check_range _ _ _ _ = Quit _ _ |- _ =>
                        apply check_range_message in E
                    | E : checked_value _ _ = Quit _ _ |- _ =>
                        apply checked_value_message in E
                    end;
             discriminate|]).
    apply elem_of_nil in Hc. contradiction.
  - intros t Ht. unfold stress_ng.
    rewrite (parse_options_through l pre _ default_settings t Ht). reflexivity.
  - intros code msg Hq. unfold stress_ng.
    rewrite (parse_options_quit l pre _ default_settings code msg Hq). reflexivity.
Qed.

Lemma unknown_option_is_help_witness :
  let w := sample_world forks_ok [] in
  stress_ng sample_libc
            [(chr "c"%char, "2"); (chr "?"%char, ""); (chr "c"%char, "9999")] w
  = Quit EXIT_SUCCESS "usage"
  /\ stress_ng sample_libc
               [(chr "c"%char, "9999"); (chr "?"%char, ""); (chr "c"%char, "2")] w
     = Quit EXIT_FAILURE "Number of CPU workers must be between 0 and 1024"
  /\ parse_option sample_libc (chr "?"%char) "" default_settings
     <> Quit EXIT_FAILURE "Unknown option".
Proof.
  intros w. split; [|split].
  - destruct (unknown_option_is_help sample_libc "" [(chr "c"%char, "2")]
                [(chr "c"%char, "9999")] w) as (_ & H & _).
    eapply H. vm_compute. reflexivity.
  - destruct (unknown_option_is_help sample_libc "" [(chr "c"%char, "9999")]
                [(chr "c"%char, "2")] w) as (_ & _ & H).
    apply H. vm_compute. reflexivity.
  - destruct (unknown_option_is_help sample_libc "" [] [] w) as (H & _).
    apply H. apply list_elem_of_here.
Defined.

Lemma find_scale_terminated (ch val : Z) (scales : list scale_t) (what : string) :
  (exists sc, sc ∈ scales /\ sc_ch sc = 0) ->
  find_scale ch val scales what <> PastTable.
Proof.
  induction scales as [|sc scales IH]; intros (sc0 & Hin & Hz); cbn [find_scale].
  - apply elem_of_nil in Hin. contradiction.
  - destruct (Z.eqb_spec (sc_ch sc) 0) as [_|Hne]; [discriminate|].
    destruct (ch =? sc_ch sc); [discriminate|].
    apply IH. exists sc0. split; [|exact Hz].
    apply elem_of_cons in Hin as [->|Hin]; [contradiction|exact Hin].
Qed.

Lemma find_scale_off (ch val : Z) (scales : list scale_t) (what : string) :
  Forall (fun sc => sc_ch sc <> 0) scales -> ch ∉ map sc_ch scales ->
  find_scale ch val scales what = PastTable.
Proof.
  induction scales as [|sc scales IH]; intros Hnz Hnot; cbn [find_scale];
    [reflexivity|].
  apply Forall_cons in Hnz as [Hsc Hnz].
  destruct (Z.eqb_spec (sc_ch sc) 0) as [?|_]; [contradiction|].
  destruct (Z.eqb_spec ch (sc_ch sc)) as [->|_].
  - exfalso. apply Hnot. cbn [map]. apply list_elem_of_here.
  - apply IH; [exact Hnz|]. intros Hin. apply Hnot. cbn [map].
    apply list_elem_of_further, Hin.
Qed.

Lemma get_uint64_scale_suffix (l : libc) (str : string) (scales : list scale_t)
    (what : string) (val : Z) :
  sscanf_u64 l str = Some val -> String.length str <> 0%nat ->
  isdigit (last_char str) = false ->
  get_uint64_scale l str scales what
  = find_scale (tolower (last_char str)) val scales what.
Proof.
  intros Hs Hl Hd. unfold get_uint64_scale, get_uint64. rewrite Hs. cbn [parse_bind].
  destruct (Nat.eqb_spec (String.length str) 0) as [?|_]; [contradiction|].
  rewrite Hd. reflexivity.
Qed.

(** X29: the table of time suffixes has no terminating entry.  A time
    whose last character is neither a digit nor one of s, m, h, d, y (in
    either case) makes the suffix search run through the five entries and
    read a sixth that is not there, where the same search over the size
    suffixes ends at the table's last entry with "Illegal length
    specifier"; a size is never looked up beyond its table. *)
Theorem time_suffix_off_table (l : libc) (str : string) (val : Z) :
  sscanf_u64 l str = Some val -> String.length str <> 0%nat ->
  isdigit (last_char str) = false ->
  (tolower (last_char str) ∉ map sc_ch time_scales ->
   get_uint64_time l str = PastTable)
  /\ (tolower (last_char str) ∉ map sc_ch byte_scales ->
      get_uint64_byte l str = Quit EXIT_FAILURE "Illegal length specifier")
  /\ get_uint64_byte l str <> PastTable.
Proof.
  intros Hs Hl Hd. unfold get_uint64_time, get_uint64_byte.
  rewrite !(get_uint64_scale_suffix l str _ _ val Hs Hl Hd).
  split; [|split].
  - intros Hnot. apply find_scale_off; [|exact Hnot].
    repeat constructor; discriminate.
  - intros Hnot. unfold byte_scales in *. cbn [map sc_ch] in Hnot.
    cbn [find_scale sc_ch].
    repeat match goal with
           | |- context [Z.eqb (chr ?a) 0] =>
               change (Z.eqb (chr a) 0) with false; cbv iota
           end.
    repeat match goal with
           | |- context [Z.eqb ?a (chr ?b)] =>
               destruct (Z.eqb_spec a (chr b)) as [E|_];
               [exfalso; apply Hnot; rewrite E;
                repeat first [apply list_elem_of_here|apply list_elem_of_further]|]
           end.
    reflexivity.
  - apply find_scale_terminated. exists (mk_scale 0 0). split; [|reflexivity].
    unfold byte_scales. repeat first [apply list_elem_of_here|apply list_elem_of_further].
Qed.

Lemma time_suffix_off_table_witness :
  get_uint64_time sample_libc "10w" = PastTable
  /\ get_uint64_byte sample_libc "10w" = Quit EXIT_FAILURE "Illegal length specifier"
  /\ get_uint64_time sample_libc "10M" = Ok 600
  /\ get_uint64_byte sample_libc "10M" = Ok 10485760.
Proof.
  destruct (time_suffix_off_table sample_libc "10w" 10) as (H1 & H2 & _);
    [reflexivity|discriminate|reflexivity|].
  split; [|split; [|split; reflexivity]].
  - apply H1. vm_compute. intros H.
    repeat (apply elem_of_cons in H as [H|H]; [discriminate H|]).
    apply elem_of_nil in H. contradiction.
  - apply H2. vm_compute. intros H.
    repeat (apply elem_of_cons in H as [H|H]; [discriminate H|]).
    apply elem_of_nil in H. contradiction.
Defined.

Lemma tolower_not_digit (ch : Z) (c : ascii) :
  tolower ch = chr c -> isdigit (chr c) = false -> isdigit ch = false.
Proof.
  unfold tolower, isdigit. intros Ht Hd.
  change (chr "0"%char) with 48 in *. change (chr "9"%char) with 57 in *.
  change (chr "A"%char) with 65 in *. change (chr "Z"%char) with 90 in *.
  destruct ((65 <=? ch) && (ch <=? 90)) eqn:Eu.
  - apply andb_true_iff in Eu as [H1 H2]. apply Z.leb_le in H1. apply Z.leb_le in H2.
    apply andb_false_iff. right. apply Z.leb_gt. lia.
  - rewrite Ht. exact Hd.
Qed.

(** X30: a size is scaled by an unsigned 64-bit multiplication that is
    not checked for overflow, and the range check sees the product only:
    with the suffix g (or G) the value is [val * 2^30] modulo 2^64, so a
    [--vm-bytes] far beyond the maximum is taken for the size it wraps
    around to whenever that lies within the limits. *)
Theorem size_scaling_wraps (l : libc) (str : string) (val : Z) (s : settings) :
  sscanf_u64 l str = Some val -> String.length str <> 0%nat ->
  tolower (last_char str) = chr "g"%char ->
  get_uint64_byte l str = Ok ((val * 2 ^ 30) mod 2 ^ 64)
  /\ (MIN_VM_BYTES <= (val * 2 ^ 30) mod 2 ^ 64 <= MAX_VM_BYTES ->
      parse_option l OPT_VM_BYTES str s
      = Ok (set_sizes (mk_sizes ((val * 2 ^ 30) mod 2 ^ 64)
                                (opt_vm_stride (s_sizes s)) (opt_vm_hang (s_sizes s))
                                (opt_hdd_bytes (s_sizes s))) s)).
Proof.
  intros Hs Hl Hg.
  assert (Hd : isdigit (last_char str) = false)
    by (apply (tolower_not_digit _ "g"%char Hg); reflexivity).
  assert (E : get_uint64_byte l str = Ok ((val * 2 ^ 30) mod 2 ^ 64)).
  { unfold get_uint64_byte. rewrite (get_uint64_scale_suffix l str _ _ val Hs Hl Hd).
    rewrite Hg. reflexivity. }
  split; [exact E|]. intros Hr.
  unfold parse_option.
  repeat match goal with
         | |- context [Z.eqb ?a ?b] =>
             let v := eval vm_compute in (Z.eqb a b) in
             change (Z.eqb a b) with v
         end.
  cbv iota. rewrite E. cbn [parse_bind]. unfold check_range.
  destruct (Z.ltb_spec ((val * 2 ^ 30) mod 2 ^ 64) MIN_VM_BYTES) as [?|_]; [lia|].
  destruct (Z.ltb_spec MAX_VM_BYTES ((val * 2 ^ 30) mod 2 ^ 64)) as [?|_]; [lia|].
  reflexivity.
Qed.

Lemma size_scaling_wraps_witness :
  exists s, parse_option sample_libc OPT_VM_BYTES "17179869185G" default_settings = Ok s
            /\ opt_vm_bytes (s_sizes s) = 1 * GB.
Proof.
  eexists.
  destruct (size_scaling_wraps sample_libc "17179869185G" 17179869185 default_settings)
    as [_ H]; [reflexivity|discriminate|reflexivity|].
  split; [apply H; vm_compute; split; discriminate|reflexivity].
Defined.

(** * The reap loop when [wait] fails *)















(** * The triad's watchdog *)

(** ** The killer's loop *)







(** ** The parent's loop when it reads the stop flag cleared *)










